(** * Wallet balance checker: a shallow embedding of the polling pipeline

    The program reads a list of credential rows, derives the set of
    embedded-wallet addresses, fetches one token catalog per chain, probes
    the native balance and the first twenty catalog tokens of every wallet on
    every chain, streams each result to the output files, and rewrites the
    source list without a wallet once that wallet is done.

    The embedding follows the JavaScript source function by function.
    Module-level mutable state ([errors], [clientCache]) and the five files
    live in one [World] record that is threaded through a small
    state-and-exception monad.  The network (catalog service and chain RPC)
    and the [viem] unit formatter are outside the repository: they are the
    fields of an [Env] record over which every definition is parametric.

    What the model leaves out:
    - time: the [delay] calls and the console output;
    - the text of the CSV and JSON files: a file is kept as the rows or
      records that [stringify] and [parse] exchange with it;
    - failures of the file system other than a missing source list: writes
      always succeed;
    - values of unexpected type: a thrown value is an [Error] with a
      [message], a catalog entry is a token object, a truthy [data] field is
      a sequence of tokens;
    - the rounding of [Number] to a double. *)

From Stdlib Require Import ZArith NArith QArith List Lia.
From stdpp Require Import base option list gmap strings pretty.

Close Scope Q_scope.
Local Open Scope string_scope.
Local Open Scope list_scope.

(** ** Data model *)

Module NativeCurrency.
Record t := mk { symbol : string; decimals : Z }.
End NativeCurrency.

(** An entry of the [CHAINS] table. *)
Module Chain.
Record t := mk {
  id : Z;
  name : string;
  rpcUrl : string;
  nativeCurrency : NativeCurrency.t
}.
End Chain.

(** A token descriptor of the catalog: [{address, symbol, name, decimals}].
    [decimals] is [None] when the field is missing from the payload. *)
Module Token.
Record t := mk {
  address : string;
  symbol : string;
  name : string;
  decimals : option Z
}.
End Token.

(** The object returned by [checkNativeBalance] and [checkERC20Balance].
    [error] is only present on the record built in the [catch] block. *)
Module BalanceRecord.
Record t := mk {
  chain : string;
  tokenType : string;
  symbol : string;
  balance : Q;
  tokenAddress : string;
  tokenName : string;
  error : option string
}.
End BalanceRecord.

(** An element of the module-level [errors] array. *)
Module ErrorRecord.
Record t := mk {
  chain : string;
  token : string;
  tokenAddress : string;
  walletAddress : string;
  operation : string;
  error : string
}.
End ErrorRecord.

(** A parsed row of [wallet-list.csv] ([columns: true]).  A field is [None]
    when the file has no such column, so that reading it gives [undefined];
    the remaining columns are carried along untouched. *)
Module SourceRecord.
Record t := mk {
  verified_credential_address : option string;
  verified_credential_format : option string;
  verified_credential_walletProvider : option string;
  other_columns : list (string * string)
}.
End SourceRecord.

(** A cell handed to [stringify]: a string or a number. *)
Inductive Cell :=
| CStr (s : string)
| CNum (q : Q).

Definition Row := list Cell.

(** The [data] field of the catalog response body, and the body itself;
    [None] stands for a missing (falsy) field. *)
Module Response.
Record body := mkBody { data_data : option (list Token.t) }.
Record t := mk { data : option body }.
End Response.

(** External calls and source-list rewrites, in the order they happen. *)
Inductive Event :=
| CatalogFetch (chainId : Z)
| NativeProbe (address : string) (chain : Chain.t)
| ERC20Probe (address : string) (chain : Chain.t) (token : Token.t)
| Checkpoint (addressToRemove : string).

(** The three files written through [appendToCsv]. *)
Inductive CsvPath := allBalancesPath | nonZeroBalancesPath | errorCsvPath.

(** Module-level state and the files.  A file is [None] while it does not
    exist ([fs.existsSync] is false); CSV files are kept as their rows, the
    header row included, and [wallet-list.csv] as its parsed records. *)
Record World := mkWorld {
  errors : list ErrorRecord.t;
  clientCache : list Z;
  inputCsv : option (list SourceRecord.t);
  allBalances : option (list Row);
  nonZeroBalances : option (list Row);
  errorCsv : option (list Row);
  errorJson : option (list ErrorRecord.t);
  log : list Event
}.

(** ** Computations: state plus exceptions *)

(** What an [await]ed call or a statement ends in: a value, or a thrown
    error of which only [error.message] is ever read. *)
Inductive Outcome (A : Type) :=
| Ret (a : A)
| Throw (message : string).
Arguments Ret {A} a.
Arguments Throw {A} message.

Definition M (A : Type) : Type := World -> Outcome A * World.

Definition ret {A} (a : A) : M A := fun w => (Ret a, w).

Definition throw {A} (message : string) : M A := fun w => (Throw message, w).

Definition bind {A B} (m : M A) (k : A -> M B) : M B :=
  fun w =>
    match m w with
    | (Ret a, w') => k a w'
    | (Throw message, w') => (Throw message, w')
    end.

(** [try { body } catch (error) { handler(error.message) }]: the writes made
    by [body] before it threw stay in place. *)
Definition try_catch {A} (body : M A) (handler : string -> M A) : M A :=
  fun w =>
    match body w with
    | (Ret a, w') => (Ret a, w')
    | (Throw message, w') => handler message w'
    end.

Declare Scope js_scope.
Delimit Scope js_scope with js.
Notation "x <- m ;; k" := (bind m (fun x => k))
  (at level 100, m at next level, right associativity) : js_scope.
Notation "m ;;; k" := (bind m (fun _ => k))
  (at level 100, right associativity) : js_scope.
Local Open Scope js_scope.

(** [for (const x of l) { s = body(s, x) }] with the loop-carried locals
    [s]; a throwing iteration leaves the loop. *)
Fixpoint for_of {A S} (body : S -> A -> M S) (l : list A) (s : S) : M S :=
  match l with
  | [] => ret s
  | x :: l' => s' <- body s x ;; for_of body l' s'
  end.

Definition get : M World := fun w => (Ret w, w).
Definition modify (f : World -> World) : M unit := fun w => (Ret tt, f w).

(** ** The outside world *)

(** The collaborators that are not part of the repository.  The first
    argument of a network call is the number of events logged before it, so
    the same request may fail once and succeed later.
    - [axios_get i chainId]: the catalog request;
    - [getBalance i chain address]: [client.getBalance({ address })];
    - [readContract i chain tokenAddress address]: the [balanceOf] read;
    - [formatEther wei unit]: [viem]'s formatter, read as the number its
      decimal string denotes; [unit] is [None] when the call omits it. *)
Record Env := mkEnv {
  axios_get : nat -> Z -> Outcome Response.t;
  getBalance : nat -> Chain.t -> string -> Outcome N;
  readContract : nat -> Chain.t -> string -> string -> Outcome N;
  formatEther : N -> option Z -> Q
}.

(** [Number(s)] on the decimal string of [formatEther]; the rounding to a
    double is not modelled, the value is kept exact. *)
Definition Number (q : Q) : Q := q.

(** The comparison [x < y] on numbers is decided on the cross products. *)
#[global] Instance Qlt_decision (x y : Q) : Decision (x < y)%Q :=
  Z_lt_dec (Qnum x * QDen y) (Qnum y * QDen x).

(** ** File and state primitives *)

Definition set_errors (v : list ErrorRecord.t) (w : World) : World :=
  mkWorld v (clientCache w) (inputCsv w) (allBalances w) (nonZeroBalances w)
          (errorCsv w) (errorJson w) (log w).

Definition set_clientCache (v : list Z) (w : World) : World :=
  mkWorld (errors w) v (inputCsv w) (allBalances w) (nonZeroBalances w)
          (errorCsv w) (errorJson w) (log w).

Definition set_inputCsv (v : option (list SourceRecord.t)) (w : World) : World :=
  mkWorld (errors w) (clientCache w) v (allBalances w) (nonZeroBalances w)
          (errorCsv w) (errorJson w) (log w).

Definition set_errorJson (v : option (list ErrorRecord.t)) (w : World) : World :=
  mkWorld (errors w) (clientCache w) (inputCsv w) (allBalances w)
          (nonZeroBalances w) (errorCsv w) v (log w).

Definition set_log (v : list Event) (w : World) : World :=
  mkWorld (errors w) (clientCache w) (inputCsv w) (allBalances w)
          (nonZeroBalances w) (errorCsv w) (errorJson w) v.

Definition read_csv (p : CsvPath) (w : World) : option (list Row) :=
  match p with
  | allBalancesPath => allBalances w
  | nonZeroBalancesPath => nonZeroBalances w
  | errorCsvPath => errorCsv w
  end.

Definition write_csv (p : CsvPath) (rows : list Row) (w : World) : World :=
  match p with
  | allBalancesPath =>
      mkWorld (errors w) (clientCache w) (inputCsv w) (Some rows)
              (nonZeroBalances w) (errorCsv w) (errorJson w) (log w)
  | nonZeroBalancesPath =>
      mkWorld (errors w) (clientCache w) (inputCsv w) (allBalances w)
              (Some rows) (errorCsv w) (errorJson w) (log w)
  | errorCsvPath =>
      mkWorld (errors w) (clientCache w) (inputCsv w) (allBalances w)
              (nonZeroBalances w) (Some rows) (errorJson w) (log w)
  end.

(** [fs.existsSync], [fs.writeFileSync] and [fs.appendFileSync] on a CSV
    file; appending to a missing file creates it. *)
Definition existsSync (p : CsvPath) : M bool :=
  fun w => (Ret (bool_decide (is_Some (read_csv p w))), w).

Definition writeFileSync (p : CsvPath) (rows : list Row) : M unit :=
  modify (write_csv p rows).

Definition appendFileSync (p : CsvPath) (rows : list Row) : M unit :=
  modify (fun w => write_csv p (default [] (read_csv p w) ++ rows) w).

(** [errors.push(e)]. *)
Definition errors_push (e : ErrorRecord.t) : M unit :=
  modify (fun w => set_errors (errors w ++ [e]) w).

Definition log_event (e : Event) (w : World) : World :=
  set_log (log w ++ [e]) w.

(** ** The program *)

Definition headers : Row :=
  map CStr ["address"; "chain"; "tokenType"; "symbol"; "balance";
            "tokenAddress"; "tokenName"].

Definition errorHeaders : Row :=
  map CStr ["chain"; "token"; "tokenAddress"; "walletAddress"; "operation";
            "error"].

Definition initializeOutputFiles : M unit :=
  b1 <- existsSync allBalancesPath ;;
  (if negb b1 then writeFileSync allBalancesPath [headers] else ret tt) ;;;
  b2 <- existsSync nonZeroBalancesPath ;;
  (if negb b2 then writeFileSync nonZeroBalancesPath [headers] else ret tt) ;;;
  b3 <- existsSync errorCsvPath ;;
  (if negb b3 then writeFileSync errorCsvPath [errorHeaders] else ret tt) ;;;
  w <- get ;;
  if negb (bool_decide (is_Some (errorJson w)))
  then modify (set_errorJson (Some []))
  else ret tt.

Definition appendToCsv (filePath : CsvPath) (rows : list Row) : M unit :=
  appendFileSync filePath rows.

Definition updateErrorJson : M unit :=
  modify (fun w => set_errorJson (Some (errors w)) w).

(** [String(chainId)]. *)
Definition String_of (n : Z) : string := pretty n.

(** [x || 18] on an optional number: [undefined] and [0] are both falsy. *)
Definition or_default (x : option Z) (d : Z) : Z :=
  match x with
  | Some v => if decide (v = 0%Z) then d else v
  | None => d
  end.

(** [getClient(chain)]: the cache gets an entry for [chain.id] on first
    use.  The handle itself is not represented, the requests below take the
    chain. *)
Definition new_client (chain : Chain.t) (w : World) : World :=
  if decide (Chain.id chain ∈ clientCache w) then w
  else set_clientCache (clientCache w ++ [Chain.id chain]) w.

Definition getClient (chain : Chain.t) : M unit := modify (new_client chain).

Section Program.

Context (env : Env) (CHAINS : list Chain.t).

(** [axios.get], [client.getBalance] and [client.readContract] ask the
    environment and leave an event in the log. *)
Definition axios_get_tokenlist (chainId : Z) : M Response.t :=
  fun w => (axios_get env (length (log w)) chainId,
            log_event (CatalogFetch chainId) w).

Definition client_getBalance (chain : Chain.t) (address : string) : M N :=
  fun w => (getBalance env (length (log w)) chain address,
            log_event (NativeProbe address chain) w).

Definition client_readContract (chain : Chain.t) (token : Token.t)
    (address : string) : M N :=
  fun w => (readContract env (length (log w)) chain (Token.address token) address,
            log_event (ERC20Probe address chain token) w).

Definition fetchTokenList (chainId : Z) : M (list Token.t) :=
  try_catch
    (response <- axios_get_tokenlist chainId ;;
     match Response.data response with
     | Some body =>
         match Response.data_data body with
         | Some tokens => ret tokens
         | None => ret []
         end
     | None => ret []
     end)
    (fun message =>
       errors_push (ErrorRecord.mk (String_of chainId) "N/A" "N/A" "N/A"
                                   "fetchTokenList" message) ;;;
       updateErrorJson ;;;
       appendToCsv errorCsvPath
         [[CStr (String_of chainId); CStr "N/A"; CStr "N/A"; CStr "N/A";
           CStr "fetchTokenList"; CStr message]] ;;;
       ret []).

Definition checkNativeBalance (address : string) (chain : Chain.t)
    : M BalanceRecord.t :=
  let symbol := NativeCurrency.symbol (Chain.nativeCurrency chain) in
  try_catch
    (getClient chain ;;;
     balance <- client_getBalance chain address ;;
     let formattedBalance := Number (formatEther env balance None) in
     ret (BalanceRecord.mk (Chain.name chain) "native" symbol
                           formattedBalance "native" symbol None))
    (fun message =>
       errors_push (ErrorRecord.mk (Chain.name chain) symbol "native"
                                   address "checkNativeBalance" message) ;;;
       updateErrorJson ;;;
       appendToCsv errorCsvPath
         [[CStr (Chain.name chain); CStr symbol; CStr "native";
           CStr address; CStr "checkNativeBalance"; CStr message]] ;;;
       ret (BalanceRecord.mk (Chain.name chain) "native" symbol 0
                             "native" symbol (Some message))).

Definition checkERC20Balance (address : string) (chain : Chain.t)
    (token : Token.t) : M BalanceRecord.t :=
  try_catch
    (getClient chain ;;;
     balance <- client_readContract chain token address ;;
     let decimals := or_default (Token.decimals token) 18 in
     let formattedBalance :=
       Number (formatEther env balance (Some decimals)) in
     ret (BalanceRecord.mk (Chain.name chain) "erc20" (Token.symbol token)
                           formattedBalance (Token.address token)
                           (Token.name token) None))
    (fun message =>
       errors_push (ErrorRecord.mk (Chain.name chain) (Token.symbol token)
                                   (Token.address token) address
                                   "checkERC20Balance" message) ;;;
       updateErrorJson ;;;
       appendToCsv errorCsvPath
         [[CStr (Chain.name chain); CStr (Token.symbol token);
           CStr (Token.address token); CStr address;
           CStr "checkERC20Balance"; CStr message]] ;;;
       ret (BalanceRecord.mk (Chain.name chain) "erc20"
                             (Token.symbol token) 0 (Token.address token)
                             (Token.name token) (Some message))).

(** The seven cells written to a balance file for one probe result. *)
Definition balance_row (address : string) (b : BalanceRecord.t) : Row :=
  [CStr address; CStr (BalanceRecord.chain b);
   CStr (BalanceRecord.tokenType b); CStr (BalanceRecord.symbol b);
   CNum (BalanceRecord.balance b); CStr (BalanceRecord.tokenAddress b);
   CStr (BalanceRecord.tokenName b)].

(** [balance > 0] on the number of a record. *)
Definition positive (b : BalanceRecord.t) : bool :=
  bool_decide (0 < BalanceRecord.balance b)%Q.

(** The locals of [processWallet]: [results], whose elements are
    [{address, ...balance}], and [hasNonZeroBalance]. *)
Definition WalletResult : Type := list (string * BalanceRecord.t) * bool.

(** The statements of [processWallet] that follow a probe: push the
    result, append it to the non-zero file when its balance is positive,
    append it to the all-balances file. *)
Definition record_result (address : string) (st : WalletResult)
    (b : BalanceRecord.t) : M WalletResult :=
  let results := st.1 ++ [(address, b)] in
  hasNonZeroBalance <-
    (if positive b
     then appendToCsv nonZeroBalancesPath [balance_row address b] ;;; ret true
     else ret st.2) ;;
  appendToCsv allBalancesPath [balance_row address b] ;;;
  ret (results, hasNonZeroBalance).

Definition processWallet (address : string)
    (tokenLists : gmap Z (list Token.t)) : M WalletResult :=
  for_of
    (fun st chain =>
       nativeBalance <- checkNativeBalance address chain ;;
       st <- record_result address st nativeBalance ;;
       let tokens := default [] (tokenLists !! Chain.id chain) in
       let tokensToCheck := take 20 tokens in
       for_of
         (fun st token =>
            tokenBalance <- checkERC20Balance address chain token ;;
            record_result address st tokenBalance)
         tokensToCheck st)
    CHAINS ([], false).

(** The predicate of the [filter] in [updateWalletListCsv], before its
    negation. *)
Definition processed_row (addressToRemove : string)
    (record : SourceRecord.t) : bool :=
  bool_decide (SourceRecord.verified_credential_address record
               = Some addressToRemove)
  && bool_decide (SourceRecord.verified_credential_format record
                  = Some "blockchain")
  && bool_decide (SourceRecord.verified_credential_walletProvider record
                  = Some "embeddedWallet").

Definition updateWalletListCsv (records : list SourceRecord.t)
    (addressToRemove : string) : M (list SourceRecord.t) :=
  let updatedRecords :=
    filter (fun record => negb (processed_row addressToRemove record))
           records in
  modify (fun w => log_event (Checkpoint addressToRemove)
                     (set_inputCsv (Some updatedRecords) w)) ;;;
  ret updatedRecords.

(** [wallets.add(address)] on a [Set], kept in insertion order. *)
Definition Set_add (wallets : list string) (address : string) : list string :=
  if decide (address ∈ wallets) then wallets else wallets ++ [address].

(** The condition of the [if] in the [records.forEach] callback. *)
Definition eligible (record : SourceRecord.t) : option string :=
  match SourceRecord.verified_credential_address record with
  | Some address =>
      if negb (bool_decide (address = ""))
         && String.prefix "0x" address
         && bool_decide (SourceRecord.verified_credential_format record
                         = Some "blockchain")
         && bool_decide (SourceRecord.verified_credential_walletProvider record
                         = Some "embeddedWallet")
      then Some address else None
  | None => None
  end.

Definition derive_wallets (records : list SourceRecord.t) : list string :=
  fold_left
    (fun wallets record =>
       match eligible record with
       | Some address => Set_add wallets address
       | None => wallets
       end)
    records [].

(** [fs.readFileSync(inputCsvPath)] followed by [parse]: a missing file
    throws. *)
Definition read_records : M (list SourceRecord.t) :=
  w <- get ;;
  match inputCsv w with
  | Some records => ret records
  | None => throw "ENOENT: no such file or directory"
  end.

Definition fetch_catalogs : M (gmap Z (list Token.t)) :=
  for_of
    (fun tokenLists chain =>
       tokens <- fetchTokenList (Chain.id chain) ;;
       ret (<[Chain.id chain := tokens]> tokenLists))
    CHAINS ∅.

Definition processWallets : M unit :=
  try_catch
    (initializeOutputFiles ;;;
     records <- read_records ;;
     let wallets := derive_wallets records in
     tokenLists <- fetch_catalogs ;;
     for_of
       (fun st address =>
          let count := S st.1 in
          processWallet address tokenLists ;;;
          records <- updateWalletListCsv st.2 address ;;
          ret (count, records))
       wallets (0, records) ;;;
     ret tt)
    (fun message =>
       errors_push (ErrorRecord.mk "N/A" "N/A" "N/A" "N/A"
                                   "processWallets" message) ;;;
       try_catch
         (updateErrorJson ;;;
          appendToCsv errorCsvPath
            [[CStr "N/A"; CStr "N/A"; CStr "N/A"; CStr "N/A";
              CStr "processWallets"; CStr message]])
         (fun _ => ret tt)).

End Program.

(** ** The registry and sample environments *)

(** The [CHAINS] table as it is enabled in the source: Ethereum only. *)
Definition Ethereum : Chain.t :=
  Chain.mk 1 "Ethereum" "https://eth.llamarpc.com" (NativeCurrency.mk "ETH" 18).

Definition CHAINS : list Chain.t := [Ethereum].

(** A formatter that honours a numeric second argument:
    [wei / 10^unit], with 18 decimals when the argument is omitted. *)
Definition formatEther_scaling (wei : N) (unit : option Z) : Q :=
  (Z.of_N wei # Z.to_pos (10 ^ default 18%Z unit))%Q.

(** [viem]'s own [formatEther(wei, unit = 'wei')] is
    [formatUnits(wei, etherUnits[unit])] with [etherUnits = {gwei: 9, wei: 18}].
    A number is not a key of that table, so [formatUnits] receives
    [undefined]: it pads nothing, takes an empty integer part and prints all
    the digits of [wei] after ["0."]. *)
Definition formatEther_viem (wei : N) (unit : option Z) : Q :=
  match unit with
  | None => (Z.of_N wei # Z.to_pos (10 ^ 18))%Q
  | Some _ =>
      (Z.of_N wei # Z.to_pos (10 ^ Z.of_nat (String.length (pretty wei))))%Q
  end.

(** A network on which every request succeeds: the catalog holds [tokens]
    and every balance is [raw]. *)
Definition env_up (tokens : list Token.t) (raw : N) (fmt : N -> option Z -> Q)
    : Env :=
  mkEnv (fun _ _ => Ret (Response.mk (Some (Response.mkBody (Some tokens)))))
        (fun _ _ _ => Ret raw)
        (fun _ _ _ _ => Ret raw)
        fmt.

(** A network on which every request throws. *)
Definition env_down : Env :=
  mkEnv (fun _ _ => Throw "Network Error")
        (fun _ _ _ => Throw "HTTP request failed.")
        (fun _ _ _ _ => Throw "execution reverted")
        formatEther_scaling.

(** The catalog answers with a body that has no [data] field. *)
Definition env_malformed : Env :=
  mkEnv (fun _ _ => Ret (Response.mk (Some (Response.mkBody None))))
        (fun _ _ _ => Ret 0%N)
        (fun _ _ _ _ => Ret 0%N)
        formatEther_scaling.

(** The state of a process that has just started in a directory where only
    [wallet-list.csv] exists. *)
Definition fresh (records : list SourceRecord.t) : World :=
  mkWorld [] [] (Some records) None None None None [].

(** The state of a process restarted after an earlier run that left its
    output files behind, [old] being the error rows of that run. *)
Definition resumed (records : list SourceRecord.t) (old : list ErrorRecord.t)
    (old_rows : list Row) : World :=
  mkWorld [] [] (Some records) (Some [headers]) (Some [headers])
          (Some (errorHeaders :: old_rows)) (Some old) [].

Definition embedded (address : string) : SourceRecord.t :=
  SourceRecord.mk (Some address) (Some "blockchain") (Some "embeddedWallet") [].

Definition sample_token (n : nat) : Token.t :=
  Token.mk ("0xT" +:+ pretty n) ("T" +:+ pretty n) "Sample token" (Some 6%Z).

(** ** Vocabulary of the statements *)

(** The rows of a CSV file, none for a file that does not exist. *)
Definition rows (p : CsvPath) (w : World) : list Row :=
  default [] (read_csv p w).

(** The six cells of an error record, in the order of [errorHeaders]. *)
Definition error_row (e : ErrorRecord.t) : Row :=
  [CStr (ErrorRecord.chain e); CStr (ErrorRecord.token e);
   CStr (ErrorRecord.tokenAddress e); CStr (ErrorRecord.walletAddress e);
   CStr (ErrorRecord.operation e); CStr (ErrorRecord.error e)].

Definition result_row (r : string * BalanceRecord.t) : Row :=
  balance_row r.1 r.2.

(** The state after one absorbed failure [e]: pushed on [errors], the JSON
    document rewritten with the whole list, one row appended to the CSV. *)
Definition absorb (e : ErrorRecord.t) (w : World) : World :=
  let w1 := set_errors (errors w ++ [e]) w in
  let w2 := set_errorJson (Some (errors w1)) w1 in
  write_csv errorCsvPath (rows errorCsvPath w2 ++ [error_row e]) w2.

(** How the error log of [w'] extends that of [w]. *)
Definition mirrored (w w' : World) : Prop :=
  ∃ es, errors w' = errors w ++ es
        ∧ rows errorCsvPath w' = rows errorCsvPath w ++ map error_row es
        ∧ (es = [] → errorJson w' = errorJson w)
        ∧ (es ≠ [] → errorJson w' = Some (errors w')).

(** What a piece of the run adds to the outside: the events [evs], the
    probe results [rs] in both balance files, and mirrored errors.  Files
    that exist keep existing. *)
Definition Out (evs : list Event) (rs : list (string * BalanceRecord.t))
    (w w' : World) : Prop :=
  log w' = log w ++ evs
  ∧ rows allBalancesPath w' = rows allBalancesPath w ++ map result_row rs
  ∧ rows nonZeroBalancesPath w'
    = rows nonZeroBalancesPath w
      ++ map result_row (filter (λ r, positive r.2) rs)
  ∧ mirrored w w'
  ∧ (∀ p, is_Some (read_csv p w) → is_Some (read_csv p w'))
  ∧ (is_Some (errorJson w) → is_Some (errorJson w')).

(** A piece of the run that leaves the source list alone. *)
Definition Probe (evs : list Event) (rs : list (string * BalanceRecord.t))
    (w w' : World) : Prop :=
  Out evs rs w w' ∧ inputCsv w' = inputCsv w.

(** The tokens of a catalog that the cap lets through. *)
Definition capped (catalog : list Token.t) : list Token.t :=
  take (20 `min` length catalog) catalog.

(** The probes of one wallet on one chain, then on the whole registry. *)
Definition chain_probes (address : string) (tokenLists : gmap Z (list Token.t))
    (chain : Chain.t) : list Event :=
  NativeProbe address chain
  :: map (ERC20Probe address chain)
         (capped (default [] (tokenLists !! Chain.id chain))).

Definition wallet_probes (registry : list Chain.t) (address : string)
    (tokenLists : gmap Z (list Token.t)) : list Event :=
  flat_map (chain_probes address tokenLists) registry.

(** The addresses named by the checkpoints of a log. *)
Definition checkpoints (evs : list Event) : list string :=
  omap (λ e, match e with Checkpoint a => Some a | _ => None end) evs.

Definition is_balance_probe (e : Event) : bool :=
  match e with
  | NativeProbe _ _ | ERC20Probe _ _ _ => true
  | _ => false
  end.

(** A row is eligible for [address], in the words of the input contract:
    the address is a non-empty string starting with ["0x"], the format is
    ["blockchain"] and the provider is ["embeddedWallet"]. *)
Definition eligible_row (address : string) (record : SourceRecord.t) : Prop :=
  SourceRecord.verified_credential_address record = Some address
  ∧ address ≠ ""
  ∧ String.prefix "0x" address = true
  ∧ SourceRecord.verified_credential_format record = Some "blockchain"
  ∧ SourceRecord.verified_credential_walletProvider record
    = Some "embeddedWallet".

#[global] Instance eligible_row_dec address record :
  Decision (eligible_row address record).
Proof. unfold eligible_row. apply _. Defined.

(** The addresses of the eligible rows, one per row, in row order. *)
Definition eligible_addresses (records : list SourceRecord.t) : list string :=
  omap (λ r, match SourceRecord.verified_credential_address r with
             | Some a => if decide (eligible_row a r) then Some a else None
             | None => None
             end) records.

(** A row that a checkpoint for [address] removes. *)
Definition checkpoint_row (address : string) (record : SourceRecord.t) : Prop :=
  SourceRecord.verified_credential_address record = Some address
  ∧ SourceRecord.verified_credential_format record = Some "blockchain"
  ∧ SourceRecord.verified_credential_walletProvider record
    = Some "embeddedWallet".

#[global] Instance checkpoint_row_dec address record :
  Decision (checkpoint_row address record).
Proof. unfold checkpoint_row. apply _. Defined.

(** Deduplication that keeps the first occurrence of every element. *)
Fixpoint first_occurrences (l : list string) : list string :=
  match l with
  | [] => []
  | x :: l' => x :: filter (λ y, y ≠ x) (first_occurrences l')
  end.

(** The files as [initializeOutputFiles] leaves them: a missing file is
    created with its header row (the JSON document with an empty array), an
    existing one is left as it is. *)
Definition init_world (w : World) : World :=
  mkWorld (errors w) (clientCache w) (inputCsv w)
          (Some (default [headers] (allBalances w)))
          (Some (default [headers] (nonZeroBalances w)))
          (Some (default [errorHeaders] (errorCsv w)))
          (Some (default [] (errorJson w)))
          (log w).

(** The source list once the wallets [done] have been checkpointed, one
    after the other. *)
Definition remaining (done : list string) (records : list SourceRecord.t)
    : list SourceRecord.t :=
  fold_left (λ rs a, filter (λ r, ¬ checkpoint_row a r) rs) done records.

(** The events of the wallet loop: the probes of a wallet, then its
    checkpoint. *)
Definition wallet_events (registry : list Chain.t)
    (tokenLists : gmap Z (list Token.t)) (wallets : list string) : list Event :=
  flat_map (λ a, wallet_probes registry a tokenLists ++ [Checkpoint a]) wallets.

(** The error CSV holds the rows [base] it had when the process started,
    followed by one row per element of [errors]. *)
Definition tracks (base : list Row) (w : World) : Prop :=
  rows errorCsvPath w = base ++ map error_row (errors w).

(** The state [w'] right after the failure [e] was absorbed in [w]. *)
Definition failure_mirrored (base : list Row) (e : ErrorRecord.t)
    (w w' : World) : Prop :=
  errors w' = errors w ++ [e]
  ∧ errorJson w' = Some (errors w')
  ∧ last (errors w') = Some e
  ∧ last (rows errorCsvPath w') = Some (error_row e)
  ∧ tracks base w'
  ∧ length (errors w') = length (rows errorCsvPath w') - length base.

(** The catalog answered with the expected shape: a body whose [data]
    field holds a sequence of tokens. *)
Definition success_shape (answer : Outcome Response.t) : Prop :=
  ∃ tokens,
    answer = Ret (Response.mk (Some (Response.mkBody (Some tokens)))).

(** The failure policy of the catalog fetch as the design text words it:
    whenever the expected shape is not obtained, an error record tagged
    [fetchTokenList] is appended and the result is empty. *)
Definition catalog_failure_logged (env : Env) (chainId : Z) (w : World)
    : Prop :=
  ¬ success_shape (axios_get env (length (log w)) chainId) →
  ∃ e w',
    fetchTokenList env chainId w = (Ret [], w')
    ∧ errors w' = errors w ++ [e]
    ∧ ErrorRecord.operation e = "fetchTokenList"
    ∧ ErrorRecord.chain e = String_of chainId
    ∧ ErrorRecord.walletAddress e = "N/A".

(** The error mirror as the design text words it: the JSON document is the
    accumulated list and is one shorter than the CSV with its header. *)
Definition mirror_lengths_agree (w : World) : Prop :=
  errorJson w = Some (errors w)
  ∧ length (errors w) = length (rows errorCsvPath w) - 1.

(** A restart on an emptied source list as the design text words it: no
    balance probe is made and no output file gains a row. *)
Definition idle_restart (env : Env) (registry : list Chain.t) (w : World)
    : Prop :=
  ∀ records,
    inputCsv w = Some records → derive_wallets records = [] →
    ∃ w', processWallets env registry w = (Ret tt, w')
          ∧ filter is_balance_probe (drop (length (log w)) (log w')) = []
          ∧ ∀ p, rows p w' = rows p w.

(** A network that answers every request, with an empty catalog and
    balances of one unit. *)
Definition env_answering : Env := env_up [] 1 formatEther_viem.

(** ** Vocabulary of the run as a function of its requests *)

(** The tokens that [fetchTokenList] makes of an answer of the catalog. *)
Definition catalog_of (answer : Outcome Response.t) : list Token.t :=
  match answer with
  | Ret response => default [] (Response.data response ≫= Response.data_data)
  | Throw _ => []
  end.

(** The token lists after the catalogs of [chains] were fetched in turn,
    the first request being the one numbered [n]. *)
Fixpoint catalogs (env : Env) (n : nat) (chains : list Chain.t)
    (tokenLists : gmap Z (list Token.t)) : gmap Z (list Token.t) :=
  match chains with
  | [] => tokenLists
  | chain :: chains' =>
      catalogs env (S n) chains'
        (<[Chain.id chain :=
             catalog_of (axios_get env n (Chain.id chain))]> tokenLists)
  end.

(** The error record left by the request [ev] numbered [i], if it failed. *)
Definition error_of (env : Env) (i : nat) (ev : Event)
    : option ErrorRecord.t :=
  match ev with
  | CatalogFetch chainId =>
      match axios_get env i chainId with
      | Throw message =>
          Some (ErrorRecord.mk (String_of chainId) "N/A" "N/A" "N/A"
                               "fetchTokenList" message)
      | Ret _ => None
      end
  | NativeProbe address chain =>
      match getBalance env i chain address with
      | Throw message =>
          Some (ErrorRecord.mk
                  (Chain.name chain)
                  (NativeCurrency.symbol (Chain.nativeCurrency chain))
                  "native" address "checkNativeBalance" message)
      | Ret _ => None
      end
  | ERC20Probe address chain token =>
      match readContract env i chain (Token.address token) address with
      | Throw message =>
          Some (ErrorRecord.mk (Chain.name chain) (Token.symbol token)
                               (Token.address token) address
                               "checkERC20Balance" message)
      | Ret _ => None
      end
  | Checkpoint _ => None
  end.

Fixpoint errors_of (env : Env) (i : nat) (evs : list Event)
    : list ErrorRecord.t :=
  match evs with
  | [] => []
  | ev :: evs' => option_list (error_of env i ev) ++ errors_of env (S i) evs'
  end.

(** The result pushed on [results] for the probe [ev] numbered [i]. *)
Definition result_of (env : Env) (i : nat) (ev : Event)
    : option (string * BalanceRecord.t) :=
  match ev with
  | NativeProbe address chain =>
      let symbol := NativeCurrency.symbol (Chain.nativeCurrency chain) in
      Some (address,
            match getBalance env i chain address with
            | Ret raw =>
                BalanceRecord.mk (Chain.name chain) "native" symbol
                                 (Number (formatEther env raw None))
                                 "native" symbol None
            | Throw message =>
                BalanceRecord.mk (Chain.name chain) "native" symbol 0
                                 "native" symbol (Some message)
            end)
  | ERC20Probe address chain token =>
      Some (address,
            match readContract env i chain (Token.address token) address with
            | Ret raw =>
                BalanceRecord.mk
                  (Chain.name chain) "erc20" (Token.symbol token)
                  (Number (formatEther env raw
                             (Some (or_default (Token.decimals token) 18))))
                  (Token.address token) (Token.name token) None
            | Throw message =>
                BalanceRecord.mk (Chain.name chain) "erc20"
                                 (Token.symbol token) 0 (Token.address token)
                                 (Token.name token) (Some message)
            end)
  | _ => None
  end.

Fixpoint results_of (env : Env) (i : nat) (evs : list Event)
    : list (string * BalanceRecord.t) :=
  match evs with
  | [] => []
  | ev :: evs' => option_list (result_of env i ev) ++ results_of env (S i) evs'
  end.

(** The client cache after the requests [evs]: every probe asks
    [getClient] for the client of its chain. *)
Definition cache_add (cache : list Z) (i : Z) : list Z :=
  if decide (i ∈ cache) then cache else cache ++ [i].

Definition cache_after (cache : list Z) (evs : list Event) : list Z :=
  fold_left
    (λ c ev, match ev with
             | NativeProbe _ chain | ERC20Probe _ chain _ =>
                 cache_add c (Chain.id chain)
             | _ => c
             end)
    evs cache.

(** A piece of the run that made the requests [evs]: the log, the errors
    in memory and the client cache are those that the requests determine. *)
Definition Trace (env : Env) (evs : list Event) (w w' : World) : Prop :=
  log w' = log w ++ evs
  ∧ errors w' = errors w ++ errors_of env (length (log w)) evs
  ∧ clientCache w' = cache_after (clientCache w) evs.

(** The chain id whose client a request asks [getClient] for. *)
Definition probed_chain (ev : Event) : option Z :=
  match ev with
  | NativeProbe _ chain | ERC20Probe _ chain _ => Some (Chain.id chain)
  | _ => None
  end.

(** What a new process finds when it starts on the files that an earlier
    one left as [w]: no error in memory, no cached client.  The log goes on,
    so that the requests of both processes are numbered in one sequence. *)
Definition restart (w : World) : World :=
  mkWorld [] [] (inputCsv w) (allBalances w) (nonZeroBalances w)
          (errorCsv w) (errorJson w) (log w).

(** ** The batch variant of [index.js]

    The older entry point keeps every result in memory and writes the four
    output files once, at the end of [processWallets]; nothing is written
    while the wallets are probed and the source list is only read.  Its
    module-level state has the same [errors] and [clientCache]; a file is
    kept as the list of objects that [stringify] (or [JSON.stringify]) was
    last given for it. *)

Module Batch.

Record State := mkState {
  errors : list ErrorRecord.t;
  clientCache : list Z;
  inputCsv : option (list SourceRecord.t);
  walletBalances : option (list (string * BalanceRecord.t));
  walletsWithBalance : option (list (string * BalanceRecord.t));
  errorCsv : option (list ErrorRecord.t);
  errorJson : option (list ErrorRecord.t);
  log : list Event
}.

Definition M (A : Type) : Type := State -> Outcome A * State.

Definition ret {A} (a : A) : M A := fun s => (Ret a, s).

Definition throw {A} (message : string) : M A := fun s => (Throw message, s).

Definition bind {A B} (m : M A) (k : A -> M B) : M B :=
  fun s =>
    match m s with
    | (Ret a, s') => k a s'
    | (Throw message, s') => (Throw message, s')
    end.

Definition try_catch {A} (body : M A) (handler : string -> M A) : M A :=
  fun s =>
    match body s with
    | (Ret a, s') => (Ret a, s')
    | (Throw message, s') => handler message s'
    end.

Declare Scope batch_scope.
Delimit Scope batch_scope with batch.
Notation "x <- m ;; k" := (bind m (fun x => k))
  (at level 100, m at next level, right associativity) : batch_scope.
Notation "m ;;; k" := (bind m (fun _ => k))
  (at level 100, right associativity) : batch_scope.
Local Open Scope batch_scope.

Fixpoint for_of {A S} (body : S -> A -> M S) (l : list A) (s : S) : M S :=
  match l with
  | [] => ret s
  | x :: l' => s' <- body s x ;; for_of body l' s'
  end.

Definition get : M State := fun s => (Ret s, s).
Definition modify (f : State -> State) : M unit := fun s => (Ret tt, f s).

Definition errors_push (e : ErrorRecord.t) : M unit :=
  modify (fun s => mkState (errors s ++ [e]) (clientCache s) (inputCsv s)
                           (walletBalances s) (walletsWithBalance s)
                           (errorCsv s) (errorJson s) (log s)).

Definition log_event (e : Event) (s : State) : State :=
  mkState (errors s) (clientCache s) (inputCsv s) (walletBalances s)
          (walletsWithBalance s) (errorCsv s) (errorJson s) (log s ++ [e]).

Definition new_client (chain : Chain.t) (s : State) : State :=
  if decide (Chain.id chain ∈ clientCache s) then s
  else mkState (errors s) (clientCache s ++ [Chain.id chain]) (inputCsv s)
               (walletBalances s) (walletsWithBalance s) (errorCsv s)
               (errorJson s) (log s).

Definition getClient (chain : Chain.t) : M unit := modify (new_client chain).

(** [fs.writeFileSync] on each of the four output files. *)
Definition write_walletBalances (v : list (string * BalanceRecord.t))
    : M unit :=
  modify (fun s => mkState (errors s) (clientCache s) (inputCsv s) (Some v)
                           (walletsWithBalance s) (errorCsv s) (errorJson s)
                           (log s)).

Definition write_walletsWithBalance (v : list (string * BalanceRecord.t))
    : M unit :=
  modify (fun s => mkState (errors s) (clientCache s) (inputCsv s)
                           (walletBalances s) (Some v) (errorCsv s)
                           (errorJson s) (log s)).

Definition write_errorCsv (v : list ErrorRecord.t) : M unit :=
  modify (fun s => mkState (errors s) (clientCache s) (inputCsv s)
                           (walletBalances s) (walletsWithBalance s) (Some v)
                           (errorJson s) (log s)).

Definition write_errorJson (v : list ErrorRecord.t) : M unit :=
  modify (fun s => mkState (errors s) (clientCache s) (inputCsv s)
                           (walletBalances s) (walletsWithBalance s)
                           (errorCsv s) (Some v) (log s)).

Section Program.

Context (env : Env) (CHAINS : list Chain.t).

Definition axios_get_tokenlist (chainId : Z) : M Response.t :=
  fun s => (axios_get env (length (log s)) chainId,
            log_event (CatalogFetch chainId) s).

Definition client_getBalance (chain : Chain.t) (address : string) : M N :=
  fun s => (getBalance env (length (log s)) chain address,
            log_event (NativeProbe address chain) s).

Definition client_readContract (chain : Chain.t) (token : Token.t)
    (address : string) : M N :=
  fun s => (readContract env (length (log s)) chain (Token.address token)
              address,
            log_event (ERC20Probe address chain token) s).

Definition fetchTokenList (chainId : Z) : M (list Token.t) :=
  try_catch
    (response <- axios_get_tokenlist chainId ;;
     match Response.data response with
     | Some body =>
         match Response.data_data body with
         | Some tokens => ret tokens
         | None => ret []
         end
     | None => ret []
     end)
    (fun message =>
       errors_push (ErrorRecord.mk (String_of chainId) "N/A" "N/A" "N/A"
                                   "fetchTokenList" message) ;;;
       ret []).

Definition checkNativeBalance (address : string) (chain : Chain.t)
    : M BalanceRecord.t :=
  let symbol := NativeCurrency.symbol (Chain.nativeCurrency chain) in
  try_catch
    (getClient chain ;;;
     balance <- client_getBalance chain address ;;
     let formattedBalance := Number (formatEther env balance None) in
     ret (BalanceRecord.mk (Chain.name chain) "native" symbol
                           formattedBalance "native" symbol None))
    (fun message =>
       errors_push (ErrorRecord.mk (Chain.name chain) symbol "native"
                                   address "checkNativeBalance" message) ;;;
       ret (BalanceRecord.mk (Chain.name chain) "native" symbol 0
                             "native" symbol (Some message))).

Definition checkERC20Balance (address : string) (chain : Chain.t)
    (token : Token.t) : M BalanceRecord.t :=
  try_catch
    (getClient chain ;;;
     balance <- client_readContract chain token address ;;
     let decimals := or_default (Token.decimals token) 18 in
     let formattedBalance :=
       Number (formatEther env balance (Some decimals)) in
     ret (BalanceRecord.mk (Chain.name chain) "erc20" (Token.symbol token)
                           formattedBalance (Token.address token)
                           (Token.name token) None))
    (fun message =>
       errors_push (ErrorRecord.mk (Chain.name chain) (Token.symbol token)
                                   (Token.address token) address
                                   "checkERC20Balance" message) ;;;
       ret (BalanceRecord.mk (Chain.name chain) "erc20"
                             (Token.symbol token) 0 (Token.address token)
                             (Token.name token) (Some message))).

Definition read_records : M (list SourceRecord.t) :=
  s <- get ;;
  match inputCsv s with
  | Some records => ret records
  | None => throw "ENOENT: no such file or directory"
  end.

Definition fetch_catalogs : M (gmap Z (list Token.t)) :=
  for_of
    (fun tokenLists chain =>
       tokens <- fetchTokenList (Chain.id chain) ;;
       ret (<[Chain.id chain := tokens]> tokenLists))
    CHAINS ∅.

(** The body of the loop over [wallets]: the loop over [CHAINS] that
    pushes on [results]. *)
Definition check_wallet (tokenLists : gmap Z (list Token.t))
    (results : list (string * BalanceRecord.t)) (address : string)
    : M (list (string * BalanceRecord.t)) :=
  for_of
    (fun results chain =>
       nativeBalance <- checkNativeBalance address chain ;;
       let results := results ++ [(address, nativeBalance)] in
       let tokens := default [] (tokenLists !! Chain.id chain) in
       let tokensToCheck := take 20 tokens in
       for_of
         (fun results token =>
            tokenBalance <- checkERC20Balance address chain token ;;
            ret (results ++ [(address, tokenBalance)]))
         tokensToCheck results)
    CHAINS results.

Definition processWallets : M unit :=
  try_catch
    (records <- read_records ;;
     let wallets := derive_wallets records in
     tokenLists <- fetch_catalogs ;;
     st <- for_of
             (fun (st : list (string * BalanceRecord.t) * nat) address =>
                let count := S st.2 in
                results <- check_wallet tokenLists st.1 address ;;
                ret (results, count))
             wallets ([], 0) ;;
     let results := st.1 in
     write_walletBalances results ;;;
     let nonZeroBalances := filter (fun result => positive result.2) results in
     write_walletsWithBalance nonZeroBalances ;;;
     s <- get ;;
     write_errorCsv (errors s) ;;;
     s <- get ;;
     write_errorJson (errors s))
    (fun message =>
       errors_push (ErrorRecord.mk "N/A" "N/A" "N/A" "N/A"
                                   "processWallets" message) ;;;
       try_catch
         (s <- get ;;
          write_errorCsv (errors s) ;;;
          s <- get ;;
          write_errorJson (errors s))
         (fun _ => ret tt)).

End Program.

(** The [CHAINS] table of [index.js]. *)
Definition CHAINS : list Chain.t :=
  [Chain.mk 1 "Ethereum" "https://eth.llamarpc.com"
            (NativeCurrency.mk "ETH" 18);
   Chain.mk 56 "BNB Chain" "https://bsc-dataseed.binance.org"
            (NativeCurrency.mk "BNB" 18);
   Chain.mk 137 "Polygon" "https://polygon-rpc.com"
            (NativeCurrency.mk "MATIC" 18);
   Chain.mk 43114 "Avalanche" "https://api.avax.network/ext/bc/C/rpc"
            (NativeCurrency.mk "AVAX" 18);
   Chain.mk 10 "Optimism" "https://mainnet.optimism.io"
            (NativeCurrency.mk "ETH" 18);
   Chain.mk 42161 "Arbitrum" "https://arb1.arbitrum.io/rpc"
            (NativeCurrency.mk "ETH" 18);
   Chain.mk 8453 "Base" "https://mainnet.base.org"
            (NativeCurrency.mk "ETH" 18);
   Chain.mk 25 "Cronos" "https://evm.cronos.org"
            (NativeCurrency.mk "CRO" 18)].

(** A process that starts with the source list [records] and whatever the
    four output files held. *)
Definition start (records : option (list SourceRecord.t))
    (old : list (string * BalanceRecord.t)) (old_errors : list ErrorRecord.t)
    : State :=
  mkState [] [] records (Some old) (Some old) (Some old_errors)
          (Some old_errors) [].

(** The requests of a whole batch run. *)
Definition run_events (registry : list Chain.t)
    (tokenLists : gmap Z (list Token.t)) (wallets : list string)
    : list Event :=
  flat_map (λ a, wallet_probes registry a tokenLists) wallets.

(** A piece of the batch run that made the requests [evs] and wrote no
    file. *)
Definition Trace (env : Env) (evs : list Event) (s s' : State) : Prop :=
  log s' = log s ++ evs
  ∧ errors s' = errors s ++ errors_of env (length (log s)) evs
  ∧ clientCache s' = cache_after (clientCache s) evs
  ∧ inputCsv s' = inputCsv s
  ∧ walletBalances s' = walletBalances s
  ∧ walletsWithBalance s' = walletsWithBalance s
  ∧ errorCsv s' = errorCsv s
  ∧ errorJson s' = errorJson s.

End Batch.

(** A network whose answers do not depend on when the request is made. *)
Definition stationary (env : Env) : Prop :=
  ∀ i j,
    (∀ chainId, axios_get env i chainId = axios_get env j chainId)
    ∧ (∀ chain address,
         getBalance env i chain address = getBalance env j chain address)
    ∧ (∀ chain tokenAddress address,
         readContract env i chain tokenAddress address
         = readContract env j chain tokenAddress address).

(** A network that answers every request: the catalog holds [tokens], every
    native balance is 0 and every token balance is [raw]. *)
Definition env_tokens (tokens : list Token.t) (raw : N) : Env :=
  mkEnv (fun _ _ => Ret (Response.mk (Some (Response.mkBody (Some tokens)))))
        (fun _ _ _ => Ret 0%N)
        (fun _ _ _ _ => Ret raw)
        formatEther_viem.

(** The results and the errors that concern one chain: a result and the
    error of a failed probe carry the name of the chain, the error of a
    failed catalog request carries its stringified id. *)
Definition result_on (chain : Chain.t) (x : string * BalanceRecord.t) : Prop :=
  BalanceRecord.chain x.2 = Chain.name chain.

#[global] Instance result_on_dec chain x : Decision (result_on chain x).
Proof. unfold result_on. apply _. Defined.

Definition error_on (chain : Chain.t) (e : ErrorRecord.t) : Prop :=
  ErrorRecord.chain e = Chain.name chain
  ∨ ErrorRecord.chain e = String_of (Chain.id chain).

#[global] Instance error_on_dec chain e : Decision (error_on chain e).
Proof. unfold error_on. apply _. Defined.

(** ** Generic facts about computations *)

Lemma for_of_ind {A S} (body : S → A → M S) (I : list A → S → World → Prop)
    (l : list A) :
  (∀ pre x s w, I pre s w →
     ∃ s' w', body s x w = (Ret s', w') ∧ I (pre ++ [x]) s' w') →
  ∀ s w, I [] s w → ∃ s' w', for_of body l s w = (Ret s', w') ∧ I l s' w'.
Proof.
  intros Hbody.
  assert (∀ pre s w, I pre s w →
            ∃ s' w', for_of body l s w = (Ret s', w') ∧ I (pre ++ l) s' w')
    as Hgen.
  { induction l as [|x l IH]; intros pre s w HI.
    - exists s, w. rewrite app_nil_r. done.
    - destruct (Hbody pre x s w HI) as (s1 & w1 & Hrun & HI1).
      destruct (IH (pre ++ [x]) s1 w1 HI1) as (s2 & w2 & Hrun2 & HI2).
      exists s2, w2. split.
      + simpl. unfold bind. rewrite Hrun. exact Hrun2.
      + rewrite <- app_assoc in HI2. exact HI2. }
  intros s w HI. exact (Hgen [] s w HI).
Qed.

Lemma bind_ret {A B} (m : M A) (k : A → M B) w a w' :
  m w = (Ret a, w') → bind m k w = k a w'.
Proof. intros H. unfold bind. by rewrite H. Qed.

Lemma mirrored_refl w : mirrored w w.
Proof.
  exists []. rewrite !app_nil_r. done.
Qed.

Lemma mirrored_trans w1 w2 w3 :
  mirrored w1 w2 → mirrored w2 w3 → mirrored w1 w3.
Proof.
  intros (es1 & He1 & Hc1 & Hn1 & Hs1) (es2 & He2 & Hc2 & Hn2 & Hs2).
  exists (es1 ++ es2). repeat split.
  - rewrite He2, He1. by rewrite app_assoc.
  - rewrite Hc2, Hc1, map_app. by rewrite app_assoc.
  - intros [-> ->]%app_eq_nil. rewrite Hn2, Hn1; done.
  - intros Hne. destruct es2 as [|e es2].
    + rewrite app_nil_r in Hne, He2. rewrite Hn2, He2 by done. by apply Hs1.
    + by apply Hs2.
Qed.

Lemma Out_refl w : Out [] [] w w.
Proof.
  unfold Out. rewrite !app_nil_r. repeat split; auto using mirrored_refl.
Qed.

Lemma Out_trans evs1 rs1 evs2 rs2 w1 w2 w3 :
  Out evs1 rs1 w1 w2 → Out evs2 rs2 w2 w3 →
  Out (evs1 ++ evs2) (rs1 ++ rs2) w1 w3.
Proof.
  intros (Hl1 & Ha1 & Hz1 & Hm1 & Hf1 & Hj1) (Hl2 & Ha2 & Hz2 & Hm2 & Hf2 & Hj2).
  unfold Out. repeat split.
  - rewrite Hl2, Hl1. by rewrite app_assoc.
  - rewrite Ha2, Ha1, map_app. by rewrite app_assoc.
  - rewrite Hz2, Hz1, filter_app, map_app. by rewrite app_assoc.
  - eauto using mirrored_trans.
  - auto.
  - auto.
Qed.

(** ** The three absorbing operations, case by case *)

Lemma log_new_client chain w : log (new_client chain w) = log w.
Proof. unfold new_client. by case_decide. Qed.

Lemma new_client_files chain w :
  errors (new_client chain w) = errors w
  ∧ inputCsv (new_client chain w) = inputCsv w
  ∧ errorJson (new_client chain w) = errorJson w
  ∧ ∀ p, read_csv p (new_client chain w) = read_csv p w.
Proof. unfold new_client. case_decide; repeat split; by intros []. Qed.

Section Runs.

Context (env : Env).

Lemma fetchTokenList_ok chainId w response :
  axios_get env (length (log w)) chainId = Ret response →
  fetchTokenList env chainId w
  = (Ret (default [] (Response.data response ≫= Response.data_data)),
     log_event (CatalogFetch chainId) w).
Proof.
  intros H. unfold fetchTokenList, try_catch, bind, axios_get_tokenlist.
  rewrite H. destruct (Response.data response) as [[[tokens|]]|]; reflexivity.
Qed.

Lemma fetchTokenList_fail chainId w message :
  axios_get env (length (log w)) chainId = Throw message →
  fetchTokenList env chainId w
  = (Ret [],
     absorb (ErrorRecord.mk (String_of chainId) "N/A" "N/A" "N/A"
                            "fetchTokenList" message)
            (log_event (CatalogFetch chainId) w)).
Proof.
  intros H. unfold fetchTokenList, try_catch, bind, axios_get_tokenlist.
  rewrite H. reflexivity.
Qed.

Lemma checkNativeBalance_ok address chain w raw :
  getBalance env (length (log w)) chain address = Ret raw →
  let symbol := NativeCurrency.symbol (Chain.nativeCurrency chain) in
  checkNativeBalance env address chain w
  = (Ret (BalanceRecord.mk (Chain.name chain) "native" symbol
                           (Number (formatEther env raw None))
                           "native" symbol None),
     log_event (NativeProbe address chain) (new_client chain w)).
Proof.
  intros H symbol.
  unfold checkNativeBalance, try_catch, bind, client_getBalance, getClient,
    modify.
  rewrite log_new_client, H. reflexivity.
Qed.

Lemma checkNativeBalance_fail address chain w message :
  getBalance env (length (log w)) chain address = Throw message →
  let symbol := NativeCurrency.symbol (Chain.nativeCurrency chain) in
  checkNativeBalance env address chain w
  = (Ret (BalanceRecord.mk (Chain.name chain) "native" symbol 0
                           "native" symbol (Some message)),
     absorb (ErrorRecord.mk (Chain.name chain) symbol "native" address
                            "checkNativeBalance" message)
            (log_event (NativeProbe address chain) (new_client chain w))).
Proof.
  intros H symbol.
  unfold checkNativeBalance, try_catch, bind, client_getBalance, getClient,
    modify.
  rewrite log_new_client, H. reflexivity.
Qed.

Lemma checkERC20Balance_ok address chain token w raw :
  readContract env (length (log w)) chain (Token.address token) address
  = Ret raw →
  checkERC20Balance env address chain token w
  = (Ret (BalanceRecord.mk
            (Chain.name chain) "erc20" (Token.symbol token)
            (Number (formatEther env raw
                       (Some (or_default (Token.decimals token) 18))))
            (Token.address token) (Token.name token) None),
     log_event (ERC20Probe address chain token) (new_client chain w)).
Proof.
  intros H.
  unfold checkERC20Balance, try_catch, bind, client_readContract, getClient,
    modify.
  rewrite log_new_client, H. reflexivity.
Qed.

Lemma checkERC20Balance_fail address chain token w message :
  readContract env (length (log w)) chain (Token.address token) address
  = Throw message →
  checkERC20Balance env address chain token w
  = (Ret (BalanceRecord.mk (Chain.name chain) "erc20" (Token.symbol token)
                           0 (Token.address token) (Token.name token)
                           (Some message)),
     absorb (ErrorRecord.mk (Chain.name chain) (Token.symbol token)
                            (Token.address token) address
                            "checkERC20Balance" message)
            (log_event (ERC20Probe address chain token)
                       (new_client chain w))).
Proof.
  intros H.
  unfold checkERC20Balance, try_catch, bind, client_readContract, getClient,
    modify.
  rewrite log_new_client, H. reflexivity.
Qed.

End Runs.

(** ** What each step adds to the outside *)

Lemma mirrored_same w w' :
  errors w' = errors w → errorCsv w' = errorCsv w →
  errorJson w' = errorJson w → mirrored w w'.
Proof.
  intros He Hc Hj. exists []. unfold rows. simpl.
  rewrite He, Hc, Hj, !app_nil_r. done.
Qed.

Lemma Out_log_event ev w : Out [ev] [] w (log_event ev w).
Proof.
  unfold Out. simpl. rewrite !app_nil_r.
  split_and!; auto using mirrored_same.
Qed.

Lemma Out_new_client chain w : Out [] [] w (new_client chain w).
Proof.
  destruct (new_client_files chain w) as (He & Hi & Hj & Hr).
  unfold Out, rows. rewrite log_new_client, !Hr, !app_nil_r.
  split_and!; auto.
  - apply mirrored_same; auto. apply (Hr errorCsvPath).
  - intros p. by rewrite Hr.
  - by rewrite Hj.
Qed.

Lemma Out_absorb e w : Out [] [] w (absorb e w).
Proof.
  unfold Out. simpl. rewrite !app_nil_r. split_and!; auto.
  - exists [e]. simpl. split_and!; done.
  - intros [] ?; simpl; auto.
Qed.

Lemma source_absorb e w : inputCsv (absorb e w) = inputCsv w.
Proof. reflexivity. Qed.

Lemma source_new_client chain w : inputCsv (new_client chain w) = inputCsv w.
Proof. apply new_client_files. Qed.

Lemma Probe_refl w : Probe [] [] w w.
Proof. split; auto using Out_refl. Qed.

Lemma Probe_step evs1 rs1 evs2 rs2 evs rs w1 w2 w3 :
  Probe evs1 rs1 w1 w2 → Probe evs2 rs2 w2 w3 →
  evs = evs1 ++ evs2 → rs = rs1 ++ rs2 → Probe evs rs w1 w3.
Proof.
  intros [H1 S1] [H2 S2] -> ->. split; [eauto using Out_trans|congruence].
Qed.

Lemma Probe_call ev chain w :
  Probe [ev] [] w (log_event ev (new_client chain w)).
Proof.
  apply (Probe_step [] [] [ev] [] _ _ w (new_client chain w)); try done.
  - split; [apply Out_new_client|apply source_new_client].
  - split; [apply Out_log_event|reflexivity].
Qed.

Lemma Probe_absorb evs e w w' :
  Probe evs [] w w' → Probe evs [] w (absorb e w').
Proof.
  intros H. eapply Probe_step; [exact H| |by rewrite app_nil_r|reflexivity].
  split; [apply Out_absorb|reflexivity].
Qed.

Lemma capped_take (catalog : list Token.t) : capped catalog = take 20 catalog.
Proof.
  unfold capped. destruct (decide (length catalog ≤ 20)%nat) as [Hle|Hgt].
  - rewrite Nat.min_r by done. rewrite !take_ge; [done|lia|lia].
  - rewrite Nat.min_l by lia. done.
Qed.

Section Steps.

Context (env : Env).

Lemma fetchTokenList_out chainId w :
  ∃ tokens w', fetchTokenList env chainId w = (Ret tokens, w')
               ∧ Probe [CatalogFetch chainId] [] w w'.
Proof.
  destruct (axios_get env (length (log w)) chainId) as [response|message] eqn:E.
  - eexists _, _. split; [by apply fetchTokenList_ok|].
    split; [apply Out_log_event|reflexivity].
  - eexists _, _. split; [by apply fetchTokenList_fail|].
    apply Probe_absorb. split; [apply Out_log_event|reflexivity].
Qed.

Lemma checkNativeBalance_out address chain w :
  ∃ b w', checkNativeBalance env address chain w = (Ret b, w')
          ∧ Probe [NativeProbe address chain] [] w w'.
Proof.
  destruct (getBalance env (length (log w)) chain address)
    as [raw|message] eqn:E.
  - eexists _, _. split; [by apply checkNativeBalance_ok|]. apply Probe_call.
  - eexists _, _. split; [by apply checkNativeBalance_fail|].
    apply Probe_absorb, Probe_call.
Qed.

Lemma checkERC20Balance_out address chain token w :
  ∃ b w', checkERC20Balance env address chain token w = (Ret b, w')
          ∧ Probe [ERC20Probe address chain token] [] w w'.
Proof.
  destruct (readContract env (length (log w)) chain (Token.address token)
              address) as [raw|message] eqn:E.
  - eexists _, _. split; [by apply checkERC20Balance_ok|]. apply Probe_call.
  - eexists _, _. split; [by apply checkERC20Balance_fail|].
    apply Probe_absorb, Probe_call.
Qed.

Lemma record_result_out address st b w :
  ∃ flag w', record_result address st b w
             = (Ret (st.1 ++ [(address, b)], flag), w')
             ∧ Probe [] [(address, b)] w w'.
Proof.
  unfold record_result, bind, appendToCsv, appendFileSync, modify, ret.
  destruct (positive b) eqn:Hpos; eexists _, _; (split; [reflexivity|]).
  - split; [|reflexivity]. unfold Out, rows. simpl.
    rewrite filter_cons, filter_nil. simpl. rewrite Hpos. simpl.
    rewrite !app_nil_r. split_and!; auto.
    + apply mirrored_same; reflexivity.
    + intros [] ?; simpl; auto.
  - split; [|reflexivity]. unfold Out, rows. simpl.
    rewrite filter_cons, filter_nil. simpl. rewrite Hpos. simpl.
    rewrite !app_nil_r. split_and!; auto.
    + apply mirrored_same; reflexivity.
    + intros [] ?; simpl; auto.
Qed.

Lemma token_loop_out address chain tokens st w :
  ∃ st' w' rs,
    for_of (fun st token =>
              tokenBalance <- checkERC20Balance env address chain token ;;
              record_result address st tokenBalance) tokens st w
    = (Ret st', w')
    ∧ st'.1 = st.1 ++ rs
    ∧ Probe (map (ERC20Probe address chain) tokens) rs w w'.
Proof.
  pose (I := fun (pre : list Token.t) (s : WalletResult) (v : World) =>
               ∃ rs, s.1 = st.1 ++ rs
                     ∧ Probe (map (ERC20Probe address chain) pre) rs w v).
  assert (I [] st w) as Hinit.
  { exists []. rewrite app_nil_r. split; [done|apply Probe_refl]. }
  eapply for_of_ind in Hinit as (st' & w' & Hrun & rs & Hst & HP).
  - exists st', w', rs. split_and!; [exact Hrun|exact Hst|exact HP].
  - intros pre token s v (rs & Hs & HP). simpl.
    destruct (checkERC20Balance_out address chain token v)
      as (b & v1 & Hb & HP1).
    destruct (record_result_out address s b v1) as (flag & v2 & Hr & HP2).
    eexists _, v2. split.
    + erewrite bind_ret by exact Hb. exact Hr.
    + exists (rs ++ [(address, b)]). split.
      * simpl. rewrite Hs. by rewrite app_assoc.
      * eapply Probe_step; [exact HP| |by rewrite map_app|reflexivity].
        eapply Probe_step; [exact HP1|exact HP2|reflexivity|reflexivity].
Qed.

Lemma processWallet_out registry address tokenLists w :
  ∃ r w', processWallet env registry address tokenLists w = (Ret r, w')
          ∧ Probe (wallet_probes registry address tokenLists) r.1 w w'.
Proof.
  unfold processWallet.
  apply (for_of_ind _
           (fun pre (s : WalletResult) v =>
              Probe (wallet_probes pre address tokenLists) s.1 w v)).
  - intros pre chain s v HP.
    destruct (checkNativeBalance_out address chain v) as (b & v1 & Hb & HP1).
    destruct (record_result_out address s b v1) as (flag & v2 & Hr & HP2).
    destruct (token_loop_out address chain
                (take 20 (default [] (tokenLists !! Chain.id chain)))
                (s.1 ++ [(address, b)], flag) v2)
      as (st' & v3 & rs & Hloop & Hst & HP3).
    exists st', v3. split.
    + erewrite bind_ret by exact Hb. erewrite bind_ret by exact Hr.
      exact Hloop.
    + eapply Probe_step; [exact HP| | |].
      * eapply Probe_step; [exact HP1| |reflexivity|reflexivity].
        eapply Probe_step; [exact HP2|exact HP3|reflexivity|reflexivity].
      * unfold wallet_probes. rewrite flat_map_app. simpl.
        rewrite app_nil_r. unfold chain_probes. by rewrite capped_take.
      * rewrite Hst. simpl. by rewrite <- app_assoc.
  - apply Probe_refl.
Qed.

End Steps.

(** ** The run as a whole *)

Lemma initializeOutputFiles_run w :
  initializeOutputFiles w = (Ret tt, init_world w).
Proof.
  destruct w as [es cc ic [ab|] [nz|] [ec|] [ej|] lg]; reflexivity.
Qed.

Lemma processed_row_spec a r : processed_row a r = true ↔ checkpoint_row a r.
Proof.
  unfold processed_row, checkpoint_row.
  rewrite !andb_true_iff, !bool_decide_eq_true. tauto.
Qed.

Lemma updateWalletListCsv_run records a w :
  updateWalletListCsv records a w
  = (Ret (filter (λ r, ¬ checkpoint_row a r) records),
     log_event (Checkpoint a)
       (set_inputCsv (Some (filter (λ r, ¬ checkpoint_row a r) records)) w)).
Proof.
  assert (filter (λ r, negb (processed_row a r)) records
          = filter (λ r, ¬ checkpoint_row a r) records) as E.
  { apply list_filter_iff. intros r.
    rewrite <- processed_row_spec. destruct (processed_row a r); simpl; naive_solver. }
  unfold updateWalletListCsv, bind, modify, ret. rewrite E. reflexivity.
Qed.

Lemma Out_checkpoint a v w :
  Out [Checkpoint a] [] w (log_event (Checkpoint a) (set_inputCsv v w)).
Proof.
  unfold Out. simpl. rewrite !app_nil_r.
  split_and!; auto using mirrored_same.
Qed.

Lemma remaining_snoc done a records :
  remaining (done ++ [a]) records
  = filter (λ r, ¬ checkpoint_row a r) (remaining done records).
Proof. unfold remaining. by rewrite fold_left_app. Qed.

Lemma remaining_spec done records r :
  r ∈ remaining done records
  ↔ r ∈ records ∧ ∀ a, a ∈ done → ¬ checkpoint_row a r.
Proof.
  induction done as [|a done IH] using rev_ind.
  - simpl. split; [intros H; split; [done|]|tauto].
    intros a Ha. by apply not_elem_of_nil in Ha.
  - rewrite remaining_snoc, list_elem_of_filter, IH. split.
    + intros (Hna & Hr & Hd). split; [done|].
      intros b [Hb| ->%list_elem_of_singleton]%elem_of_app; auto.
    + intros (Hr & Hd). split_and!; [|done|].
      * apply Hd. apply elem_of_app. right. by apply list_elem_of_singleton.
      * intros b Hb. apply Hd. apply elem_of_app. by left.
Qed.

Section Run.

Context (env : Env) (registry : list Chain.t).

Lemma fetch_catalogs_out w :
  ∃ tokenLists w',
    fetch_catalogs env registry w = (Ret tokenLists, w')
    ∧ Probe (map CatalogFetch (map Chain.id registry)) [] w w'.
Proof.
  unfold fetch_catalogs.
  apply (for_of_ind _
           (fun pre (_ : gmap Z (list Token.t)) v =>
              Probe (map CatalogFetch (map Chain.id pre)) [] w v)).
  - intros pre chain tl v HP.
    destruct (fetchTokenList_out env (Chain.id chain) v)
      as (tokens & v1 & Hf & HP1).
    eexists _, v1. split.
    + erewrite bind_ret by exact Hf. reflexivity.
    + eapply Probe_step; [exact HP|exact HP1| |reflexivity].
      by rewrite !map_app.
  - apply Probe_refl.
Qed.

(** The loop over [wallets] in [processWallets]. *)
Lemma wallet_loop_out tokenLists wallets records w :
  inputCsv w = Some records →
  ∃ st w' rs,
    for_of (fun (st : nat * list SourceRecord.t) address =>
              let count := S st.1 in
              processWallet env registry address tokenLists ;;;
              records <- updateWalletListCsv st.2 address ;;
              ret (count, records))
           wallets (0, records) w
    = (Ret st, w')
    ∧ Out (wallet_events registry tokenLists wallets) rs w w'
    ∧ inputCsv w' = Some (remaining wallets records)
    ∧ (wallets = [] → rs = []).
Proof.
  intros Hsrc.
  pose (I := fun (pre : list string) (s : nat * list SourceRecord.t)
                 (v : World) =>
               s.2 = remaining pre records
               ∧ inputCsv v = Some (remaining pre records)
               ∧ ∃ rs, Out (wallet_events registry tokenLists pre) rs w v
                       ∧ (pre = [] → rs = [])).
  assert (I [] (0, records) w) as Hinit.
  { split_and!; [done|done|]. exists []. split; [apply Out_refl|done]. }
  eapply for_of_ind in Hinit as (st & w' & Hrun & Hst & Hin & rs & HO & Hnil).
  - exists st, w', rs. split_and!; [exact Hrun|exact HO|exact Hin|exact Hnil].
  - intros pre a s v (Hs & Hin & rs & HO & _). simpl.
    destruct (processWallet_out env registry a tokenLists v)
      as (r & v1 & Hp & HP1 & Hsrc1).
    eexists _, _. split.
    + erewrite bind_ret by exact Hp.
      unfold bind. rewrite updateWalletListCsv_run. reflexivity.
    + unfold I. rewrite remaining_snoc. cbn [snd]. rewrite Hs.
      split_and!; [done|done|].
      exists (rs ++ r.1 ++ []). split.
      * unfold wallet_events. rewrite flat_map_app. simpl. rewrite app_nil_r.
        eapply Out_trans; [exact HO|].
        eapply Out_trans; [exact HP1|]. apply Out_checkpoint.
      * intros Habs. by apply app_nil in Habs as [_ ?].
Qed.

End Run.

Section WholeRun.

Context (env : Env) (registry : list Chain.t).

Lemma processWallets_run w records :
  inputCsv w = Some records →
  ∃ w' tokenLists rs,
    processWallets env registry w = (Ret tt, w')
    ∧ Out (map CatalogFetch (map Chain.id registry)
           ++ wallet_events registry tokenLists (derive_wallets records))
          rs (init_world w) w'
    ∧ inputCsv w' = Some (remaining (derive_wallets records) records)
    ∧ (derive_wallets records = [] → rs = []).
Proof.
  intros Hsrc.
  destruct (fetch_catalogs_out env registry (init_world w))
    as (tl & w1 & Hf & HP1 & Hs1).
  assert (inputCsv w1 = Some records) as Hsrc1 by (by rewrite Hs1).
  destruct (wallet_loop_out env registry tl (derive_wallets records)
              records w1 Hsrc1)
    as (st & w2 & rs & Hloop & HO & Hin & Hnil).
  exists w2, tl, rs.
  split_and!; [|exact (Out_trans _ [] _ rs _ _ _ HP1 HO)|exact Hin|exact Hnil].
  unfold processWallets, try_catch.
  erewrite bind_ret by apply initializeOutputFiles_run.
  assert (read_records (init_world w) = (Ret records, init_world w)) as Hread.
  { unfold read_records, bind, get. simpl. by rewrite Hsrc. }
  erewrite bind_ret by exact Hread.
  erewrite bind_ret by exact Hf.
  erewrite bind_ret by exact Hloop.
  reflexivity.
Qed.

Lemma processWallets_missing w :
  inputCsv w = None →
  processWallets env registry w
  = (Ret tt,
     absorb (ErrorRecord.mk "N/A" "N/A" "N/A" "N/A" "processWallets"
                            "ENOENT: no such file or directory")
            (init_world w)).
Proof.
  intros Hsrc. unfold processWallets, try_catch.
  erewrite bind_ret by apply initializeOutputFiles_run.
  unfold bind at 1, read_records at 1, bind, get. simpl. rewrite Hsrc.
  reflexivity.
Qed.

End WholeRun.

(** ** The derived wallet set *)

Lemma Set_add_spec wallets a x :
  x ∈ Set_add wallets a ↔ x ∈ wallets ∨ x = a.
Proof.
  unfold Set_add. case_decide as Hin.
  - split; [auto|]. intros [?| ->]; done.
  - rewrite elem_of_app, list_elem_of_singleton. done.
Qed.

Lemma Set_add_NoDup wallets a : NoDup wallets → NoDup (Set_add wallets a).
Proof.
  intros Hnd. unfold Set_add. case_decide as Hin; [done|].
  apply NoDup_app. split_and!; [done| |apply NoDup_singleton].
  intros x Hx ->%list_elem_of_singleton. done.
Qed.

(** Adding to a set that already holds [acc]: the new elements, in order of
    first occurrence, are those of [l] that are not in [acc]. *)
Lemma fold_Set_add acc (l : list string) :
  NoDup acc →
  fold_left Set_add l acc
  = acc ++ filter (λ y, y ∉ acc) (first_occurrences l).
Proof.
  revert acc. induction l as [|x l IH]; intros acc Hnd.
  - simpl. by rewrite app_nil_r.
  - simpl. rewrite IH by by apply Set_add_NoDup.
    unfold Set_add. case_decide as Hin.
    + f_equal. rewrite filter_cons. rewrite decide_False by (intros H; by apply H).
      rewrite list_filter_filter. apply list_filter_iff.
      intros y. split; [|tauto]. intros Hy. split; [done|congruence].
    + rewrite <- app_assoc. f_equal. simpl.
      rewrite filter_cons, decide_True by done. f_equal.
      rewrite list_filter_filter. apply list_filter_iff. intros y.
      rewrite elem_of_app, list_elem_of_singleton. tauto.
Qed.

Lemma derive_wallets_fold records :
  derive_wallets records = fold_left Set_add (omap eligible records) [].
Proof.
  unfold derive_wallets. generalize (@nil string) as acc.
  induction records as [|r records IH]; intros acc; [done|].
  simpl. destruct (eligible r) as [a|]; simpl; apply IH.
Qed.

Lemma filter_all {A} (P : A → Prop) `{!∀ x, Decision (P x)} (l : list A) :
  (∀ x, P x) → filter P l = l.
Proof.
  intros HP. induction l as [|x l IH]; [done|].
  rewrite filter_cons_True by done. by rewrite IH.
Qed.

Lemma derive_wallets_first records :
  derive_wallets records = first_occurrences (omap eligible records).
Proof.
  rewrite derive_wallets_fold, fold_Set_add by apply NoDup_nil_2.
  simpl. apply filter_all. intros y. apply not_elem_of_nil.
Qed.

Lemma first_occurrences_elem (l : list string) x :
  x ∈ first_occurrences l ↔ x ∈ l.
Proof.
  induction l as [|y l IH]; [done|]. simpl.
  rewrite !elem_of_cons, list_elem_of_filter, IH.
  destruct (decide (x = y)); tauto.
Qed.

Lemma first_occurrences_NoDup (l : list string) : NoDup (first_occurrences l).
Proof.
  induction l as [|y l IH]; simpl; [apply NoDup_nil_2|].
  apply NoDup_cons. split.
  - rewrite list_elem_of_filter. intros [Hne _]. by apply Hne.
  - by apply NoDup_filter.
Qed.

Lemma derive_wallets_NoDup records : NoDup (derive_wallets records).
Proof. rewrite derive_wallets_first. apply first_occurrences_NoDup. Qed.

Lemma prefix_0x a : String.prefix "0x" a = true ↔ ∃ rest, a = "0x" +:+ rest.
Proof.
  rewrite String.prefix_correct. split.
  - destruct a as [|c1 [|c2 rest]]; simpl; [done|done|].
    intros [= -> -> _]. by exists rest.
  - intros [rest ->]. simpl. by destruct rest.
Qed.

Lemma eligible_spec record a : eligible record = Some a ↔ eligible_row a record.
Proof.
  unfold eligible, eligible_row.
  destruct (SourceRecord.verified_credential_address record) as [b|];
    [|by split; [|intros [? _]]].
  destruct (negb (bool_decide (b = "")) && String.prefix "0x" b
            && bool_decide (SourceRecord.verified_credential_format record
                            = Some "blockchain")
            && bool_decide
                 (SourceRecord.verified_credential_walletProvider record
                  = Some "embeddedWallet")) eqn:E.
  - rewrite !andb_true_iff, negb_true_iff, bool_decide_eq_false,
      !bool_decide_eq_true in E.
    destruct E as [[[Hne Hp] Hf] Hw]. split; [|by intros ([= ->] & _)].
    intros [= ->]. done.
  - split; [done|]. intros ([= ->] & Hne & Hp & Hf & Hw).
    rewrite Hp, Hf, Hw in E. rewrite bool_decide_eq_false_2 in E by done.
    done.
Qed.

Lemma omap_pointwise {A B} (f g : A → option B) (l : list A) :
  (∀ x, f x = g x) → omap f l = omap g l.
Proof.
  intros H. induction l as [|x l IH]; [done|].
  change (omap f (x :: l)) with (from_option (λ y, y :: omap f l) (omap f l) (f x)).
  rewrite H, IH. done.
Qed.

Lemma eligible_addresses_omap records :
  eligible_addresses records = omap eligible records.
Proof.
  apply omap_pointwise. intros r.
  destruct (SourceRecord.verified_credential_address r) as [a|] eqn:Ha.
  - case_decide as Hel.
    + symmetry. by apply eligible_spec.
    + destruct (eligible r) as [b|] eqn:Hb; [|done].
      apply eligible_spec in Hb as Hb'. pose proof (proj1 Hb') as Hab.
      rewrite Ha in Hab. injection Hab as ->. done.
  - unfold eligible. by rewrite Ha.
Qed.

Lemma derive_wallets_elem records a :
  a ∈ derive_wallets records ↔ ∃ r, r ∈ records ∧ eligible_row a r.
Proof.
  rewrite derive_wallets_first, first_occurrences_elem, list_elem_of_omap.
  by setoid_rewrite eligible_spec.
Qed.

(** ** The claims *)

(** C3. For every list of source records, the wallet set derived by
    [processWallets] has no duplicates, holds exactly the addresses of the
    rows whose address is a non-empty string starting with "0x", whose
    format is "blockchain" and whose provider is "embeddedWallet", and
    iterates them in the order of their first occurrence in the list. *)
Theorem derived_wallet_set (records : list SourceRecord.t) :
  NoDup (derive_wallets records)
  ∧ (∀ a, a ∈ derive_wallets records ↔ ∃ r, r ∈ records ∧ eligible_row a r)
  ∧ derive_wallets records = first_occurrences (eligible_addresses records).
Proof.
  split_and!.
  - apply derive_wallets_NoDup.
  - apply derive_wallets_elem.
  - rewrite eligible_addresses_omap. apply derive_wallets_first.
Qed.

(** C10. For every record list and every address [W], the checkpoint of [W]
    returns and persists the records that are not at once for address [W],
    of format "blockchain" and of provider "embeddedWallet", in their
    original order; rows of other wallets and rows with [W]'s address but
    another provider are all kept. *)
Theorem checkpoint_keeps_other_rows (records : list SourceRecord.t)
    (W : string) (w : World) :
  ∃ kept w',
    updateWalletListCsv records W w = (Ret kept, w')
    ∧ inputCsv w' = Some kept
    ∧ kept = filter (λ r, ¬ checkpoint_row W r) records
    ∧ kept `sublist_of` records
    ∧ (∀ r, r ∈ records →
         SourceRecord.verified_credential_address r ≠ Some W → r ∈ kept)
    ∧ (∀ r, r ∈ records →
         SourceRecord.verified_credential_walletProvider r
         ≠ Some "embeddedWallet" → r ∈ kept)
    ∧ (∀ r, r ∈ records →
         SourceRecord.verified_credential_format r ≠ Some "blockchain" →
         r ∈ kept).
Proof.
  eexists _, _. split; [apply updateWalletListCsv_run|].
  split_and!; [reflexivity|reflexivity|apply sublist_filter|..];
    intros r Hr Hne; apply list_elem_of_filter; (split; [|done]);
    intros (Ha & Hf & Hp); done.
Qed.

Lemma checkpoints_app evs1 evs2 :
  checkpoints (evs1 ++ evs2) = checkpoints evs1 ++ checkpoints evs2.
Proof. apply omap_app. Qed.

Lemma checkpoints_probes registry a tokenLists :
  checkpoints (wallet_probes registry a tokenLists) = [].
Proof.
  unfold wallet_probes. induction registry as [|chain registry IH]; [done|].
  simpl. rewrite checkpoints_app, IH, app_nil_r.
  induction (capped (default [] (tokenLists !! Chain.id chain)))
    as [|t l IHl]; done.
Qed.

Lemma checkpoints_wallet_events registry tokenLists wallets :
  checkpoints (wallet_events registry tokenLists wallets) = wallets.
Proof.
  unfold wallet_events. induction wallets as [|a wallets IH]; [done|].
  simpl. rewrite !checkpoints_app, checkpoints_probes, IH. done.
Qed.

Lemma checkpoints_catalogs ids : checkpoints (map CatalogFetch ids) = [].
Proof. induction ids as [|i ids IH]; done. Qed.

(** C1. When the source list can be read, the run ends normally; after the
    catalog fetches its events are, wallet by wallet in the order of the
    derived set, the probes of the wallet followed by one checkpoint of that
    wallet, so every derived wallet is checkpointed exactly once and after
    its own probes; the checkpoint of a wallet [W] that follows its probes
    persists a list with no row for [W] of format "blockchain" and provider
    "embeddedWallet", and neither has the list persisted at the end, for
    any derived wallet. *)
Theorem checkpoint_once_per_wallet (env : Env) (registry : list Chain.t)
    (w : World) (records : list SourceRecord.t) :
  inputCsv w = Some records →
  let wallets := derive_wallets records in
  (∀ W tokenLists recs v,
     ∃ r v1 kept v2,
       processWallet env registry W tokenLists v = (Ret r, v1)
       ∧ updateWalletListCsv recs W v1 = (Ret kept, v2)
       ∧ log v2 = log v ++ wallet_probes registry W tokenLists ++ [Checkpoint W]
       ∧ inputCsv v2 = Some kept
       ∧ ∀ x, x ∈ kept → ¬ checkpoint_row W x)
  ∧ ∃ w' tokenLists rest,
      processWallets env registry w = (Ret tt, w')
      ∧ log w' = log w ++ map CatalogFetch (map Chain.id registry)
                 ++ wallet_events registry tokenLists wallets
      ∧ checkpoints (log w') = checkpoints (log w) ++ wallets
      ∧ NoDup wallets
      ∧ inputCsv w' = Some rest
      ∧ ∀ W x, W ∈ wallets → x ∈ rest → ¬ checkpoint_row W x.
Proof.
  intros Hsrc wallets. split.
  - intros W tl recs v.
    destruct (processWallet_out env registry W tl v) as (r & v1 & Hp & HO & _).
    eexists r, v1, _, _. split; [exact Hp|].
    split; [apply updateWalletListCsv_run|].
    destruct HO as (Hlog & _). simpl. rewrite Hlog, <- app_assoc.
    split_and!; [done|done|].
    intros x Hx. by apply list_elem_of_filter in Hx as [? _].
  - destruct (processWallets_run env registry w records Hsrc)
      as (w' & tl & rs & Hrun & HO & Hin & _).
    destruct HO as (Hlog & _). simpl in Hlog.
    exists w', tl, (remaining wallets records).
    split_and!; [exact Hrun|exact Hlog| |apply derive_wallets_NoDup|exact Hin|].
    + rewrite Hlog, !checkpoints_app, checkpoints_catalogs,
        checkpoints_wallet_events. done.
    + intros W x HW Hx. apply remaining_spec in Hx as [_ Hx]. by apply Hx.
Qed.

(** A run on a source list with a duplicated row for one wallet, a second
    wallet, and a row of the first wallet with another provider. *)
Lemma checkpoint_once_per_wallet_witness :
  let records :=
    [embedded "0xA"; embedded "0xB"; embedded "0xA";
     SourceRecord.mk (Some "0xA") (Some "blockchain") (Some "metamask") []] in
  inputCsv (fresh records) = Some records
  ∧ ∃ w', processWallets (env_up [sample_token 0] 5 formatEther_viem) CHAINS
            (fresh records) = (Ret tt, w')
          ∧ checkpoints (log w') = ["0xA"; "0xB"]
          ∧ inputCsv w'
            = Some [SourceRecord.mk (Some "0xA") (Some "blockchain")
                                    (Some "metamask") []].
Proof.
  intros records. split; [reflexivity|].
  destruct (checkpoint_once_per_wallet
              (env_up [sample_token 0] 5 formatEther_viem) CHAINS
              (fresh records) records eq_refl)
    as (_ & w' & tl & rest & Hrun & _ & Hcp & _).
  exists w'. split; [exact Hrun|].
  vm_compute in Hrun. injection Hrun as <-. split; reflexivity.
Defined.

(** C2. [checkNativeBalance] and [checkERC20Balance] always return a
    balance record, whatever the chain answers.  When the request fails,
    exactly one error record is appended, tagged with the name of the
    operation, and the record returned has balance 0 and carries the error
    message; when it succeeds, no error is recorded. *)
Theorem probes_never_throw (env : Env) (address : string) (chain : Chain.t)
    (token : Token.t) (w : World) :
  (∃ b w',
     checkNativeBalance env address chain w = (Ret b, w')
     ∧ match getBalance env (length (log w)) chain address with
       | Throw message =>
           ∃ e, errors w' = errors w ++ [e]
                ∧ ErrorRecord.operation e = "checkNativeBalance"
                ∧ ErrorRecord.walletAddress e = address
                ∧ ErrorRecord.error e = message
                ∧ BalanceRecord.balance b = 0%Q
                ∧ BalanceRecord.error b = Some message
       | Ret _ => errors w' = errors w ∧ BalanceRecord.error b = None
       end)
  ∧ (∃ b w',
       checkERC20Balance env address chain token w = (Ret b, w')
       ∧ match readContract env (length (log w)) chain (Token.address token)
                 address with
         | Throw message =>
             ∃ e, errors w' = errors w ++ [e]
                  ∧ ErrorRecord.operation e = "checkERC20Balance"
                  ∧ ErrorRecord.walletAddress e = address
                  ∧ ErrorRecord.error e = message
                  ∧ BalanceRecord.balance b = 0%Q
                  ∧ BalanceRecord.error b = Some message
         | Ret _ => errors w' = errors w ∧ BalanceRecord.error b = None
         end).
Proof.
  destruct (new_client_files chain w) as (He & _).
  split.
  - destruct (getBalance env (length (log w)) chain address)
      as [raw|message] eqn:E.
    + eexists _, _. split; [by apply checkNativeBalance_ok|]. by simpl.
    + eexists _, _. split; [by apply checkNativeBalance_fail|].
      eexists. simpl. rewrite He. split_and!; reflexivity.
  - destruct (readContract env (length (log w)) chain (Token.address token)
                address) as [raw|message] eqn:E.
    + eexists _, _. split; [by apply checkERC20Balance_ok|]. by simpl.
    + eexists _, _. split; [by apply checkERC20Balance_fail|].
      eexists. simpl. rewrite He. split_and!; reflexivity.
Qed.

(** C5, as worded, fails: a catalog that answers without a [data] field
    gives an empty token list and no error record. *)
Lemma catalog_failure_logged_fails :
  ¬ catalog_failure_logged env_malformed 1 (fresh []).
Proof.
  intros H. destruct H as (e & w' & Hrun & Herr & _).
  - intros (tokens & Hs). discriminate Hs.
  - vm_compute in Hrun. injection Hrun as <-. simpl in Herr.
    by destruct (errors (fresh [])).
Qed.

(** C5, amended. [fetchTokenList] always returns.  When the request throws
    (network or authorization failure) it appends the error record with
    operation "fetchTokenList", the stringified chain id and wallet "N/A",
    and returns the empty list.  When the request answers, it records no
    error: it returns the tokens of a well-shaped answer and the empty list
    for any other payload. *)
Theorem fetchTokenList_policy (env : Env) (chainId : Z) (w : World) :
  ∃ tokens w',
    fetchTokenList env chainId w = (Ret tokens, w')
    ∧ match axios_get env (length (log w)) chainId with
      | Throw message =>
          tokens = []
          ∧ errors w'
            = errors w ++ [ErrorRecord.mk (String_of chainId) "N/A" "N/A"
                                          "N/A" "fetchTokenList" message]
      | Ret (Response.mk (Some (Response.mkBody (Some catalog)))) =>
          tokens = catalog ∧ errors w' = errors w
      | Ret _ => tokens = [] ∧ errors w' = errors w
      end.
Proof.
  destruct (axios_get env (length (log w)) chainId) as [response|message] eqn:E.
  - eexists _, _. split; [by apply fetchTokenList_ok|].
    by destruct response as [[[[catalog|]]|]].
  - eexists _, _. split; [by apply fetchTokenList_fail|]. done.
Qed.

Lemma String_of_chain_ids :
  String_of 1 = "1" ∧ String_of 137 = "137" ∧ String_of 43114 = "43114".
Proof. split_and!; reflexivity. Qed.

Lemma length_capped (catalog : list Token.t) :
  length (capped catalog) = 20 `min` length catalog.
Proof. unfold capped. rewrite length_take. lia. Qed.

(** C6. For every wallet, [processWallet] returns, and the requests it has
    made are, chain after chain in registry order, the native-balance probe
    of the chain followed by the probes of the first [min 20 size] tokens of
    the chain's catalog in catalog order; of a catalog of 50 tokens exactly
    20 are probed. *)
Theorem probes_in_order_capped_at_20 (env : Env) (registry : list Chain.t)
    (address : string) (tokenLists : gmap Z (list Token.t)) (w : World) :
  (∃ r w',
     processWallet env registry address tokenLists w = (Ret r, w')
     ∧ log w'
       = log w
         ++ flat_map
              (λ chain,
                 NativeProbe address chain
                 :: map (ERC20Probe address chain)
                        (capped (default [] (tokenLists !! Chain.id chain))))
              registry)
  ∧ ∀ catalog,
      length (capped catalog) = 20 `min` length catalog
      ∧ capped catalog `prefix_of` catalog
      ∧ (length catalog = 50 → length (capped catalog) = 20).
Proof.
  split.
  - destruct (processWallet_out env registry address tokenLists w)
      as (r & w' & Hrun & (Hlog & _) & _).
    exists r, w'. split; [exact Hrun|exact Hlog].
  - intros catalog. split_and!.
    + apply length_capped.
    + unfold capped. apply prefix_take.
    + intros H50. rewrite length_capped, H50. reflexivity.
Qed.

(** One wallet on the enabled registry with a catalog of 50 tokens: one
    native probe and twenty token probes. *)
Lemma probes_in_order_capped_at_20_witness :
  let catalog := map sample_token (seq 0 50) in
  let tokenLists : gmap Z (list Token.t) := {[ 1%Z := catalog ]} in
  length catalog = 50
  ∧ ∃ r w',
      processWallet (env_up catalog 0 formatEther_viem) CHAINS "0xA"
        tokenLists (fresh []) = (Ret r, w')
      ∧ log w'
        = NativeProbe "0xA" Ethereum
          :: map (ERC20Probe "0xA" Ethereum) (map sample_token (seq 0 20))
      ∧ length (filter is_balance_probe (log w')) = 21.
Proof.
  intros catalog tokenLists. split; [reflexivity|].
  destruct (probes_in_order_capped_at_20
              (env_up catalog 0 formatEther_viem) CHAINS "0xA" tokenLists
              (fresh []))
    as ((r & w' & Hrun & Hlog) & _).
  exists r, w'. split; [exact Hrun|].
  rewrite Hlog. split; vm_compute; reflexivity.
Defined.

Lemma positive_spec (b : BalanceRecord.t) :
  positive b ↔ (0 < BalanceRecord.balance b)%Q.
Proof. unfold positive. by rewrite bool_decide_spec. Qed.

(** C4 fails on the code.  A token whose [decimals] is 0 is formatted with
    the unit argument 18, whatever the formatter: with a formatter that
    scales by its argument the raw balance 15 becomes 15/10^18 and not 15;
    [viem]'s formatter does not scale by a numeric argument at all and turns
    1500000 raw units of a 6-decimals token into 0.15 instead of 1.5. *)
Theorem erc20_scaling_defect :
  let zero := Token.mk "0xT" "T" "Token" (Some 0%Z) in
  let six := Token.mk "0xT" "T" "Token" (Some 6%Z) in
  (∀ fmt w,
     (checkERC20Balance (env_up [zero] 15 fmt) "0xA" Ethereum zero w).1
     = Ret (BalanceRecord.mk "Ethereum" "erc20" "T" (fmt 15%N (Some 18%Z))
                             "0xT" "Token" None))
  ∧ (formatEther_scaling 15 (Some 18%Z) == 15 # 1000000000000000000)%Q
  ∧ ¬ (formatEther_scaling 15 (Some 18%Z) == 15 # 1)%Q
  ∧ (∀ w, ∃ b w',
       checkERC20Balance (env_up [six] 1500000 formatEther_viem) "0xA"
         Ethereum six w = (Ret b, w')
       ∧ (BalanceRecord.balance b == 15 # 100)%Q
       ∧ ¬ (BalanceRecord.balance b == 1500000 # 1000000)%Q).
Proof.
  intros zero six. split_and!.
  - intros fmt w. by erewrite checkERC20Balance_ok.
  - reflexivity.
  - by vm_compute.
  - intros w. eexists _, _. split; [by apply checkERC20Balance_ok|].
    split; by vm_compute.
Qed.

(** ** The error mirror *)

Lemma tracks_mirrored base w w' : tracks base w → mirrored w w' → tracks base w'.
Proof.
  unfold tracks. intros Ht (es & He & Hc & _).
  rewrite Hc, Ht, He, map_app. by rewrite app_assoc.
Qed.

Lemma mirrored_json w w' :
  mirrored w w' → errors w' ≠ errors w → errorJson w' = Some (errors w').
Proof.
  intros (es & He & _ & _ & Hj) Hne. apply Hj.
  intros ->. rewrite app_nil_r in He. done.
Qed.

Lemma tracks_length base w :
  tracks base w →
  length (errors w) = length (rows errorCsvPath w) - length base.
Proof.
  unfold tracks. intros ->. rewrite length_app, length_map. lia.
Qed.

Lemma rows_absorb e v :
  rows errorCsvPath (absorb e v) = rows errorCsvPath v ++ [error_row e].
Proof. reflexivity. Qed.

Lemma errors_absorb e v : errors (absorb e v) = errors v ++ [e].
Proof. reflexivity. Qed.

Lemma errorJson_absorb e v : errorJson (absorb e v) = Some (errors v ++ [e]).
Proof. reflexivity. Qed.

Lemma failure_mirrored_absorb base e w v :
  errors v = errors w → rows errorCsvPath v = rows errorCsvPath w →
  tracks base w → failure_mirrored base e w (absorb e v).
Proof.
  intros He Hr Ht.
  assert (tracks base (absorb e v)) as Ht'.
  { unfold tracks in *.
    rewrite rows_absorb, errors_absorb, Hr, Ht, He, map_app.
    by rewrite app_assoc. }
  unfold failure_mirrored.
  rewrite rows_absorb, errors_absorb, errorJson_absorb, He, !last_snoc.
  split_and!; [done|done|done|done|exact Ht'|].
  apply tracks_length in Ht'.
  by rewrite rows_absorb, errors_absorb, He in Ht'.
Qed.

Lemma rows_new_client p chain w : rows p (new_client chain w) = rows p w.
Proof.
  unfold rows. destruct (new_client_files chain w) as (_ & _ & _ & Hr).
  by rewrite Hr.
Qed.

Lemma errors_new_client chain w : errors (new_client chain w) = errors w.
Proof. apply new_client_files. Qed.

Lemma errorJson_new_client chain w :
  errorJson (new_client chain w) = errorJson w.
Proof. apply new_client_files. Qed.

Lemma tracks_call base ev chain w :
  tracks base w → tracks base (log_event ev (new_client chain w)).
Proof.
  unfold tracks. intros Ht.
  change (rows errorCsvPath (log_event ev (new_client chain w)))
    with (rows errorCsvPath (new_client chain w)).
  change (errors (log_event ev (new_client chain w)))
    with (errors (new_client chain w)).
  by rewrite rows_new_client, errors_new_client.
Qed.

Lemma tracks_init w :
  errors w = [] → tracks (default [errorHeaders] (errorCsv w)) (init_world w).
Proof. intros He. unfold tracks. simpl. rewrite He, app_nil_r. done. Qed.

(** C8, as worded, fails: a process restarted next to the error files of an
    earlier run rewrites the JSON document with the errors of the new run
    only, while the CSV keeps the rows of the earlier run. *)
Lemma mirror_lengths_disagree_on_resume :
  let old := ErrorRecord.mk "Ethereum" "ETH" "native" "0xZ"
                            "checkNativeBalance" "timeout" in
  let w' := (processWallets env_down CHAINS
               (resumed [embedded "0xA"] [old] [error_row old])).2 in
  length (errors w') = 2
  ∧ length (rows errorCsvPath w') = 4
  ∧ ¬ mirror_lengths_agree w'.
Proof.
  intros old w'. split_and!; [reflexivity|reflexivity|].
  intros [_ Hlen]. vm_compute in Hlen. discriminate Hlen.
Qed.

(** C8, amended.  Let the error CSV hold the rows [base] followed by one
    row per element of [errors].  Each absorbing operation returns and keeps
    it so; when its request fails, the new record is the last element of
    [errors], the JSON document is the whole of [errors], the last CSV row
    carries the fields of the new record, and the length of the document is
    the row count of the CSV minus the length of [base].  [processWallet]
    keeps the relation too.  A whole run of a process that starts with no
    error in memory ends with the CSV holding what it held at start (the
    header row when it had to be created) followed by one row per error of
    the run, and, if any error occurred, with the JSON document equal to
    the errors of the run. *)
Theorem error_mirror_relative_to_start (env : Env) (registry : list Chain.t)
    (base : list Row) (w : World) :
  tracks base w →
  (∀ chainId,
     ∃ r w', fetchTokenList env chainId w = (Ret r, w')
             ∧ tracks base w'
             ∧ match axios_get env (length (log w)) chainId with
               | Throw message =>
                   failure_mirrored base
                     (ErrorRecord.mk (String_of chainId) "N/A" "N/A" "N/A"
                                     "fetchTokenList" message) w w'
               | Ret _ => errors w' = errors w ∧ errorJson w' = errorJson w
               end)
  ∧ (∀ address chain,
       ∃ b w', checkNativeBalance env address chain w = (Ret b, w')
               ∧ tracks base w'
               ∧ match getBalance env (length (log w)) chain address with
                 | Throw message =>
                     failure_mirrored base
                       (ErrorRecord.mk
                          (Chain.name chain)
                          (NativeCurrency.symbol (Chain.nativeCurrency chain))
                          "native" address "checkNativeBalance" message) w w'
                 | Ret _ => errors w' = errors w ∧ errorJson w' = errorJson w
                 end)
  ∧ (∀ address chain token,
       ∃ b w', checkERC20Balance env address chain token w = (Ret b, w')
               ∧ tracks base w'
               ∧ match readContract env (length (log w)) chain
                         (Token.address token) address with
                 | Throw message =>
                     failure_mirrored base
                       (ErrorRecord.mk (Chain.name chain) (Token.symbol token)
                                       (Token.address token) address
                                       "checkERC20Balance" message) w w'
                 | Ret _ => errors w' = errors w ∧ errorJson w' = errorJson w
                 end)
  ∧ (∀ address tokenLists,
       ∃ r w', processWallet env registry address tokenLists w = (Ret r, w')
               ∧ tracks base w'
               ∧ (errors w' ≠ errors w → errorJson w' = Some (errors w')))
  ∧ (errors w = [] →
     ∃ w', processWallets env registry w = (Ret tt, w')
           ∧ tracks (default [errorHeaders] (errorCsv w)) w'
           ∧ (errors w' ≠ [] →
              errorJson w' = Some (errors w')
              ∧ length (errors w')
                = length (rows errorCsvPath w')
                  - length (default [errorHeaders] (errorCsv w)))).
Proof.
  intros Ht. split_and!.
  - intros chainId.
    destruct (axios_get env (length (log w)) chainId)
      as [response|message] eqn:E.
    + eexists _, _. split; [by apply fetchTokenList_ok|]. done.
    + eexists _, _. split; [by apply fetchTokenList_fail|].
      assert (failure_mirrored base
                (ErrorRecord.mk (String_of chainId) "N/A" "N/A" "N/A"
                                "fetchTokenList" message) w
                (absorb (ErrorRecord.mk (String_of chainId) "N/A" "N/A" "N/A"
                                        "fetchTokenList" message)
                        (log_event (CatalogFetch chainId) w))) as Hf
        by by apply failure_mirrored_absorb.
      split; [apply Hf|exact Hf].
  - intros address chain.
    destruct (getBalance env (length (log w)) chain address)
      as [raw|message] eqn:E.
    + eexists _, _. split; [by apply checkNativeBalance_ok|].
      split; [by apply tracks_call|].
      split; [apply errors_new_client|apply errorJson_new_client].
    + eexists _, _. split; [by apply checkNativeBalance_fail|].
      match goal with |- tracks _ ?v ∧ failure_mirrored _ ?e _ _ =>
        assert (failure_mirrored base e w v) as Hf end.
      { apply failure_mirrored_absorb; [apply errors_new_client| |done].
        apply (rows_new_client errorCsvPath). }
      split; [apply Hf|exact Hf].
  - intros address chain token.
    destruct (readContract env (length (log w)) chain (Token.address token)
                address) as [raw|message] eqn:E.
    + eexists _, _. split; [by apply checkERC20Balance_ok|].
      split; [by apply tracks_call|].
      split; [apply errors_new_client|apply errorJson_new_client].
    + eexists _, _. split; [by apply checkERC20Balance_fail|].
      match goal with |- tracks _ ?v ∧ failure_mirrored _ ?e _ _ =>
        assert (failure_mirrored base e w v) as Hf end.
      { apply failure_mirrored_absorb; [apply errors_new_client| |done].
        apply (rows_new_client errorCsvPath). }
      split; [apply Hf|exact Hf].
  - intros address tokenLists.
    destruct (processWallet_out env registry address tokenLists w)
      as (r & w' & Hrun & (_ & _ & _ & Hm & _) & _).
    exists r, w'. split_and!; [exact Hrun|by eapply tracks_mirrored|].
    by apply mirrored_json.
  - intros He.
    assert (∃ w', processWallets env registry w = (Ret tt, w')
                  ∧ mirrored (init_world w) w') as (w' & Hrun & Hm).
    { destruct (inputCsv w) as [records|] eqn:Hsrc.
      - destruct (processWallets_run env registry w records Hsrc)
          as (w' & tl & rs & Hrun & (_ & _ & _ & Hm & _) & _).
        by exists w'.
      - eexists. split; [by apply processWallets_missing|].
        apply Out_absorb. }
    pose proof (tracks_mirrored _ _ _ (tracks_init w He) Hm) as Ht'.
    exists w'. split_and!; [exact Hrun|exact Ht'|].
    intros Hne. split; [|by apply tracks_length].
    apply (mirrored_json _ _ Hm). simpl. by rewrite He.
Qed.

(** One failed catalog fetch and one failed native probe in a directory
    that holds only the source list: two errors in memory and in the JSON
    document, three rows in the CSV. *)
Lemma error_mirror_relative_to_start_witness :
  tracks [] (fresh [embedded "0xA"])
  ∧ ∃ w', processWallets env_down CHAINS (fresh [embedded "0xA"]) = (Ret tt, w')
          ∧ errorJson w' = Some (errors w')
          ∧ length (errors w') = 2
          ∧ length (rows errorCsvPath w') = 3.
Proof.
  split; [reflexivity|].
  destruct (error_mirror_relative_to_start env_down CHAINS []
              (fresh [embedded "0xA"]) eq_refl)
    as (_ & _ & _ & _ & Hrun).
  destruct (Hrun eq_refl) as (w' & Hr & _ & _).
  exists w'. split; [exact Hr|].
  vm_compute in Hr. injection Hr as <-. split_and!; reflexivity.
Defined.

(** ** A restart on an emptied source list *)

Lemma fetchTokenList_errors env chainId w :
  ∃ tokens w' es,
    fetchTokenList env chainId w = (Ret tokens, w')
    ∧ errors w' = errors w ++ es
    ∧ Forall (λ e, ErrorRecord.operation e = "fetchTokenList") es
    ∧ ((∀ i id, ∃ r, axios_get env i id = Ret r) → es = []).
Proof.
  destruct (axios_get env (length (log w)) chainId) as [response|message] eqn:E.
  - eexists _, _, []. split; [by apply fetchTokenList_ok|].
    simpl. rewrite app_nil_r. split_and!; [done|apply Forall_nil_2|done].
  - eexists _, _, [_]. split; [by apply fetchTokenList_fail|].
    split_and!; [reflexivity|by apply Forall_singleton|].
    intros Hup. destruct (Hup (length (log w)) chainId) as [r Hr]. congruence.
Qed.

Lemma fetch_catalogs_errors env registry w :
  ∃ tokenLists w' es,
    fetch_catalogs env registry w = (Ret tokenLists, w')
    ∧ errors w' = errors w ++ es
    ∧ Forall (λ e, ErrorRecord.operation e = "fetchTokenList") es
    ∧ ((∀ i id, ∃ r, axios_get env i id = Ret r) → es = []).
Proof.
  pose (I := fun (pre : list Chain.t) (_ : gmap Z (list Token.t)) (v : World) =>
               ∃ es, errors v = errors w ++ es
                     ∧ Forall (λ e, ErrorRecord.operation e = "fetchTokenList") es
                     ∧ ((∀ i id, ∃ r, axios_get env i id = Ret r) → es = [])).
  assert (I [] ∅ w) as Hinit.
  { exists []. rewrite app_nil_r. split_and!; [done|apply Forall_nil_2|done]. }
  eapply for_of_ind in Hinit as (tl & w' & Hrun & es & He & Hall & Hup).
  - exists tl, w', es. split_and!; [exact Hrun|exact He|exact Hall|exact Hup].
  - intros pre chain tl v (es & He & Hall & Hup). simpl.
    destruct (fetchTokenList_errors env (Chain.id chain) v)
      as (tokens & v1 & es1 & Hf & He1 & Hall1 & Hup1).
    eexists _, v1. split.
    + erewrite bind_ret by exact Hf. reflexivity.
    + exists (es ++ es1). split_and!.
      * rewrite He1, He. by rewrite app_assoc.
      * by apply Forall_app.
      * intros Hu. by rewrite (Hup Hu), (Hup1 Hu).
Qed.

Lemma processWallets_idle env registry w records tokenLists w1 :
  inputCsv w = Some records → derive_wallets records = [] →
  fetch_catalogs env registry (init_world w) = (Ret tokenLists, w1) →
  processWallets env registry w = (Ret tt, w1).
Proof.
  intros Hsrc Hnone Hf. unfold processWallets, try_catch.
  erewrite bind_ret by apply initializeOutputFiles_run.
  assert (read_records (init_world w) = (Ret records, init_world w)) as Hread.
  { unfold read_records, bind, get. simpl. by rewrite Hsrc. }
  erewrite bind_ret by exact Hread.
  erewrite bind_ret by exact Hf.
  rewrite Hnone. reflexivity.
Qed.

Lemma Out_same_file evs w w' p :
  Out evs [] w w' → p ≠ errorCsvPath → is_Some (read_csv p w) →
  read_csv p w' = read_csv p w.
Proof.
  intros (_ & Hall & Hnz & _ & Hex & _) Hp Hsome.
  destruct (Hex p Hsome) as [y Hy]. destruct Hsome as [x Hx].
  unfold rows in *. simpl in *. rewrite !app_nil_r in *.
  destruct p; simpl in *; [| |done];
    rewrite Hx, Hy in *; simpl in *; congruence.
Qed.

Lemma no_probe_in_catalogs ids :
  filter is_balance_probe (map CatalogFetch ids) = [].
Proof. induction ids as [|i ids IH]; [done|]. simpl. exact IH. Qed.

(** C9, as worded, fails: a restart on an empty source list still fetches
    the catalogs, and a failed fetch appends a row to the error CSV. *)
Lemma idle_restart_fails : ¬ idle_restart env_down CHAINS (resumed [] [] []).
Proof.
  intros H. destruct (H [] eq_refl eq_refl) as (w' & Hrun & _ & Hrows).
  vm_compute in Hrun. injection Hrun as <-.
  specialize (Hrows errorCsvPath). vm_compute in Hrows. discriminate Hrows.
Qed.

(** ** The run as a function of its requests *)

Lemma errors_of_app env n evs1 evs2 :
  errors_of env n (evs1 ++ evs2)
  = errors_of env n evs1 ++ errors_of env (n + length evs1) evs2.
Proof.
  revert n. induction evs1 as [|ev evs1 IH]; intros n; simpl.
  - by rewrite Nat.add_0_r.
  - rewrite IH, <- app_assoc. do 3 f_equal. lia.
Qed.

Lemma results_of_app env n evs1 evs2 :
  results_of env n (evs1 ++ evs2)
  = results_of env n evs1 ++ results_of env (n + length evs1) evs2.
Proof.
  revert n. induction evs1 as [|ev evs1 IH]; intros n; simpl.
  - by rewrite Nat.add_0_r.
  - rewrite IH, <- app_assoc. do 3 f_equal. lia.
Qed.

Lemma Trace_refl env w : Trace env [] w w.
Proof. unfold Trace. simpl. by rewrite !app_nil_r. Qed.

Lemma Trace_trans env evs1 evs2 w1 w2 w3 :
  Trace env evs1 w1 w2 → Trace env evs2 w2 w3 → Trace env (evs1 ++ evs2) w1 w3.
Proof.
  intros (Hl1 & He1 & Hc1) (Hl2 & He2 & Hc2). unfold Trace. split_and!.
  - rewrite Hl2, Hl1. by rewrite app_assoc.
  - rewrite He2, He1, errors_of_app, Hl1, length_app. by rewrite app_assoc.
  - rewrite Hc2, Hc1. unfold cache_after. by rewrite fold_left_app.
Qed.

Lemma Trace_cons env ev evs w1 w2 w3 :
  Trace env [ev] w1 w2 → Trace env evs w2 w3 → Trace env (ev :: evs) w1 w3.
Proof. apply (Trace_trans env [ev] evs). Qed.

Lemma Trace_snoc_nil env evs w1 w2 w3 :
  Trace env evs w1 w2 → Trace env [] w2 w3 → Trace env evs w1 w3.
Proof.
  intros H1 H2. pose proof (Trace_trans _ _ _ _ _ _ H1 H2) as H.
  by rewrite app_nil_r in H.
Qed.

Lemma Trace_nil_cons env evs w1 w2 w3 :
  Trace env [] w1 w2 → Trace env evs w2 w3 → Trace env evs w1 w3.
Proof. apply (Trace_trans env [] evs). Qed.

Lemma clientCache_new_client chain w :
  clientCache (new_client chain w) = cache_add (clientCache w) (Chain.id chain).
Proof. unfold new_client, cache_add. by case_decide. Qed.

Lemma Trace_init env w : Trace env [] w (init_world w).
Proof. unfold Trace. simpl. by rewrite !app_nil_r. Qed.

Lemma Trace_checkpoint env a v w :
  Trace env [Checkpoint a] w (log_event (Checkpoint a) (set_inputCsv v w)).
Proof. unfold Trace. simpl. by rewrite app_nil_r. Qed.

Lemma fetchTokenList_trace env chainId w :
  ∃ w', fetchTokenList env chainId w
        = (Ret (catalog_of (axios_get env (length (log w)) chainId)), w')
        ∧ Trace env [CatalogFetch chainId] w w'
        ∧ inputCsv w' = inputCsv w.
Proof.
  destruct (axios_get env (length (log w)) chainId) as [response|message] eqn:E.
  - eexists. split; [by apply fetchTokenList_ok|].
    unfold Trace. simpl. rewrite E. simpl. by rewrite app_nil_r.
  - eexists. split; [by apply fetchTokenList_fail|].
    unfold Trace. simpl. rewrite E. done.
Qed.

Lemma checkNativeBalance_trace env address chain w :
  ∃ b w', checkNativeBalance env address chain w = (Ret b, w')
          ∧ result_of env (length (log w)) (NativeProbe address chain)
            = Some (address, b)
          ∧ Trace env [NativeProbe address chain] w w'.
Proof.
  destruct (getBalance env (length (log w)) chain address)
    as [raw|message] eqn:E.
  - eexists _, _. split; [by apply checkNativeBalance_ok|].
    unfold Trace. simpl. rewrite E, log_new_client, errors_new_client. simpl.
    rewrite app_nil_r. split_and!; try done.
    change (clientCache (log_event (NativeProbe address chain)
                           (new_client chain w)))
      with (clientCache (new_client chain w)).
    apply clientCache_new_client.
  - eexists _, _. split; [by apply checkNativeBalance_fail|].
    unfold Trace. simpl. rewrite E, log_new_client, errors_new_client. simpl.
    split_and!; try done.
    change (clientCache (absorb _ (log_event (NativeProbe address chain)
                                     (new_client chain w))))
      with (clientCache (new_client chain w)).
    apply clientCache_new_client.
Qed.

Lemma checkERC20Balance_trace env address chain token w :
  ∃ b w', checkERC20Balance env address chain token w = (Ret b, w')
          ∧ result_of env (length (log w)) (ERC20Probe address chain token)
            = Some (address, b)
          ∧ Trace env [ERC20Probe address chain token] w w'.
Proof.
  destruct (readContract env (length (log w)) chain (Token.address token)
              address) as [raw|message] eqn:E.
  - eexists _, _. split; [by apply checkERC20Balance_ok|].
    unfold Trace. simpl. rewrite E, log_new_client, errors_new_client. simpl.
    rewrite app_nil_r. split_and!; try done.
    change (clientCache (log_event (ERC20Probe address chain token)
                           (new_client chain w)))
      with (clientCache (new_client chain w)).
    apply clientCache_new_client.
  - eexists _, _. split; [by apply checkERC20Balance_fail|].
    unfold Trace. simpl. rewrite E, log_new_client, errors_new_client. simpl.
    split_and!; try done.
    change (clientCache (absorb _ (log_event (ERC20Probe address chain token)
                                     (new_client chain w))))
      with (clientCache (new_client chain w)).
    apply clientCache_new_client.
Qed.

Lemma record_result_trace env address st b w :
  ∃ w', record_result address st b w
        = (Ret (st.1 ++ [(address, b)], st.2 || positive b), w')
        ∧ Trace env [] w w'.
Proof.
  unfold record_result, bind, appendToCsv, appendFileSync, modify, ret.
  destruct (positive b) eqn:Hpos; eexists.
  - rewrite orb_true_r. split; [reflexivity|].
    unfold Trace. simpl. by rewrite !app_nil_r.
  - rewrite orb_false_r. split; [reflexivity|].
    unfold Trace. simpl. by rewrite !app_nil_r.
Qed.

Lemma Trace_length env evs w w' :
  Trace env evs w w' → length (log w') = length (log w) + length evs.
Proof. intros (-> & _). apply length_app. Qed.

Lemma token_loop_trace env address chain tokens :
  ∀ st w,
    ∃ st' w',
      for_of (fun st token =>
                tokenBalance <- checkERC20Balance env address chain token ;;
                record_result address st tokenBalance) tokens st w
      = (Ret st', w')
      ∧ st'.1 = st.1 ++ results_of env (length (log w))
                          (map (ERC20Probe address chain) tokens)
      ∧ st'.2 = st.2 || existsb (λ x, positive x.2)
                          (results_of env (length (log w))
                             (map (ERC20Probe address chain) tokens))
      ∧ Trace env (map (ERC20Probe address chain) tokens) w w'.
Proof.
  induction tokens as [|token tokens IH]; intros st w.
  - exists st, w. simpl. rewrite app_nil_r, orb_false_r.
    split_and!; [done|done|done|apply Trace_refl].
  - destruct (checkERC20Balance_trace env address chain token w)
      as (b & w1 & Hb & Hres & HT1).
    destruct (record_result_trace env address st b w1) as (w2 & Hr & HT2).
    destruct (IH (st.1 ++ [(address, b)], st.2 || positive b) w2)
      as (st' & w' & Hloop & H1 & H2 & HT3).
    pose proof (Trace_snoc_nil _ _ _ _ _ HT1 HT2) as HT12.
    apply Trace_length in HT12 as Hlen. simpl in Hlen.
    rewrite Hlen, Nat.add_1_r in H1, H2.
    exists st', w'. split_and!.
    + cbn [for_of]. erewrite bind_ret; [exact Hloop|].
      erewrite bind_ret by exact Hb. exact Hr.
    + cbn [map results_of]. rewrite Hres, H1. cbn [fst option_list].
      by rewrite <- app_assoc.
    + cbn [map results_of]. rewrite Hres, H2.
      change (option_list (Some (address, b))) with [(address, b)].
      rewrite existsb_app. cbn [existsb snd]. rewrite orb_false_r.
      by rewrite orb_assoc.
    + cbn [map]. by eapply Trace_cons.
Qed.

Lemma processWallet_loop_trace env registry address tokenLists :
  ∀ st w,
    ∃ st' w',
      for_of
        (fun st chain =>
           nativeBalance <- checkNativeBalance env address chain ;;
           st <- record_result address st nativeBalance ;;
           let tokens := default [] (tokenLists !! Chain.id chain) in
           let tokensToCheck := take 20 tokens in
           for_of
             (fun st token =>
                tokenBalance <- checkERC20Balance env address chain token ;;
                record_result address st tokenBalance)
             tokensToCheck st)
        registry st w
      = (Ret st', w')
      ∧ st'.1 = st.1 ++ results_of env (length (log w))
                          (wallet_probes registry address tokenLists)
      ∧ st'.2 = st.2 || existsb (λ x, positive x.2)
                          (results_of env (length (log w))
                             (wallet_probes registry address tokenLists))
      ∧ Trace env (wallet_probes registry address tokenLists) w w'.
Proof.
  induction registry as [|chain registry IH]; intros st w.
  - exists st, w. simpl. rewrite app_nil_r, orb_false_r.
    split_and!; [done|done|done|apply Trace_refl].
  - destruct (checkNativeBalance_trace env address chain w)
      as (b & w1 & Hb & Hres & HT1).
    destruct (record_result_trace env address st b w1) as (w2 & Hr & HT2).
    destruct (token_loop_trace env address chain
                (take 20 (default [] (tokenLists !! Chain.id chain)))
                (st.1 ++ [(address, b)], st.2 || positive b) w2)
      as (st3 & w3 & Hloop & H31 & H32 & HT3).
    destruct (IH st3 w3) as (st' & w' & Hrest & H1 & H2 & HT4).
    pose proof (Trace_snoc_nil _ _ _ _ _ HT1 HT2) as HT12.
    apply Trace_length in HT12 as Hlen. simpl in Hlen.
    rewrite Hlen, Nat.add_1_r in H31, H32.
    pose proof (Trace_cons _ _ _ _ _ _ HT12 HT3) as HTc.
    apply Trace_length in HTc as Hlenc.
    assert (wallet_probes (chain :: registry) address tokenLists
            = (NativeProbe address chain
               :: map (ERC20Probe address chain)
                    (take 20 (default [] (tokenLists !! Chain.id chain))))
              ++ wallet_probes registry address tokenLists) as Hwp.
    { unfold wallet_probes. simpl. unfold chain_probes.
      by rewrite capped_take. }
    exists st', w'. split_and!.
    + cbn [for_of]. erewrite bind_ret; [exact Hrest|].
      erewrite bind_ret by exact Hb. erewrite bind_ret by exact Hr.
      exact Hloop.
    + rewrite Hwp, results_of_app, <- Hlenc, H1, H31.
      cbn [results_of]. rewrite Hres.
      change (option_list (Some (address, b))) with [(address, b)].
      cbn [fst]. by rewrite <- !app_assoc.
    + rewrite Hwp, results_of_app, <- Hlenc, H2, H32.
      cbn [results_of]. rewrite Hres.
      change (option_list (Some (address, b))) with [(address, b)].
      rewrite !existsb_app. cbn [existsb snd].
      rewrite orb_false_r, !orb_assoc. done.
    + rewrite Hwp. by eapply Trace_trans.
Qed.

Lemma processWallet_trace env registry address tokenLists w :
  ∃ r w',
    processWallet env registry address tokenLists w = (Ret r, w')
    ∧ r.1 = results_of env (length (log w))
              (wallet_probes registry address tokenLists)
    ∧ r.2 = existsb (λ x, positive x.2) r.1
    ∧ Trace env (wallet_probes registry address tokenLists) w w'.
Proof.
  destruct (processWallet_loop_trace env registry address tokenLists
              ([], false) w) as (r & w' & Hrun & H1 & H2 & HT).
  exists r, w'. simpl in H1, H2.
  split_and!; [exact Hrun|exact H1|by rewrite H1|exact HT].
Qed.

Lemma fetch_catalogs_loop_trace env registry :
  ∀ tokenLists w,
    ∃ w',
      for_of (fun tokenLists chain =>
                tokens <- fetchTokenList env (Chain.id chain) ;;
                ret (<[Chain.id chain := tokens]> tokenLists))
             registry tokenLists w
      = (Ret (catalogs env (length (log w)) registry tokenLists), w')
      ∧ Trace env (map CatalogFetch (map Chain.id registry)) w w'
      ∧ inputCsv w' = inputCsv w.
Proof.
  induction registry as [|chain registry IH]; intros tl w.
  - exists w. split_and!; [done|apply Trace_refl|done].
  - destruct (fetchTokenList_trace env (Chain.id chain) w)
      as (w1 & Hf & HT1 & Hs1).
    apply Trace_length in HT1 as Hlen. simpl in Hlen.
    destruct (IH (<[Chain.id chain :=
                      catalog_of (axios_get env (length (log w))
                                    (Chain.id chain))]> tl) w1)
      as (w' & Hrest & HT2 & Hs2).
    rewrite Hlen, Nat.add_1_r in Hrest.
    exists w'. split_and!.
    + cbn [for_of catalogs]. erewrite bind_ret; [exact Hrest|].
      erewrite bind_ret by exact Hf. reflexivity.
    + cbn [map]. by eapply Trace_cons.
    + congruence.
Qed.

Lemma catalogs_other env n chains tokenLists i :
  i ∉ map Chain.id chains →
  catalogs env n chains tokenLists !! i = tokenLists !! i.
Proof.
  revert n tokenLists. induction chains as [|chain chains IH];
    intros n tl Hi; [done|].
  cbn [map] in Hi. apply not_elem_of_cons in Hi as [Hne Hi].
  cbn [catalogs]. rewrite IH by done. by rewrite lookup_insert_ne.
Qed.

Lemma catalogs_lookup env n chains tokenLists k chain :
  NoDup (map Chain.id chains) →
  chains !! k = Some chain →
  catalogs env n chains tokenLists !! Chain.id chain
  = Some (catalog_of (axios_get env (n + k) (Chain.id chain))).
Proof.
  revert n tokenLists k. induction chains as [|c chains IH];
    intros n tl k Hnd Hk; [done|].
  cbn [map] in Hnd. apply NoDup_cons in Hnd as [Hnotin Hnd].
  destruct k as [|k]; cbn [catalogs].
  - injection Hk as ->. rewrite catalogs_other by done.
    rewrite lookup_insert_eq, Nat.add_0_r. done.
  - rewrite (IH _ _ k) by done. do 3 f_equal. lia.
Qed.

Lemma catalogs_dom env n chains tokenLists i :
  is_Some (catalogs env n chains tokenLists !! i)
  ↔ i ∈ map Chain.id chains ∨ is_Some (tokenLists !! i).
Proof.
  revert n tokenLists. induction chains as [|c chains IH]; intros n tl.
  - cbn [catalogs map]. split; [auto|]. intros [H|H]; [|done].
    by apply not_elem_of_nil in H.
  - cbn [catalogs map]. rewrite IH, elem_of_cons.
    destruct (decide (i = Chain.id c)) as [->|Hne].
    + rewrite lookup_insert_eq. split; [auto|]. intros _. right. by eexists.
    + rewrite lookup_insert_ne by done. tauto.
Qed.

Lemma wallet_loop_trace env registry tokenLists wallets :
  ∀ (st : nat * list SourceRecord.t) w,
    ∃ st' w',
      for_of (fun (st : nat * list SourceRecord.t) address =>
                let count := S st.1 in
                processWallet env registry address tokenLists ;;;
                records <- updateWalletListCsv st.2 address ;;
                ret (count, records))
             wallets st w
      = (Ret st', w')
      ∧ st'.1 = st.1 + length wallets
      ∧ Trace env (wallet_events registry tokenLists wallets) w w'.
Proof.
  induction wallets as [|a wallets IH]; intros st w.
  - exists st, w. split_and!; [done|simpl; lia|apply Trace_refl].
  - destruct (processWallet_trace env registry a tokenLists w)
      as (r & w1 & Hp & _ & _ & HT1).
    pose proof (updateWalletListCsv_run st.2 a w1) as Hu.
    destruct (IH (S st.1, filter (λ r, ¬ checkpoint_row a r) st.2)
                (log_event (Checkpoint a)
                   (set_inputCsv
                      (Some (filter (λ r, ¬ checkpoint_row a r) st.2)) w1)))
      as (st' & w' & Hrest & Hc & HT2).
    exists st', w'. split_and!.
    + cbn [for_of]. erewrite bind_ret; [exact Hrest|].
      erewrite bind_ret by exact Hp. erewrite bind_ret by exact Hu.
      reflexivity.
    + rewrite Hc. simpl. lia.
    + unfold wallet_events. cbn [flat_map]. rewrite <- app_assoc.
      eapply Trace_trans; [exact HT1|].
      eapply Trace_cons; [apply Trace_checkpoint|exact HT2].
Qed.

Lemma processWallets_trace env registry w records :
  inputCsv w = Some records →
  ∃ w',
    processWallets env registry w = (Ret tt, w')
    ∧ Trace env
        (map CatalogFetch (map Chain.id registry)
         ++ wallet_events registry (catalogs env (length (log w)) registry ∅)
              (derive_wallets records))
        w w'.
Proof.
  intros Hsrc.
  destruct (fetch_catalogs_loop_trace env registry ∅ (init_world w))
    as (w1 & Hf & HT1 & Hs1).
  destruct (wallet_loop_trace env registry
              (catalogs env (length (log w)) registry ∅)
              (derive_wallets records) (0, records) w1)
    as (st & w2 & Hloop & _ & HT2).
  exists w2. split.
  - unfold processWallets, try_catch.
    erewrite bind_ret by apply initializeOutputFiles_run.
    assert (read_records (init_world w) = (Ret records, init_world w)) as Hread.
    { unfold read_records, bind, get. simpl. by rewrite Hsrc. }
    erewrite bind_ret by exact Hread.
    unfold fetch_catalogs. erewrite bind_ret by exact Hf.
    erewrite bind_ret by exact Hloop.
    reflexivity.
  - eapply Trace_nil_cons; [apply Trace_init|].
    eapply Trace_trans; [exact HT1|exact HT2].
Qed.

(** ** A restart on an emptied source list, request by request *)

Lemma catalog_errors_imap env n registry :
  errors_of env n (map CatalogFetch (map Chain.id registry))
  = omap id (imap (λ k chain,
                     error_of env (n + k) (CatalogFetch (Chain.id chain)))
               registry).
Proof.
  revert n. induction registry as [|c registry IH]; intros n; [done|].
  cbn [map errors_of]. rewrite imap_cons, IH, Nat.add_0_r.
  assert (imap (λ k chain,
                  error_of env (S n + k) (CatalogFetch (Chain.id chain)))
               registry
          = imap ((λ k chain,
                     error_of env (n + k) (CatalogFetch (Chain.id chain)))
                  ∘ S) registry) as ->.
  { apply imap_ext. intros k x _. unfold compose.
    by replace (S n + k) with (n + S k) by lia. }
  by destruct (error_of env n (CatalogFetch (Chain.id c))).
Qed.

Lemma catalog_errors_elem env n registry k chain message :
  registry !! k = Some chain →
  axios_get env (n + k) (Chain.id chain) = Throw message →
  ErrorRecord.mk (String_of (Chain.id chain)) "N/A" "N/A" "N/A"
                 "fetchTokenList" message
  ∈ errors_of env n (map CatalogFetch (map Chain.id registry)).
Proof.
  revert n k. induction registry as [|c registry IH]; intros n k Hk Hfail;
    [done|].
  cbn [map errors_of]. apply elem_of_app. destruct k as [|k].
  - injection Hk as ->. left. rewrite Nat.add_0_r in Hfail.
    cbn [error_of]. rewrite Hfail. apply list_elem_of_here.
  - right. apply (IH (S n) k Hk).
    by replace (S n + k) with (n + S k) by lia.
Qed.

Lemma catalog_errors_all_fail env n registry :
  (∀ k chain, registry !! k = Some chain →
              ∃ message, axios_get env (n + k) (Chain.id chain)
                         = Throw message) →
  map ErrorRecord.chain
      (errors_of env n (map CatalogFetch (map Chain.id registry)))
  = map (λ chain, String_of (Chain.id chain)) registry.
Proof.
  revert n. induction registry as [|c registry IH]; intros n Hfail; [done|].
  cbn [map errors_of]. destruct (Hfail 0 c eq_refl) as [message Hc].
  rewrite Nat.add_0_r in Hc. cbn [error_of]. rewrite Hc.
  change (option_list (Some ?e)) with [e].
  rewrite map_app. cbn [map ErrorRecord.chain app]. f_equal.
  apply IH. intros k chain Hk. destruct (Hfail (S k) chain Hk) as [m Hm].
  exists m. by replace (S n + k) with (n + S k) by lia.
Qed.

(** C9, amended.  When the derived wallet set is empty, the run ends
    normally after the catalog fetches alone: it makes no native-balance and
    no token probe, the all-balances and non-zero files are as
    [initializeOutputFiles] leaves them and gain no row, and the source list
    is not rewritten.  The catalogs of all the chains are still fetched, one
    request per chain in registry order, and every request that fails, and
    no other, leaves one error record, in memory and as one row of the error
    CSV, in the order of the requests: the request for the [k]-th chain
    leaves its record tagged [fetchTokenList] with the message it failed
    with.  So the error CSV gains as many rows as there are chains when
    every request fails, and none when every request is answered. *)
Theorem idle_restart_probes_nothing (env : Env) (registry : list Chain.t)
    (w : World) (records : list SourceRecord.t) :
  inputCsv w = Some records →
  derive_wallets records = [] →
  ∃ w' es,
    processWallets env registry w = (Ret tt, w')
    ∧ log w' = log w ++ map CatalogFetch (map Chain.id registry)
    ∧ filter is_balance_probe (drop (length (log w)) (log w')) = []
    ∧ allBalances w' = Some (default [headers] (allBalances w))
    ∧ nonZeroBalances w' = Some (default [headers] (nonZeroBalances w))
    ∧ inputCsv w' = Some records
    ∧ es = omap id
             (imap (λ k chain,
                      match axios_get env (length (log w) + k)
                                      (Chain.id chain) with
                      | Throw message =>
                          Some (ErrorRecord.mk (String_of (Chain.id chain))
                                               "N/A" "N/A" "N/A"
                                               "fetchTokenList" message)
                      | Ret _ => None
                      end)
                registry)
    ∧ errors w' = errors w ++ es
    ∧ rows errorCsvPath w'
      = default [errorHeaders] (errorCsv w) ++ map error_row es
    ∧ Forall (λ e, ErrorRecord.operation e = "fetchTokenList") es
    ∧ (∀ k chain message,
         registry !! k = Some chain →
         axios_get env (length (log w) + k) (Chain.id chain) = Throw message →
         ErrorRecord.mk (String_of (Chain.id chain)) "N/A" "N/A" "N/A"
                        "fetchTokenList" message ∈ es)
    ∧ ((∀ k chain, registry !! k = Some chain →
                   ∃ message, axios_get env (length (log w) + k)
                                (Chain.id chain) = Throw message) →
       map ErrorRecord.chain es
       = map (λ chain, String_of (Chain.id chain)) registry
       ∧ length (rows errorCsvPath w')
         = length (default [errorHeaders] (errorCsv w)) + length registry)
    ∧ ((∀ i id, ∃ r, axios_get env i id = Ret r) → es = []).
Proof.
  intros Hsrc Hnone.
  destruct (fetch_catalogs_errors env registry (init_world w))
    as (tl & w1 & es & Hf & He & Hall & Hup).
  destruct (fetch_catalogs_out env registry (init_world w))
    as (tl' & w1' & Hf' & HO & Hin).
  rewrite Hf in Hf'. injection Hf' as <- <-.
  destruct (fetch_catalogs_loop_trace env registry ∅ (init_world w))
    as (w1' & Hf' & (_ & HeT & _) & _).
  unfold fetch_catalogs in Hf. rewrite Hf in Hf'. injection Hf' as _ <-.
  change (errors (init_world w)) with (errors w) in He, HeT.
  change (log (init_world w)) with (log w) in HeT.
  rewrite He in HeT. apply app_inv_head in HeT. subst es.
  pose proof HO as (Hlog & _ & _ & (es' & He' & Hc' & _) & _).
  change (errors (init_world w)) with (errors w) in He'.
  rewrite He in He'. apply app_inv_head in He'. subst es'.
  simpl in Hlog.
  exists w1, (errors_of env (length (log w))
                (map CatalogFetch (map Chain.id registry))).
  split_and!.
  - exact (processWallets_idle env registry w records tl w1 Hsrc Hnone Hf).
  - exact Hlog.
  - rewrite Hlog, drop_app_length. apply no_probe_in_catalogs.
  - apply (Out_same_file _ _ _ allBalancesPath HO); [done|by eexists].
  - apply (Out_same_file _ _ _ nonZeroBalancesPath HO); [done|by eexists].
  - by rewrite Hin.
  - exact (catalog_errors_imap env (length (log w)) registry).
  - exact He.
  - exact Hc'.
  - exact Hall.
  - intros k chain message. apply catalog_errors_elem.
  - intros Hfail.
    pose proof (catalog_errors_all_fail env (length (log w)) registry Hfail)
      as Hchains.
    split; [exact Hchains|].
    rewrite Hc'. change (rows errorCsvPath (init_world w))
      with (default [errorHeaders] (errorCsv w)).
    rewrite length_app, length_map. f_equal.
    by rewrite <- (length_map ErrorRecord.chain), Hchains, length_map.
  - exact Hup.
Qed.

(** A restart next to the files of an earlier run, with the catalog
    service down: no probe, one error record and one more row in the error
    CSV for the one chain of the registry. *)
Lemma idle_restart_probes_nothing_witness :
  inputCsv (resumed [] [] []) = Some []
  ∧ derive_wallets [] = []
  ∧ ∃ w', processWallets env_down CHAINS (resumed [] [] []) = (Ret tt, w')
          ∧ log w' = [CatalogFetch 1]
          ∧ allBalances w' = Some [headers]
          ∧ nonZeroBalances w' = Some [headers]
          ∧ errors w'
            = [ErrorRecord.mk "1" "N/A" "N/A" "N/A" "fetchTokenList"
                              "Network Error"]
          ∧ rows errorCsvPath w'
            = [errorHeaders;
               [CStr "1"; CStr "N/A"; CStr "N/A"; CStr "N/A";
                CStr "fetchTokenList"; CStr "Network Error"]].
Proof.
  split; [reflexivity|]. split; [reflexivity|].
  destruct (idle_restart_probes_nothing env_down CHAINS (resumed [] [] []) []
              eq_refl eq_refl)
    as (w' & es & Hrun & _).
  exists w'. split; [exact Hrun|].
  vm_compute in Hrun. injection Hrun as <-. split_and!; reflexivity.
Defined.

(** ** Further properties of the program *)

(** X1. [initializeOutputFiles] is idempotent: it always returns, running it
    again changes nothing, an output file that exists keeps its content, a
    missing CSV file is created with its header row alone and a missing JSON
    document with the empty array; the errors in memory, the source list and
    the client cache are not touched. *)
Theorem initializeOutputFiles_idempotent (w : World) :
  ∃ w1,
    initializeOutputFiles w = (Ret tt, w1)
    ∧ initializeOutputFiles w1 = (Ret tt, w1)
    ∧ (∀ p c, read_csv p w = Some c → read_csv p w1 = Some c)
    ∧ (∀ d, errorJson w = Some d → errorJson w1 = Some d)
    ∧ (allBalances w = None → allBalances w1 = Some [headers])
    ∧ (nonZeroBalances w = None → nonZeroBalances w1 = Some [headers])
    ∧ (errorCsv w = None → errorCsv w1 = Some [errorHeaders])
    ∧ (errorJson w = None → errorJson w1 = Some [])
    ∧ errors w1 = errors w
    ∧ inputCsv w1 = inputCsv w
    ∧ clientCache w1 = clientCache w.
Proof.
  exists (init_world w). split; [apply initializeOutputFiles_run|].
  split; [by rewrite initializeOutputFiles_run|].
  split_and!; try reflexivity.
  - intros [] c H; simpl in *; by rewrite H.
  - intros d H. simpl. by rewrite H.
  - intros H. simpl. by rewrite H.
  - intros H. simpl. by rewrite H.
  - intros H. simpl. by rewrite H.
  - intros H. simpl. by rewrite H.
Qed.

(** A directory that holds a non-zero file of an earlier run and nothing
    else. *)
Lemma initializeOutputFiles_idempotent_witness :
  let old := [headers; [CStr "0xA"]] in
  let w := mkWorld [] [] None None (Some old) None None [] in
  ∃ w1, initializeOutputFiles w = (Ret tt, w1)
        ∧ nonZeroBalances w1 = Some old
        ∧ allBalances w1 = Some [headers]
        ∧ errorJson w1 = Some [].
Proof.
  intros old w.
  destruct (initializeOutputFiles_idempotent w)
    as (w1 & Hrun & _ & Hkeep & _ & Hall & _ & _ & Hjson & _).
  exists w1. split_and!; [exact Hrun| |by apply Hall|by apply Hjson].
  by apply (Hkeep nonZeroBalancesPath).
Defined.

(** X2. When the source list cannot be read, [processWallets] still ends
    normally: it makes no request, appends one error record with operation
    "processWallets" and "N/A" for the other labels, rewrites the JSON
    document with the errors in memory, appends the matching row to the
    error CSV, leaves the balance files as [initializeOutputFiles] made
    them and does not create the source list. *)
Theorem unreadable_source_is_recorded (env : Env) (registry : list Chain.t)
    (w : World) :
  inputCsv w = None →
  ∃ w' message,
    processWallets env registry w = (Ret tt, w')
    ∧ log w' = log w
    ∧ errors w'
      = errors w ++ [ErrorRecord.mk "N/A" "N/A" "N/A" "N/A" "processWallets"
                                    message]
    ∧ errorJson w' = Some (errors w')
    ∧ rows errorCsvPath w'
      = default [errorHeaders] (errorCsv w)
        ++ [[CStr "N/A"; CStr "N/A"; CStr "N/A"; CStr "N/A";
             CStr "processWallets"; CStr message]]
    ∧ allBalances w' = Some (default [headers] (allBalances w))
    ∧ nonZeroBalances w' = Some (default [headers] (nonZeroBalances w))
    ∧ inputCsv w' = None.
Proof.
  intros Hsrc. eexists _, _. split; [by apply processWallets_missing|].
  split_and!; try reflexivity. simpl. exact Hsrc.
Qed.

Lemma unreadable_source_is_recorded_witness :
  let w := mkWorld [] [] None None None None None [] in
  inputCsv w = None
  ∧ ∃ w', processWallets env_answering CHAINS w = (Ret tt, w')
          ∧ log w' = []
          ∧ length (errors w') = 1
          ∧ length (rows errorCsvPath w') = 2.
Proof.
  intros w. split; [reflexivity|].
  destruct (unreadable_source_is_recorded env_answering CHAINS w eq_refl)
    as (w' & message & Hrun & _).
  exists w'. split; [exact Hrun|].
  vm_compute in Hrun. injection Hrun as <-. split_and!; reflexivity.
Defined.

Lemma mirrored_prefix w w' : mirrored w w' → errors w `prefix_of` errors w'.
Proof. intros (es & -> & _). by apply prefix_app_r. Qed.

Lemma Out_rows_prefix evs rs w w' p :
  Out evs rs w w' → rows p w `prefix_of` rows p w'.
Proof.
  intros (_ & Hall & Hnz & (es & _ & Hc & _) & _).
  destruct p; [rewrite Hall|rewrite Hnz|rewrite Hc]; by apply prefix_app_r.
Qed.

Lemma rows_init_prefix p w c :
  read_csv p w = Some c → rows p (init_world w) = c.
Proof. unfold rows. destruct p; simpl; by intros ->. Qed.

(** X3. [processWallets] never rejects, whatever the files and the network
    do.  When it ends, the four output files exist, every CSV file that
    existed before still starts with the rows it had, and the errors in
    memory start with the errors that were there: nothing that an earlier
    run wrote to the CSV files is lost. *)
Theorem run_ends_normally_and_only_appends (env : Env)
    (registry : list Chain.t) (w : World) :
  ∃ w',
    processWallets env registry w = (Ret tt, w')
    ∧ errors w `prefix_of` errors w'
    ∧ (∀ p, is_Some (read_csv p w'))
    ∧ is_Some (errorJson w')
    ∧ ∀ p c, read_csv p w = Some c → c `prefix_of` rows p w'.
Proof.
  assert (∃ w' evs rs, processWallets env registry w = (Ret tt, w')
                       ∧ Out evs rs (init_world w) w')
    as (w' & evs & rs & Hrun & HO).
  { destruct (inputCsv w) as [records|] eqn:Hsrc.
    - destruct (processWallets_run env registry w records Hsrc)
        as (w' & tl & rs & Hrun & HO & _).
      by eexists w', _, rs.
    - eexists _, [], []. split; [by apply processWallets_missing|].
      apply Out_absorb. }
  exists w'. split; [exact Hrun|].
  pose proof HO as (_ & _ & _ & Hm & Hex & Hj).
  split_and!.
  - apply mirrored_prefix in Hm. exact Hm.
  - intros p. apply Hex. destruct p; simpl; by eexists.
  - apply Hj. simpl. by eexists.
  - intros p c Hc. rewrite <- (rows_init_prefix p w c Hc).
    by eapply Out_rows_prefix.
Qed.

Lemma run_ends_normally_and_only_appends_witness :
  let old := ErrorRecord.mk "Ethereum" "ETH" "native" "0xZ"
                            "checkNativeBalance" "timeout" in
  let w := resumed [embedded "0xA"] [old] [error_row old] in
  ∃ w', processWallets env_down CHAINS w = (Ret tt, w')
        ∧ [errorHeaders; error_row old] `prefix_of` rows errorCsvPath w'
        ∧ length (rows errorCsvPath w') = 4.
Proof.
  intros old w.
  destruct (run_ends_normally_and_only_appends env_down CHAINS w)
    as (w' & Hrun & _ & _ & _ & Hkeep).
  exists w'. split; [exact Hrun|]. split.
  - by apply (Hkeep errorCsvPath).
  - vm_compute in Hrun. injection Hrun as <-. reflexivity.
Defined.

(** X4. In a run over a registry without repeated chain ids, the token list
    used for a chain is what [fetchTokenList] made of the one catalog
    request of that chain, the [k]-th request of the run for the [k]-th
    chain; the token probes of every wallet on that chain are the first
    twenty of that list.  When the catalog request of a chain fails, every
    wallet gets the native probe of that chain and no token probe. *)
Theorem token_probes_follow_catalog_answers (env : Env)
    (registry : list Chain.t) (w : World) (records : list SourceRecord.t) :
  inputCsv w = Some records →
  NoDup (map Chain.id registry) →
  let tokenLists := catalogs env (length (log w)) registry ∅ in
  ∃ w',
    processWallets env registry w = (Ret tt, w')
    ∧ log w' = log w ++ map CatalogFetch (map Chain.id registry)
               ++ wallet_events registry tokenLists (derive_wallets records)
    ∧ (∀ k chain,
         registry !! k = Some chain →
         tokenLists !! Chain.id chain
         = Some (catalog_of (axios_get env (length (log w) + k)
                               (Chain.id chain))))
    ∧ (∀ k chain address message,
         registry !! k = Some chain →
         axios_get env (length (log w) + k) (Chain.id chain) = Throw message →
         chain_probes address tokenLists chain = [NativeProbe address chain]).
Proof.
  intros Hsrc Hnd tl.
  destruct (processWallets_trace env registry w records Hsrc)
    as (w' & Hrun & Hlog & _).
  exists w'. split_and!; [exact Hrun|exact Hlog| |].
  - intros k chain Hk. by apply catalogs_lookup.
  - intros k chain address message Hk Hfail. unfold chain_probes, tl.
    rewrite (catalogs_lookup _ _ _ _ k) by done. rewrite Hfail. done.
Qed.

(** The catalog service is down: one wallet, one chain, one native probe. *)
Lemma token_probes_follow_catalog_answers_witness :
  let w := fresh [embedded "0xA"] in
  inputCsv w = Some [embedded "0xA"]
  ∧ NoDup (map Chain.id CHAINS)
  ∧ ∃ w', processWallets env_down CHAINS w = (Ret tt, w')
          ∧ log w' = [CatalogFetch 1; NativeProbe "0xA" Ethereum;
                      Checkpoint "0xA"].
Proof.
  intros w. split; [reflexivity|].
  assert (NoDup (map Chain.id CHAINS)) as Hnd.
  { apply NoDup_singleton. }
  split; [exact Hnd|].
  destruct (token_probes_follow_catalog_answers env_down CHAINS w
              [embedded "0xA"] eq_refl Hnd)
    as (w' & Hrun & Hlog & _).
  exists w'. split; [exact Hrun|]. rewrite Hlog. reflexivity.
Defined.

Lemma wallet_probes_shape registry address tokenLists :
  Forall (λ ev, match ev with
                | NativeProbe a _ | ERC20Probe a _ _ => a = address
                | _ => False
                end)
         (wallet_probes registry address tokenLists).
Proof.
  unfold wallet_probes. induction registry as [|chain registry IH]; simpl.
  - apply Forall_nil_2.
  - apply Forall_cons. split; [done|]. apply Forall_app. split; [|exact IH].
    apply Forall_fmap, Forall_forall. done.
Qed.

Lemma wallet_probes_length registry address tokenLists :
  length (wallet_probes registry address tokenLists)
  = sum_list (map (λ chain,
                     1 + 20 `min` length (default [] (tokenLists
                                                       !! Chain.id chain)))
                  registry).
Proof.
  unfold wallet_probes. induction registry as [|chain registry IH]; [done|].
  simpl. rewrite length_app, length_map, length_capped, IH. done.
Qed.

Lemma results_of_probes env address evs :
  Forall (λ ev, match ev with
                | NativeProbe a _ | ERC20Probe a _ _ => a = address
                | _ => False
                end) evs →
  ∀ n,
    length (results_of env n evs) = length evs
    ∧ Forall (λ x, x.1 = address) (results_of env n evs)
    ∧ omap (λ x, BalanceRecord.error x.2) (results_of env n evs)
      = map ErrorRecord.error (errors_of env n evs)
    ∧ Forall (λ e, ErrorRecord.walletAddress e = address) (errors_of env n evs)
    ∧ Forall (λ x, is_Some (BalanceRecord.error x.2) →
                   BalanceRecord.balance x.2 = 0%Q)
             (results_of env n evs).
Proof.
  induction 1 as [|ev evs Hev _ IH]; intros n.
  - simpl. split_and!; try done; apply Forall_nil_2.
  - destruct (IH (S n)) as (Hlen & Haddr & Herr & Hwal & Hzero).
    assert (∀ (x : string * BalanceRecord.t) (es : list ErrorRecord.t),
              result_of env n ev = Some x →
              option_list (error_of env n ev) = es →
              x.1 = address
              ∧ omap (λ x, BalanceRecord.error x.2) [x]
                = map ErrorRecord.error es
              ∧ Forall (λ e, ErrorRecord.walletAddress e = address) es
              ∧ (is_Some (BalanceRecord.error x.2) →
                 BalanceRecord.balance x.2 = 0%Q)) as Hone.
    { intros x es Hx Hes.
      destruct ev as [|a chain|a chain token|]; try done; subst a;
        simpl in Hx, Hes.
      - destruct (getBalance env n chain address) as [raw|message];
          injection Hx as <-; subst es; simpl;
          split_and!; try done; try (by apply Forall_singleton);
          try (by intros [? ?]).
      - destruct (readContract env n chain (Token.address token) address)
          as [raw|message];
          injection Hx as <-; subst es; simpl;
          split_and!; try done; try (by apply Forall_singleton);
          try (by intros [? ?]). }
    assert (∃ x, result_of env n ev = Some x) as [x Hx].
    { destruct ev; try done; by eexists. }
    destruct (Hone x _ Hx eq_refl) as (H1 & H2 & H3 & H4).
    cbn [results_of errors_of]. rewrite Hx.
    change (option_list (Some x)) with [x].
    split_and!.
    + rewrite length_app, Hlen. reflexivity.
    + apply Forall_app. split; [by apply Forall_singleton|done].
    + rewrite omap_app, map_app, Herr, H2. reflexivity.
    + apply Forall_app. split; done.
    + apply Forall_app. split; [by apply Forall_singleton|done].
Qed.

Lemma filter_positive_answered (l : list (string * BalanceRecord.t)) :
  Forall (λ x, is_Some (BalanceRecord.error x.2) →
               BalanceRecord.balance x.2 = 0%Q) l →
  filter (λ x, positive x.2) l
  = filter (λ x, BalanceRecord.error x.2 = None
                 ∧ (0 < BalanceRecord.balance x.2)%Q) l.
Proof.
  induction 1 as [|x l Hx _ IH]; [done|].
  rewrite !filter_cons, IH.
  destruct (decide (positive x.2)) as [Hp|Hp].
  - apply positive_spec in Hp as Hp'. rewrite decide_True; [done|].
    split; [|done]. destruct (BalanceRecord.error x.2) eqn:E; [|done].
    rewrite Hx in Hp' by by eexists. done.
  - rewrite decide_False; [done|]. intros [_ Hp']. by apply Hp, positive_spec.
Qed.

Lemma filter_none_positive (l : list (string * BalanceRecord.t)) :
  existsb (λ x, positive x.2) l = false →
  filter (λ x, positive x.2) l = [].
Proof.
  induction l as [|x l IH]; [done|]. cbn [existsb].
  intros [Hx Hl]%orb_false_iff.
  rewrite filter_cons_False; [by apply IH|]. rewrite Hx. by intros [].
Qed.

(** X5. [processWallet] pushes one result per request, in the order of the
    requests, each carrying the wallet address: the result of a request is
    the record built from the answer that request got.  Their number is the
    sum over the chains of one plus the smaller of 20 and the size of the
    chain's token list, and the all-balances file gains exactly their
    rows. *)
Theorem one_result_per_probe (env : Env) (registry : list Chain.t)
    (address : string) (tokenLists : gmap Z (list Token.t)) (w : World) :
  ∃ r w',
    processWallet env registry address tokenLists w = (Ret r, w')
    ∧ log w' = log w ++ wallet_probes registry address tokenLists
    ∧ r.1 = results_of env (length (log w))
              (wallet_probes registry address tokenLists)
    ∧ length r.1 = length (wallet_probes registry address tokenLists)
    ∧ length r.1
      = sum_list
          (map (λ chain,
                  1 + 20 `min` length (default [] (tokenLists
                                                    !! Chain.id chain)))
               registry)
    ∧ Forall (λ x, x.1 = address) r.1
    ∧ rows allBalancesPath w' = rows allBalancesPath w ++ map result_row r.1.
Proof.
  destruct (processWallet_trace env registry address tokenLists w)
    as (r & w' & Hrun & Hres & _ & (Hlog & _)).
  destruct (processWallet_out env registry address tokenLists w)
    as (r' & w'' & Hrun' & (_ & Hall & _) & _).
  rewrite Hrun in Hrun'. injection Hrun' as <- <-.
  destruct (results_of_probes env address _
              (wallet_probes_shape registry address tokenLists)
              (length (log w))) as (Hlen & Haddr & _).
  exists r, w'. rewrite Hres.
  split_and!; try done.
  - by rewrite Hlen, wallet_probes_length.
  - by rewrite <- Hres.
Qed.

(** X6. The results of [processWallet] and the error log agree: the error
    messages attached to the results are, in order, the messages of the
    error records that the call appended, every one of which names the
    wallet; a result that carries an error message has balance 0, so the
    rows that the non-zero file gains all come from answered requests. *)
Theorem failed_probes_are_zero_and_logged (env : Env)
    (registry : list Chain.t) (address : string)
    (tokenLists : gmap Z (list Token.t)) (w : World) :
  ∃ r w' es,
    processWallet env registry address tokenLists w = (Ret r, w')
    ∧ errors w' = errors w ++ es
    ∧ omap (λ x, BalanceRecord.error x.2) r.1 = map ErrorRecord.error es
    ∧ Forall (λ e, ErrorRecord.walletAddress e = address) es
    ∧ Forall (λ x, is_Some (BalanceRecord.error x.2) →
                   BalanceRecord.balance x.2 = 0%Q) r.1
    ∧ rows nonZeroBalancesPath w'
      = rows nonZeroBalancesPath w
        ++ map result_row
             (filter (λ x, BalanceRecord.error x.2 = None
                           ∧ (0 < BalanceRecord.balance x.2)%Q) r.1).
Proof.
  destruct (processWallet_trace env registry address tokenLists w)
    as (r & w' & Hrun & Hres & _ & (_ & Herrs & _)).
  destruct (processWallet_out env registry address tokenLists w)
    as (r' & w'' & Hrun' & (_ & _ & Hnz & _) & _).
  rewrite Hrun in Hrun'. injection Hrun' as <- <-.
  destruct (results_of_probes env address _
              (wallet_probes_shape registry address tokenLists)
              (length (log w))) as (_ & _ & Hmsg & Hwal & Hzero).
  rewrite <- Hres in Hmsg, Hzero.
  exists r, w', (errors_of env (length (log w))
                   (wallet_probes registry address tokenLists)).
  split_and!; try done.
  rewrite Hnz. do 2 f_equal. by apply filter_positive_answered.
Qed.

(** X7. The flag [hasNonZeroBalance] that [processWallet] returns is true
    exactly when one of its results has a balance greater than zero; when
    it is false the non-zero file has gained no row. *)
Theorem hasNonZeroBalance_iff_some_positive (env : Env)
    (registry : list Chain.t) (address : string)
    (tokenLists : gmap Z (list Token.t)) (w : World) :
  ∃ r w',
    processWallet env registry address tokenLists w = (Ret r, w')
    ∧ (r.2 = true ↔ ∃ x, x ∈ r.1 ∧ (0 < BalanceRecord.balance x.2)%Q)
    ∧ (r.2 = false →
       rows nonZeroBalancesPath w' = rows nonZeroBalancesPath w).
Proof.
  destruct (processWallet_trace env registry address tokenLists w)
    as (r & w' & Hrun & _ & Hflag & _).
  destruct (processWallet_out env registry address tokenLists w)
    as (r' & w'' & Hrun' & (_ & _ & Hnz & _) & _).
  rewrite Hrun in Hrun'. injection Hrun' as <- <-.
  exists r, w'. split; [exact Hrun|].
  assert (r.2 = true ↔ ∃ x, x ∈ r.1 ∧ (0 < BalanceRecord.balance x.2)%Q)
    as Hiff.
  { rewrite Hflag, existsb_exists. split.
    - intros (x & Hin & Hp). exists x. split; [by apply list_elem_of_In|].
      apply positive_spec. by apply Is_true_true.
    - intros (x & Hin & Hp). exists x. split; [by apply list_elem_of_In|].
      apply Is_true_true. by apply positive_spec. }
  split; [exact Hiff|].
  intros Hfalse. rewrite Hnz, filter_none_positive; [by rewrite app_nil_r|].
  by rewrite <- Hflag.
Qed.

Lemma errors_of_imap env n evs :
  errors_of env n evs
  = omap id (imap (λ k ev, error_of env (n + k) ev) evs).
Proof.
  revert n. induction evs as [|ev evs IH]; intros n; [done|].
  cbn [errors_of]. rewrite imap_cons, IH, Nat.add_0_r.
  assert (imap (λ k ev0, error_of env (S n + k) ev0) evs
          = imap ((λ k ev0, error_of env (n + k) ev0) ∘ S) evs) as ->.
  { apply imap_ext. intros k x _. simpl. f_equal. lia. }
  by destruct (error_of env n ev).
Qed.

Lemma omap_length_le {A B} (f : A → option B) (l : list A) :
  (length (omap f l) ≤ length l)%nat.
Proof.
  induction l as [|x l IH]; [done|].
  change (omap f (x :: l))
    with (from_option (λ y, y :: omap f l) (omap f l) (f x)).
  destruct (f x); simpl; lia.
Qed.

(** X8. In a run that can read its source list, the errors in memory grow
    by exactly the errors of the failed requests, in the order of the
    requests: the [k]-th request of the run contributes its error record
    when it failed and nothing when it was answered.  The error CSV gains
    the rows of the same records after what it held (its header row when
    the run created it). *)
Theorem errors_follow_failed_requests (env : Env) (registry : list Chain.t)
    (w : World) (records : list SourceRecord.t) :
  inputCsv w = Some records →
  ∃ w' evs es,
    processWallets env registry w = (Ret tt, w')
    ∧ log w' = log w ++ evs
    ∧ es = omap id (imap (λ k ev, error_of env (length (log w) + k) ev) evs)
    ∧ errors w' = errors w ++ es
    ∧ rows errorCsvPath w'
      = default [errorHeaders] (errorCsv w) ++ map error_row es
    ∧ (length es ≤ length evs)%nat.
Proof.
  intros Hsrc.
  destruct (processWallets_trace env registry w records Hsrc)
    as (w' & Hrun & Hlog & Herr & _).
  destruct (processWallets_run env registry w records Hsrc)
    as (w'' & tl & rs & Hrun' & (_ & _ & _ & (es & He & Hc & _) & _) & _).
  rewrite Hrun in Hrun'. injection Hrun' as <-.
  simpl in He. rewrite Herr in He. apply app_inv_head in He as <-.
  eexists w', _, _. split_and!; [exact Hrun|exact Hlog|reflexivity|..].
  - rewrite Herr. by rewrite errors_of_imap.
  - rewrite <- errors_of_imap. exact Hc.
  - etrans; [apply omap_length_le|]. by rewrite length_imap.
Qed.

(** The catalog request fails, the native probe fails: two errors for
    three events. *)
Lemma errors_follow_failed_requests_witness :
  let w := fresh [embedded "0xA"] in
  inputCsv w = Some [embedded "0xA"]
  ∧ ∃ w', processWallets env_down CHAINS w = (Ret tt, w')
          ∧ map ErrorRecord.operation (errors w')
            = ["fetchTokenList"; "checkNativeBalance"]
          ∧ length (log w') = 3.
Proof.
  intros w. split; [reflexivity|].
  destruct (errors_follow_failed_requests env_down CHAINS w
              [embedded "0xA"] eq_refl)
    as (w' & evs & es & Hrun & _).
  exists w'. split; [exact Hrun|].
  vm_compute in Hrun. injection Hrun as <-. split; reflexivity.
Defined.

(** ** The client cache *)

Lemma cache_add_elem cache i j : j ∈ cache_add cache i ↔ j ∈ cache ∨ j = i.
Proof.
  unfold cache_add. case_decide as Hin.
  - split; [auto|]. intros [?| ->]; done.
  - rewrite elem_of_app, list_elem_of_singleton. done.
Qed.

Lemma cache_add_NoDup cache i : NoDup cache → NoDup (cache_add cache i).
Proof.
  intros Hnd. unfold cache_add. case_decide as Hin; [done|].
  apply NoDup_app. split_and!; [done| |apply NoDup_singleton].
  intros x Hx ->%list_elem_of_singleton. done.
Qed.

Lemma cache_after_spec cache evs :
  (NoDup cache → NoDup (cache_after cache evs))
  ∧ ∀ i, i ∈ cache_after cache evs ↔ i ∈ cache ∨ i ∈ omap probed_chain evs.
Proof.
  revert cache. induction evs as [|ev evs IH]; intros cache.
  - split; [done|]. intros i. simpl. split; [auto|].
    intros [H|H]; [done|]. by apply not_elem_of_nil in H.
  - unfold cache_after. cbn [fold_left]. fold cache_after.
    destruct ev as [|a chain|a chain token|];
      try (change (omap probed_chain (_ :: evs))
             with (omap probed_chain evs); apply IH).
    + fold (cache_after (cache_add cache (Chain.id chain)) evs).
      destruct (IH (cache_add cache (Chain.id chain))) as [Hnd Hin].
      split; [intros H; by apply Hnd, cache_add_NoDup|].
      intros i. rewrite Hin, cache_add_elem.
      change (omap probed_chain (NativeProbe a chain :: evs))
        with (Chain.id chain :: omap probed_chain evs).
      rewrite elem_of_cons. tauto.
    + fold (cache_after (cache_add cache (Chain.id chain)) evs).
      destruct (IH (cache_add cache (Chain.id chain))) as [Hnd Hin].
      split; [intros H; by apply Hnd, cache_add_NoDup|].
      intros i. rewrite Hin, cache_add_elem.
      change (omap probed_chain (ERC20Probe a chain token :: evs))
        with (Chain.id chain :: omap probed_chain evs).
      rewrite elem_of_cons. tauto.
Qed.

Lemma probed_wallet_probes registry address tokenLists i :
  i ∈ omap probed_chain (wallet_probes registry address tokenLists)
  ↔ i ∈ map Chain.id registry.
Proof.
  unfold wallet_probes. induction registry as [|chain registry IH].
  - done.
  - cbn [flat_map map]. rewrite omap_app, elem_of_app, IH, elem_of_cons.
    assert (i ∈ omap probed_chain (chain_probes address tokenLists chain)
            ↔ i = Chain.id chain) as ->; [|done].
    unfold chain_probes.
    change (omap probed_chain (NativeProbe address chain :: ?l))
      with (Chain.id chain :: omap probed_chain l).
    rewrite elem_of_cons. split; [|auto]. intros [H|H]; [done|].
    apply list_elem_of_omap in H as (ev & Hev & Hp).
    apply list_elem_of_fmap in Hev as (t & -> & _). by injection Hp.
Qed.

Lemma probed_run_events registry tokenLists wallets i :
  i ∈ omap probed_chain
        (map CatalogFetch (map Chain.id registry)
         ++ wallet_events registry tokenLists wallets)
  ↔ wallets ≠ [] ∧ i ∈ map Chain.id registry.
Proof.
  rewrite omap_app, elem_of_app.
  assert (omap probed_chain (map CatalogFetch (map Chain.id registry)) = [])
    as ->.
  { induction (map Chain.id registry) as [|j l IH]; done. }
  unfold wallet_events. induction wallets as [|a wallets IH].
  - simpl. split; [intros [H|H]; by apply not_elem_of_nil in H|].
    by intros [? _].
  - cbn [flat_map]. rewrite !omap_app, !elem_of_app, probed_wallet_probes.
    split.
    + intros [H|[[H|H]|H]].
      * by apply not_elem_of_nil in H.
      * done.
      * by apply not_elem_of_nil in H.
      * split; [done|]. apply IH. by right.
    + intros [_ H]. right. left. by left.
Qed.

(** X9. [getClient] caches one client per chain id: after a call the id of
    the chain is in the cache, a second call changes nothing, and a cache
    without repeated ids stays so.  Over a whole run the cache keeps what it
    held, stays free of repetitions, and gains the ids of the registry when
    there is at least one wallet to probe and nothing otherwise. *)
Theorem client_cache_one_per_chain :
  (∀ chain w,
     ∃ w1,
       getClient chain w = (Ret tt, w1)
       ∧ getClient chain w1 = (Ret tt, w1)
       ∧ Chain.id chain ∈ clientCache w1
       ∧ (NoDup (clientCache w) → NoDup (clientCache w1))
       ∧ ∀ i, i ∈ clientCache w1 ↔ i ∈ clientCache w ∨ i = Chain.id chain)
  ∧ (∀ env registry w records,
       inputCsv w = Some records →
       ∃ w',
         processWallets env registry w = (Ret tt, w')
         ∧ (NoDup (clientCache w) → NoDup (clientCache w'))
         ∧ ∀ i, i ∈ clientCache w'
                ↔ i ∈ clientCache w
                  ∨ (derive_wallets records ≠ []
                     ∧ i ∈ map Chain.id registry)).
Proof.
  split.
  - intros chain w. exists (new_client chain w).
    assert (Chain.id chain ∈ clientCache (new_client chain w)) as Hin.
    { rewrite clientCache_new_client, cache_add_elem. by right. }
    split_and!; [done| |exact Hin| |].
    + unfold getClient, modify. f_equal. unfold new_client at 1.
      by rewrite decide_True.
    + rewrite clientCache_new_client. apply cache_add_NoDup.
    + intros i. rewrite clientCache_new_client. apply cache_add_elem.
  - intros env registry w records Hsrc.
    destruct (processWallets_trace env registry w records Hsrc)
      as (w' & Hrun & _ & _ & Hcache).
    exists w'. split; [exact Hrun|]. rewrite Hcache.
    destruct (cache_after_spec (clientCache w)
                (map CatalogFetch (map Chain.id registry)
                 ++ wallet_events registry
                      (catalogs env (length (log w)) registry ∅)
                      (derive_wallets records))) as [Hnd Hin].
    split; [exact Hnd|].
    intros i. rewrite Hin, probed_run_events. done.
Qed.

(** Two wallets on the enabled registry: one cached client. *)
Lemma client_cache_one_per_chain_witness :
  let w := fresh [embedded "0xA"; embedded "0xB"] in
  ∃ w', processWallets env_answering CHAINS w = (Ret tt, w')
        ∧ clientCache w' = [1%Z].
Proof.
  intros w.
  destruct client_cache_one_per_chain as [_ Hrun].
  destruct (Hrun env_answering CHAINS w _ eq_refl) as (w' & Hr & _).
  exists w'. split; [exact Hr|].
  vm_compute in Hr. injection Hr as <-. reflexivity.
Defined.

(** ** Checkpoints and restarts *)

Lemma filter_iff_in {A} (P Q : A → Prop) `{!∀ x, Decision (P x)}
    `{!∀ x, Decision (Q x)} (l : list A) :
  (∀ x, x ∈ l → (P x ↔ Q x)) → filter P l = filter Q l.
Proof.
  induction l as [|x l IH]; intros Hiff; [done|].
  rewrite !filter_cons, IH.
  - destruct (decide (P x)) as [HP|HP].
    + rewrite decide_True; [done|].
      apply Hiff; [apply list_elem_of_here|done].
    + rewrite decide_False; [done|]. intros HQ.
      apply HP, Hiff; [apply list_elem_of_here|done].
  - intros y Hy. apply Hiff. by apply list_elem_of_further.
Qed.

Lemma remaining_filter done records :
  remaining done records
  = filter (λ r, Forall (λ a, ¬ checkpoint_row a r) done) records.
Proof.
  induction done as [|a done IH] using rev_ind.
  - simpl. symmetry. apply filter_all. intros r. apply Forall_nil_2.
  - rewrite remaining_snoc, IH, list_filter_filter. apply list_filter_iff.
    intros r. rewrite Forall_app, Forall_singleton. tauto.
Qed.

Lemma omap_cons_eq {A B} (f : A → option B) (x : A) (l : list A) :
  omap f (x :: l) = option_list (f x) ++ omap f l.
Proof.
  change (omap f (x :: l))
    with (from_option (λ y, y :: omap f l) (omap f l) (f x)).
  by destruct (f x).
Qed.

Lemma omap_eligible_filter a (records : list SourceRecord.t) :
  omap eligible (filter (λ r, ¬ checkpoint_row a r) records)
  = filter (λ b, b ≠ a) (omap eligible records).
Proof.
  induction records as [|r records IH]; [done|].
  rewrite omap_cons_eq, filter_app, <- IH, filter_cons.
  destruct (eligible r) as [b|] eqn:Hb.
  - apply eligible_spec in Hb as Hrow.
    destruct Hrow as (Haddr & _ & _ & Hf & Hp).
    change (option_list (Some b)) with [b]. rewrite filter_cons, filter_nil.
    destruct (decide (¬ checkpoint_row a r)) as [Hn|Hy].
    + rewrite omap_cons_eq, Hb. rewrite decide_True; [done|].
      intros ->. by apply Hn.
    + rewrite decide_False; [done|].
      intros Hne. apply Hy. intros (Ha & _). congruence.
  - change (option_list None) with (@nil string). rewrite filter_nil.
    destruct (decide (¬ checkpoint_row a r)); [|done].
    by rewrite omap_cons_eq, Hb.
Qed.

Lemma first_occurrences_filter (P : string → Prop) `{!∀ x, Decision (P x)}
    (l : list string) :
  first_occurrences (filter P l) = filter P (first_occurrences l).
Proof.
  induction l as [|x l IH]; [done|].
  cbn [first_occurrences]. rewrite !filter_cons.
  destruct (decide (P x)) as [HP|HP].
  - cbn [first_occurrences]. rewrite IH, !list_filter_filter. f_equal.
    apply list_filter_iff. intros y. tauto.
  - rewrite IH, list_filter_filter. apply list_filter_iff.
    intros y. split; [|tauto]. intros Hy. split; [done|]. by intros ->.
Qed.

Lemma derive_remaining done records :
  derive_wallets (remaining done records)
  = filter (λ b, b ∉ done) (derive_wallets records).
Proof.
  induction done as [|a done IH] using rev_ind.
  - simpl. symmetry. apply filter_all. intros b. apply not_elem_of_nil.
  - rewrite remaining_snoc, derive_wallets_first, omap_eligible_filter,
      first_occurrences_filter, <- derive_wallets_first, IH,
      list_filter_filter.
    apply list_filter_iff. intros b.
    rewrite elem_of_app, list_elem_of_singleton. tauto.
Qed.

Lemma remaining_derived records :
  remaining (derive_wallets records) records
  = filter (λ r, eligible r = None) records.
Proof.
  rewrite remaining_filter. apply filter_iff_in. intros r Hr.
  rewrite Forall_forall. split.
  - intros Hall. destruct (eligible r) as [a|] eqn:Ha; [|done]. exfalso.
    apply eligible_spec in Ha as Hrow.
    apply (Hall a).
    + apply derive_wallets_elem. by exists r.
    + destruct Hrow as (? & _ & _ & ? & ?). done.
  - intros Hnone a Ha (Haddr & Hf & Hp).
    apply derive_wallets_elem in Ha as (r' & _ & (_ & Hne & Hpre & _)).
    assert (eligible_row a r) as Hrow by done.
    apply eligible_spec in Hrow. congruence.
Qed.

(** X10. Checkpoints compose: checkpointing a wallet a second time returns
    and persists the same list, and checkpointing two wallets in either
    order returns and persists the same list. *)
Theorem checkpoints_repeat_and_commute (records : list SourceRecord.t)
    (a b : string) (w : World) :
  ∃ ra wa raa waa rab wab rb wb rba wba,
    updateWalletListCsv records a w = (Ret ra, wa)
    ∧ updateWalletListCsv ra a wa = (Ret raa, waa)
    ∧ updateWalletListCsv ra b wa = (Ret rab, wab)
    ∧ updateWalletListCsv records b w = (Ret rb, wb)
    ∧ updateWalletListCsv rb a wb = (Ret rba, wba)
    ∧ raa = ra ∧ inputCsv waa = inputCsv wa
    ∧ rab = rba ∧ inputCsv wab = inputCsv wba.
Proof.
  eexists _, _, _, _, _, _, _, _, _, _.
  split; [apply updateWalletListCsv_run|].
  split; [apply updateWalletListCsv_run|].
  split; [apply updateWalletListCsv_run|].
  split; [apply updateWalletListCsv_run|].
  split; [apply updateWalletListCsv_run|].
  assert (filter (λ r, ¬ checkpoint_row a r)
            (filter (λ r, ¬ checkpoint_row a r) records)
          = filter (λ r, ¬ checkpoint_row a r) records) as Hrep.
  { rewrite list_filter_filter. apply list_filter_iff. intros r. tauto. }
  assert (filter (λ r, ¬ checkpoint_row b r)
            (filter (λ r, ¬ checkpoint_row a r) records)
          = filter (λ r, ¬ checkpoint_row a r)
              (filter (λ r, ¬ checkpoint_row b r) records)) as Hcom.
  { rewrite !list_filter_filter. apply list_filter_iff. intros r. tauto. }
  split_and!; simpl; congruence.
Qed.

Lemma filter_not_in_self (l : list string) : filter (λ b, b ∉ l) l = [].
Proof.
  assert (∀ l' : list string, l' ⊆ l → filter (λ b, b ∉ l) l' = []) as H.
  { induction l' as [|x l' IH]; intros Hsub; [done|].
    rewrite filter_cons_False.
    - apply IH. intros y Hy. apply Hsub. by apply list_elem_of_further.
    - intros Hnot. apply Hnot, Hsub. apply list_elem_of_here. }
  by apply H.
Qed.

(** X11. A run that can read its source list removes from it exactly the
    eligible rows, those that the wallet set was derived from, and keeps
    every other row in place; no wallet can be derived from the list it
    leaves. *)
Theorem run_removes_exactly_eligible_rows (env : Env)
    (registry : list Chain.t) (w : World) (records : list SourceRecord.t) :
  inputCsv w = Some records →
  ∃ w' rest,
    processWallets env registry w = (Ret tt, w')
    ∧ inputCsv w' = Some rest
    ∧ rest = filter (λ r, eligible r = None) records
    ∧ (∀ r, r ∈ rest ↔ r ∈ records ∧ ∀ a, ¬ eligible_row a r)
    ∧ derive_wallets rest = [].
Proof.
  intros Hsrc.
  destruct (processWallets_run env registry w records Hsrc)
    as (w' & tl & rs & Hrun & _ & Hin & _).
  rewrite remaining_derived in Hin.
  exists w', (filter (λ r, eligible r = None) records).
  split_and!; [exact Hrun|exact Hin|reflexivity| |].
  - intros r. rewrite list_elem_of_filter. split.
    + intros [Hnone Hr]. split; [done|]. intros a Ha%eligible_spec.
      congruence.
    + intros [Hr Hnone]. split; [|done].
      destruct (eligible r) as [a|] eqn:Ha; [|done].
      by apply eligible_spec, Hnone in Ha.
  - rewrite <- remaining_derived, derive_remaining.
    apply filter_not_in_self.
Qed.

(** A source list with an eligible row, a row of another provider and a
    row whose address does not start with "0x". *)
Lemma run_removes_exactly_eligible_rows_witness :
  let other := SourceRecord.mk (Some "0xA") (Some "blockchain")
                               (Some "metamask") [] in
  let odd := embedded "abc" in
  let records := [embedded "0xA"; other; odd] in
  inputCsv (fresh records) = Some records
  ∧ ∃ w', processWallets env_answering CHAINS (fresh records) = (Ret tt, w')
          ∧ inputCsv w' = Some [other; odd].
Proof.
  intros other odd records. split; [reflexivity|].
  destruct (run_removes_exactly_eligible_rows env_answering CHAINS
              (fresh records) records eq_refl)
    as (w' & rest & Hrun & Hin & -> & _).
  exists w'. split; [exact Hrun|]. rewrite Hin. reflexivity.
Defined.

Lemma filter_not_in_prefix (pre post : list string) :
  NoDup (pre ++ post) → filter (λ b, b ∉ pre) (pre ++ post) = post.
Proof.
  intros (_ & Hdisj & _)%NoDup_app.
  rewrite filter_app, filter_not_in_self. simpl.
  rewrite <- (filter_all (λ _, True) post) at 2 by done.
  apply filter_iff_in. intros b Hb. split; [done|].
  intros _ Hin. by apply (Hdisj b).
Qed.

(** X12. The checkpoints make the run resumable at wallet boundaries: when
    the wallet loop of [processWallets] has gone through the first wallets
    [pre] of the derived set, the source list it has persisted derives
    exactly the wallets [post] that were still to come, in the same
    order. *)
Theorem interrupted_run_resumes_with_the_rest (env : Env)
    (registry : list Chain.t) (tokenLists : gmap Z (list Token.t))
    (records : list SourceRecord.t) (pre post : list string) (w : World) :
  inputCsv w = Some records →
  derive_wallets records = pre ++ post →
  ∃ st w' rest,
    for_of (fun (st : nat * list SourceRecord.t) address =>
              let count := S st.1 in
              processWallet env registry address tokenLists ;;;
              records <- updateWalletListCsv st.2 address ;;
              ret (count, records))
           pre (0, records) w
    = (Ret st, w')
    ∧ inputCsv w' = Some rest
    ∧ derive_wallets rest = post.
Proof.
  intros Hsrc Hsplit.
  destruct (wallet_loop_out env registry tokenLists pre records w Hsrc)
    as (st & w' & rs & Hloop & _ & Hin & _).
  exists st, w', (remaining pre records).
  split_and!; [exact Hloop|exact Hin|].
  rewrite derive_remaining, Hsplit. apply filter_not_in_prefix.
  rewrite <- Hsplit. apply derive_wallets_NoDup.
Qed.

(** Three wallets, the process stops after the first. *)
Lemma interrupted_run_resumes_with_the_rest_witness :
  let records := [embedded "0xA"; embedded "0xB"; embedded "0xC"] in
  inputCsv (fresh records) = Some records
  ∧ derive_wallets records = ["0xA"] ++ ["0xB"; "0xC"]
  ∧ ∃ st w' rest,
      for_of (fun (st : nat * list SourceRecord.t) address =>
                let count := S st.1 in
                processWallet env_answering CHAINS address ∅ ;;;
                records <- updateWalletListCsv st.2 address ;;
                ret (count, records))
             ["0xA"] (0, records) (fresh records)
      = (Ret st, w')
      ∧ inputCsv w' = Some rest
      ∧ derive_wallets rest = ["0xB"; "0xC"].
Proof.
  intros records. split; [reflexivity|]. split; [reflexivity|].
  exact (interrupted_run_resumes_with_the_rest env_answering CHAINS ∅
           records ["0xA"] ["0xB"; "0xC"] (fresh records) eq_refl eq_refl).
Defined.

(** X13. A second process started on the files that a completed run left
    makes the catalog requests and nothing else: no balance probe, no
    checkpoint, the source list and both balance files exactly as the first
    run left them. *)
Theorem second_run_probes_nothing (env env' : Env) (registry : list Chain.t)
    (w : World) (records : list SourceRecord.t) :
  inputCsv w = Some records →
  ∃ w1 w2,
    processWallets env registry w = (Ret tt, w1)
    ∧ processWallets env' registry (restart w1) = (Ret tt, w2)
    ∧ log w2 = log w1 ++ map CatalogFetch (map Chain.id registry)
    ∧ inputCsv w2 = inputCsv w1
    ∧ allBalances w2 = allBalances w1
    ∧ nonZeroBalances w2 = nonZeroBalances w1.
Proof.
  intros Hsrc.
  destruct (processWallets_run env registry w records Hsrc)
    as (w1 & tl & rs & Hrun & HO & Hin & _).
  rewrite remaining_derived in Hin.
  destruct HO as (_ & _ & _ & _ & Hex & _).
  destruct (Hex allBalancesPath) as [ab Hab]; [by eexists|].
  destruct (Hex nonZeroBalancesPath) as [nz Hnz]; [by eexists|].
  simpl in Hab, Hnz.
  destruct (fetch_catalogs_out env' registry (init_world (restart w1)))
    as (tl2 & w2 & Hf & HO2 & Hin2).
  exists w1, w2. split; [exact Hrun|].
  assert (derive_wallets (filter (λ r, eligible r = None) records) = [])
    as Hnone.
  { rewrite <- remaining_derived, derive_remaining.
    apply filter_not_in_self. }
  split_and!.
  - eapply processWallets_idle; [exact Hin|exact Hnone|exact Hf].
  - by destruct HO2 as (Hlog & _).
  - by rewrite Hin2.
  - change (allBalances w2) with (read_csv allBalancesPath w2).
    rewrite (Out_same_file _ _ _ allBalancesPath HO2); [|done|by eexists].
    simpl. by rewrite Hab.
  - change (nonZeroBalances w2) with (read_csv nonZeroBalancesPath w2).
    rewrite (Out_same_file _ _ _ nonZeroBalancesPath HO2); [|done|by eexists].
    simpl. by rewrite Hnz.
Qed.

Lemma second_run_probes_nothing_witness :
  let records := [embedded "0xA"; embedded "0xB"] in
  inputCsv (fresh records) = Some records
  ∧ ∃ w1 w2,
      processWallets env_answering CHAINS (fresh records) = (Ret tt, w1)
      ∧ processWallets env_down CHAINS (restart w1) = (Ret tt, w2)
      ∧ length (log w1) = 5
      ∧ length (log w2) = 6
      ∧ allBalances w2 = allBalances w1.
Proof.
  intros records. split; [reflexivity|].
  destruct (second_run_probes_nothing env_answering env_down CHAINS
              (fresh records) records eq_refl)
    as (w1 & w2 & Hr1 & Hr2 & Hlog & _ & Hall & _).
  exists w1, w2. split; [exact Hr1|]. split; [exact Hr2|].
  rewrite Hlog, length_app.
  vm_compute in Hr1. injection Hr1 as <-. split_and!; done.
Defined.

(** ** The batch variant *)

Lemma batch_bind_ret {A B} (m : Batch.M A) (k : A → Batch.M B) s a s' :
  m s = (Ret a, s') → Batch.bind m k s = k a s'.
Proof. intros H. unfold Batch.bind. by rewrite H. Qed.

Lemma batch_Trace_refl env s : Batch.Trace env [] s s.
Proof. unfold Batch.Trace. simpl. by rewrite !app_nil_r. Qed.

Lemma batch_Trace_trans env evs1 evs2 s1 s2 s3 :
  Batch.Trace env evs1 s1 s2 → Batch.Trace env evs2 s2 s3 →
  Batch.Trace env (evs1 ++ evs2) s1 s3.
Proof.
  intros (Hl1 & He1 & Hc1 & Hi1 & Ha1 & Hz1 & Hx1 & Hj1)
         (Hl2 & He2 & Hc2 & Hi2 & Ha2 & Hz2 & Hx2 & Hj2).
  unfold Batch.Trace. split_and!; try congruence.
  - rewrite Hl2, Hl1. by rewrite app_assoc.
  - rewrite He2, He1, errors_of_app, Hl1, length_app. by rewrite app_assoc.
  - rewrite Hc2, Hc1. unfold cache_after. by rewrite fold_left_app.
Qed.

Lemma batch_Trace_length env evs s s' :
  Batch.Trace env evs s s' →
  length (Batch.log s') = length (Batch.log s) + length evs.
Proof. intros (-> & _). apply length_app. Qed.

Lemma batch_new_client chain s :
  Batch.log (Batch.new_client chain s) = Batch.log s
  ∧ Batch.errors (Batch.new_client chain s) = Batch.errors s
  ∧ Batch.clientCache (Batch.new_client chain s)
    = cache_add (Batch.clientCache s) (Chain.id chain)
  ∧ Batch.inputCsv (Batch.new_client chain s) = Batch.inputCsv s
  ∧ Batch.walletBalances (Batch.new_client chain s) = Batch.walletBalances s
  ∧ Batch.walletsWithBalance (Batch.new_client chain s)
    = Batch.walletsWithBalance s
  ∧ Batch.errorCsv (Batch.new_client chain s) = Batch.errorCsv s
  ∧ Batch.errorJson (Batch.new_client chain s) = Batch.errorJson s.
Proof.
  unfold Batch.new_client, cache_add. case_decide; split_and!; done.
Qed.

Lemma batch_fetchTokenList_trace env chainId s :
  ∃ s', Batch.fetchTokenList env chainId s
        = (Ret (catalog_of (axios_get env (length (Batch.log s)) chainId)), s')
        ∧ Batch.Trace env [CatalogFetch chainId] s s'.
Proof.
  unfold Batch.fetchTokenList, Batch.try_catch, Batch.bind,
    Batch.axios_get_tokenlist, Batch.Trace.
  destruct (axios_get env (length (Batch.log s)) chainId)
    as [response|message] eqn:E.
  - exists (Batch.log_event (CatalogFetch chainId) s). split.
    + destruct response as [[[[tokens|]]|]]; reflexivity.
    + simpl. rewrite E. simpl. rewrite app_nil_r. split_and!; done.
  - eexists. split; [reflexivity|]. simpl. rewrite E. split_and!; done.
Qed.

Lemma batch_checkNativeBalance_trace env address chain s :
  ∃ b s', Batch.checkNativeBalance env address chain s = (Ret b, s')
          ∧ result_of env (length (Batch.log s)) (NativeProbe address chain)
            = Some (address, b)
          ∧ Batch.Trace env [NativeProbe address chain] s s'.
Proof.
  destruct (batch_new_client chain s)
    as (Hl & He & Hc & Hi & Ha & Hz & Hx & Hj).
  unfold Batch.checkNativeBalance, Batch.try_catch, Batch.bind,
    Batch.client_getBalance, Batch.getClient, Batch.modify, Batch.Trace.
  rewrite Hl.
  destruct (getBalance env (length (Batch.log s)) chain address)
    as [raw|message] eqn:E.
  - eexists _, _. split; [reflexivity|]. simpl. rewrite E, Hl, He. simpl.
    rewrite app_nil_r. split_and!; done.
  - eexists _, _. split; [reflexivity|]. simpl. rewrite E, Hl, He. simpl.
    split_and!; done.
Qed.

Lemma batch_checkERC20Balance_trace env address chain token s :
  ∃ b s', Batch.checkERC20Balance env address chain token s = (Ret b, s')
          ∧ result_of env (length (Batch.log s))
              (ERC20Probe address chain token)
            = Some (address, b)
          ∧ Batch.Trace env [ERC20Probe address chain token] s s'.
Proof.
  destruct (batch_new_client chain s)
    as (Hl & He & Hc & Hi & Ha & Hz & Hx & Hj).
  unfold Batch.checkERC20Balance, Batch.try_catch, Batch.bind,
    Batch.client_readContract, Batch.getClient, Batch.modify, Batch.Trace.
  rewrite Hl.
  destruct (readContract env (length (Batch.log s)) chain
              (Token.address token) address) as [raw|message] eqn:E.
  - eexists _, _. split; [reflexivity|]. simpl. rewrite E, Hl, He. simpl.
    rewrite app_nil_r. split_and!; done.
  - eexists _, _. split; [reflexivity|]. simpl. rewrite E, Hl, He. simpl.
    split_and!; done.
Qed.

Lemma batch_token_loop_trace env address chain tokens :
  ∀ results s,
    ∃ s',
      Batch.for_of
        (fun results token =>
           Batch.bind (Batch.checkERC20Balance env address chain token)
             (fun tokenBalance =>
                Batch.ret (results ++ [(address, tokenBalance)])))
        tokens results s
      = (Ret (results
              ++ results_of env (length (Batch.log s))
                   (map (ERC20Probe address chain) tokens)), s')
      ∧ Batch.Trace env (map (ERC20Probe address chain) tokens) s s'.
Proof.
  induction tokens as [|token tokens IH]; intros results s.
  - exists s. simpl. rewrite app_nil_r.
    split; [done|apply batch_Trace_refl].
  - destruct (batch_checkERC20Balance_trace env address chain token s)
      as (b & s1 & Hb & Hres & HT1).
    apply batch_Trace_length in HT1 as Hlen. simpl in Hlen.
    destruct (IH (results ++ [(address, b)]) s1) as (s' & Hloop & HT2).
    rewrite Hlen, Nat.add_1_r in Hloop.
    exists s'. split.
    + cbn [Batch.for_of map results_of]. rewrite Hres.
      change (option_list (Some (address, b))) with [(address, b)].
      erewrite batch_bind_ret; [rewrite app_assoc; exact Hloop|].
      erewrite batch_bind_ret by exact Hb. reflexivity.
    + cbn [map]. exact (batch_Trace_trans env [_] _ _ _ _ HT1 HT2).
Qed.

Lemma batch_check_wallet_trace env registry tokenLists address :
  ∀ results s,
    ∃ s',
      Batch.check_wallet env registry tokenLists results address s
      = (Ret (results
              ++ results_of env (length (Batch.log s))
                   (wallet_probes registry address tokenLists)), s')
      ∧ Batch.Trace env (wallet_probes registry address tokenLists) s s'.
Proof.
  unfold Batch.check_wallet.
  induction registry as [|chain registry IH]; intros results s.
  - exists s. simpl. rewrite app_nil_r.
    split; [done|apply batch_Trace_refl].
  - destruct (batch_checkNativeBalance_trace env address chain s)
      as (b & s1 & Hb & Hres & HT1).
    apply batch_Trace_length in HT1 as Hlen. simpl in Hlen.
    destruct (batch_token_loop_trace env address chain
                (take 20 (default [] (tokenLists !! Chain.id chain)))
                (results ++ [(address, b)]) s1)
      as (s2 & Hloop & HT2).
    rewrite Hlen, Nat.add_1_r in Hloop.
    pose proof (batch_Trace_trans env [_] _ _ _ _ HT1 HT2) as HT12.
    apply batch_Trace_length in HT12 as Hlen2.
    destruct (IH (results ++ [(address, b)]
                  ++ results_of env (S (length (Batch.log s)))
                       (map (ERC20Probe address chain)
                          (take 20 (default [] (tokenLists
                                                !! Chain.id chain))))) s2)
      as (s' & Hrest & HT3).
    assert (wallet_probes (chain :: registry) address tokenLists
            = ([NativeProbe address chain]
               ++ map (ERC20Probe address chain)
                    (take 20 (default [] (tokenLists !! Chain.id chain))))
              ++ wallet_probes registry address tokenLists) as Hwp.
    { unfold wallet_probes. simpl. unfold chain_probes.
      by rewrite capped_take. }
    exists s'. split.
    + cbn [Batch.for_of]. erewrite batch_bind_ret.
      * rewrite Hrest, Hwp, results_of_app, <- Hlen2.
        cbn [app results_of]. rewrite Hres.
        change (option_list (Some (address, b))) with [(address, b)].
        by rewrite <- !app_assoc.
      * erewrite batch_bind_ret by exact Hb. rewrite <- app_assoc in Hloop.
        exact Hloop.
    + rewrite Hwp. by eapply batch_Trace_trans.
Qed.

Lemma batch_fetch_catalogs_trace env registry :
  ∀ tokenLists s,
    ∃ s',
      Batch.for_of
        (fun tokenLists chain =>
           Batch.bind (Batch.fetchTokenList env (Chain.id chain))
             (fun tokens =>
                Batch.ret (<[Chain.id chain := tokens]> tokenLists)))
        registry tokenLists s
      = (Ret (catalogs env (length (Batch.log s)) registry tokenLists), s')
      ∧ Batch.Trace env (map CatalogFetch (map Chain.id registry)) s s'.
Proof.
  induction registry as [|chain registry IH]; intros tl s.
  - exists s. split; [done|apply batch_Trace_refl].
  - destruct (batch_fetchTokenList_trace env (Chain.id chain) s)
      as (s1 & Hf & HT1).
    apply batch_Trace_length in HT1 as Hlen. simpl in Hlen.
    destruct (IH (<[Chain.id chain :=
                      catalog_of (axios_get env (length (Batch.log s))
                                    (Chain.id chain))]> tl) s1)
      as (s' & Hrest & HT2).
    rewrite Hlen, Nat.add_1_r in Hrest.
    exists s'. split.
    + cbn [Batch.for_of catalogs]. erewrite batch_bind_ret; [exact Hrest|].
      erewrite batch_bind_ret by exact Hf. reflexivity.
    + cbn [map]. exact (batch_Trace_trans env [_] _ _ _ _ HT1 HT2).
Qed.

Lemma batch_wallet_loop_trace env registry tokenLists wallets :
  ∀ (st : list (string * BalanceRecord.t) * nat) s,
    ∃ s',
      Batch.for_of
        (fun (st : list (string * BalanceRecord.t) * nat) address =>
           let count := S st.2 in
           Batch.bind (Batch.check_wallet env registry tokenLists st.1 address)
             (fun results => Batch.ret (results, count)))
        wallets st s
      = (Ret (st.1 ++ results_of env (length (Batch.log s))
                        (Batch.run_events registry tokenLists wallets),
              st.2 + length wallets), s')
      ∧ Batch.Trace env (Batch.run_events registry tokenLists wallets) s s'.
Proof.
  induction wallets as [|a wallets IH]; intros st s.
  - exists s. simpl. rewrite app_nil_r, Nat.add_0_r.
    split; [by destruct st|apply batch_Trace_refl].
  - destruct (batch_check_wallet_trace env registry tokenLists a st.1 s)
      as (s1 & Hw & HT1).
    apply batch_Trace_length in HT1 as Hlen.
    destruct (IH (st.1 ++ results_of env (length (Batch.log s))
                            (wallet_probes registry a tokenLists),
                  S st.2) s1) as (s' & Hrest & HT2).
    exists s'. split.
    + cbn [Batch.for_of]. erewrite batch_bind_ret.
      * rewrite Hrest. unfold Batch.run_events. cbn [flat_map fst snd].
        rewrite results_of_app, <- Hlen, <- app_assoc.
        do 3 f_equal. simpl. lia.
      * erewrite batch_bind_ret by exact Hw. reflexivity.
    + unfold Batch.run_events. cbn [flat_map]. by eapply batch_Trace_trans.
Qed.

Lemma results_of_catalogs env n ids :
  results_of env n (map CatalogFetch ids) = [].
Proof. revert n. induction ids as [|i ids IH]; intros n; [done|]. apply IH. Qed.

Lemma batch_processWallets_run env registry s records :
  Batch.inputCsv s = Some records →
  let evs := map CatalogFetch (map Chain.id registry)
             ++ Batch.run_events registry
                  (catalogs env (length (Batch.log s)) registry ∅)
                  (derive_wallets records) in
  let results := results_of env (length (Batch.log s)) evs in
  ∃ s',
    Batch.processWallets env registry s = (Ret tt, s')
    ∧ Batch.log s' = Batch.log s ++ evs
    ∧ Batch.errors s'
      = Batch.errors s ++ errors_of env (length (Batch.log s)) evs
    ∧ Batch.clientCache s' = cache_after (Batch.clientCache s) evs
    ∧ Batch.inputCsv s' = Some records
    ∧ Batch.walletBalances s' = Some results
    ∧ Batch.walletsWithBalance s'
      = Some (filter (λ x, positive x.2) results)
    ∧ Batch.errorCsv s' = Some (Batch.errors s')
    ∧ Batch.errorJson s' = Some (Batch.errors s').
Proof.
  intros Hsrc evs results.
  destruct (batch_fetch_catalogs_trace env registry ∅ s) as (s1 & Hf & HT1).
  destruct (batch_wallet_loop_trace env registry
              (catalogs env (length (Batch.log s)) registry ∅)
              (derive_wallets records) ([], 0) s1) as (s2 & Hloop & HT2).
  pose proof (batch_Trace_trans _ _ _ _ _ _ HT1 HT2)
    as (Hl & He & Hc & Hi & Ha & Hz & Hx & Hj).
  apply batch_Trace_length in HT1 as Hlen. rewrite !length_map in Hlen.
  assert (results_of env (length (Batch.log s1))
            (Batch.run_events registry
               (catalogs env (length (Batch.log s)) registry ∅)
               (derive_wallets records)) = results) as Hres.
  { unfold results, evs. rewrite results_of_app, results_of_catalogs.
    rewrite !length_map, Hlen. done. }
  eexists. split.
  - unfold Batch.processWallets, Batch.try_catch.
    assert (Batch.read_records s = (Ret records, s)) as Hread.
    { unfold Batch.read_records, Batch.bind, Batch.get. simpl.
      by rewrite Hsrc. }
    erewrite batch_bind_ret by exact Hread.
    unfold Batch.fetch_catalogs. erewrite batch_bind_ret by exact Hf.
    erewrite batch_bind_ret by exact Hloop.
    cbn [fst app]. rewrite Hres. reflexivity.
  - simpl. split_and!; try done. congruence.
Qed.

Lemma batch_results_length env registry tokenLists wallets n :
  length (results_of env n
            (flat_map (λ a, wallet_probes registry a tokenLists) wallets))
  = length wallets * length (wallet_probes registry "" tokenLists).
Proof.
  revert n. induction wallets as [|a l IH]; intros n; [done|].
  cbn [flat_map]. rewrite results_of_app, length_app, IH.
  destruct (results_of_probes env a _
              (wallet_probes_shape registry a tokenLists) n) as (-> & _).
  rewrite !wallet_probes_length. simpl. lia.
Qed.

(** X14. The batch entry point of [index.js], on a readable source list,
    ends normally and writes the four files once, from memory: the results
    file holds one result per balance probe in request order, the non-zero
    file the results of it whose balance is greater than zero, and the error
    CSV and the JSON document both hold all the errors in memory, one per
    failed request.  Whatever the files held before is replaced, and the
    source list is left as it was. *)
Theorem batch_run_writes_all_files (env : Env) (registry : list Chain.t)
    (s : Batch.State) (records : list SourceRecord.t) :
  Batch.inputCsv s = Some records →
  ∃ s' evs results,
    Batch.processWallets env registry s = (Ret tt, s')
    ∧ Batch.log s' = Batch.log s ++ evs
    ∧ evs = map CatalogFetch (map Chain.id registry)
            ++ flat_map
                 (λ a, wallet_probes registry a
                         (catalogs env (length (Batch.log s)) registry ∅))
                 (derive_wallets records)
    ∧ results = results_of env (length (Batch.log s)) evs
    ∧ length results
      = length (derive_wallets records)
        * length (wallet_probes registry ""
                    (catalogs env (length (Batch.log s)) registry ∅))
    ∧ Batch.walletBalances s' = Some results
    ∧ Batch.walletsWithBalance s'
      = Some (filter (λ x, (0 < BalanceRecord.balance x.2)%Q) results)
    ∧ Batch.errors s'
      = Batch.errors s ++ errors_of env (length (Batch.log s)) evs
    ∧ Batch.errorCsv s' = Some (Batch.errors s')
    ∧ Batch.errorJson s' = Some (Batch.errors s')
    ∧ Batch.inputCsv s' = Some records.
Proof.
  intros Hsrc.
  destruct (batch_processWallets_run env registry s records Hsrc)
    as (s' & Hrun & Hl & He & _ & Hi & Ha & Hz & Hx & Hj).
  eexists s', _, _.
  split_and!; [exact Hrun|exact Hl|reflexivity|reflexivity| |exact Ha|
               |exact He|exact Hx|exact Hj|exact Hi].
  - rewrite results_of_app, results_of_catalogs. cbn [app].
    apply batch_results_length.
  - rewrite Hz. f_equal. apply list_filter_iff. intros x. apply positive_spec.
Qed.

Lemma batch_run_writes_all_files_witness :
  let old := [("0xOLD", BalanceRecord.mk "Ethereum" "native" "ETH" 1
                                         "native" "ETH" None)] in
  let s := Batch.start (Some [embedded "0xA"]) old [] in
  Batch.inputCsv s = Some [embedded "0xA"]
  ∧ ∃ s', Batch.processWallets env_down Batch.CHAINS s = (Ret tt, s')
          ∧ length (default [] (Batch.walletBalances s')) = 8
          ∧ Batch.walletsWithBalance s' = Some []
          ∧ length (Batch.errors s') = 16.
Proof.
  intros old s. split; [reflexivity|].
  destruct (batch_run_writes_all_files env_down Batch.CHAINS s
              [embedded "0xA"] eq_refl)
    as (s' & evs & results & Hrun & _).
  exists s'. split; [exact Hrun|].
  vm_compute in Hrun. injection Hrun as <-. split_and!; reflexivity.
Defined.

(** X15. When the batch entry point cannot read the source list, it makes
    no request and does not touch the two balance files; it appends one
    error with operation "processWallets" and writes the errors in memory
    to both error files. *)
Theorem batch_unreadable_source (env : Env) (registry : list Chain.t)
    (s : Batch.State) :
  Batch.inputCsv s = None →
  ∃ s' message,
    Batch.processWallets env registry s = (Ret tt, s')
    ∧ Batch.log s' = Batch.log s
    ∧ Batch.errors s'
      = Batch.errors s ++ [ErrorRecord.mk "N/A" "N/A" "N/A" "N/A"
                                          "processWallets" message]
    ∧ Batch.errorCsv s' = Some (Batch.errors s')
    ∧ Batch.errorJson s' = Some (Batch.errors s')
    ∧ Batch.walletBalances s' = Batch.walletBalances s
    ∧ Batch.walletsWithBalance s' = Batch.walletsWithBalance s.
Proof.
  intros Hsrc. eexists _, _. split.
  - unfold Batch.processWallets, Batch.try_catch.
    unfold Batch.bind at 1, Batch.read_records at 1, Batch.bind, Batch.get.
    simpl. rewrite Hsrc. reflexivity.
  - split_and!; reflexivity.
Qed.

Lemma batch_unreadable_source_witness :
  let s := Batch.start None [] [] in
  Batch.inputCsv s = None
  ∧ ∃ s', Batch.processWallets env_down Batch.CHAINS s = (Ret tt, s')
          ∧ Batch.log s' = []
          ∧ length (default [] (Batch.errorCsv s')) = 1.
Proof.
  intros s. split; [reflexivity|].
  destruct (batch_unreadable_source env_down Batch.CHAINS s eq_refl)
    as (s' & message & Hrun & _).
  exists s'. split; [exact Hrun|].
  vm_compute in Hrun. injection Hrun as <-. split; reflexivity.
Defined.

(** ** The rows of a whole run *)

Lemma results_of_checkpoint env n a : results_of env n [Checkpoint a] = [].
Proof. reflexivity. Qed.

Lemma wallet_loop_rows env registry tokenLists wallets :
  ∀ (st : nat * list SourceRecord.t) w,
    ∃ st' w',
      for_of (fun (st : nat * list SourceRecord.t) address =>
                let count := S st.1 in
                processWallet env registry address tokenLists ;;;
                records <- updateWalletListCsv st.2 address ;;
                ret (count, records))
             wallets st w
      = (Ret st', w')
      ∧ log w' = log w ++ wallet_events registry tokenLists wallets
      ∧ rows allBalancesPath w'
        = rows allBalancesPath w
          ++ map result_row
               (results_of env (length (log w))
                  (wallet_events registry tokenLists wallets))
      ∧ rows nonZeroBalancesPath w'
        = rows nonZeroBalancesPath w
          ++ map result_row
               (filter (λ x, positive x.2)
                  (results_of env (length (log w))
                     (wallet_events registry tokenLists wallets))).
Proof.
  induction wallets as [|a wallets IH]; intros st w.
  - exists st, w. simpl. rewrite !app_nil_r. done.
  - destruct (processWallet_trace env registry a tokenLists w)
      as (r & w1 & Hp & Hres & _ & HT1).
    destruct (processWallet_out env registry a tokenLists w)
      as (r' & w1' & Hp' & (_ & Hall & Hnz & _) & _).
    rewrite Hp in Hp'. injection Hp' as <- <-.
    pose proof (updateWalletListCsv_run st.2 a w1) as Hu.
    set (w2 := log_event (Checkpoint a)
                 (set_inputCsv
                    (Some (filter (λ r, ¬ checkpoint_row a r) st.2)) w1))
      in *.
    destruct (IH (S st.1, filter (λ r, ¬ checkpoint_row a r) st.2) w2)
      as (st' & w' & Hrest & Hlog & Hall2 & Hnz2).
    apply Trace_length in HT1 as Hlen1.
    destruct HT1 as (Hlog1 & _).
    assert (log w2 = log w1 ++ [Checkpoint a]) as Hlog2 by done.
    assert (length (log w2)
            = length (log w)
              + length (wallet_probes registry a tokenLists ++ [Checkpoint a]))
      as Hlen2.
    { rewrite Hlog2, !length_app, Hlen1. simpl. lia. }
    assert (results_of env (length (log w))
              (wallet_events registry tokenLists (a :: wallets))
            = r.1 ++ results_of env (length (log w2))
                       (wallet_events registry tokenLists wallets)) as Hsplit.
    { unfold wallet_events. cbn [flat_map]. fold (wallet_events registry
                                                    tokenLists wallets).
      rewrite results_of_app, <- Hlen2, results_of_app, results_of_checkpoint,
        app_nil_r, Hres. done. }
    exists st', w'. split_and!.
    + cbn [for_of]. erewrite bind_ret; [exact Hrest|].
      erewrite bind_ret by exact Hp. erewrite bind_ret by exact Hu.
      reflexivity.
    + rewrite Hlog, Hlog2, Hlog1. unfold wallet_events. cbn [flat_map].
      by rewrite <- !app_assoc.
    + rewrite Hsplit, Hall2, map_app, app_assoc. f_equal. exact Hall.
    + rewrite Hsplit, Hnz2, filter_app, map_app, app_assoc. f_equal.
      exact Hnz.
Qed.

Lemma wallet_events_results_length env registry tokenLists wallets n :
  length (results_of env n (wallet_events registry tokenLists wallets))
  = length wallets * length (wallet_probes registry "" tokenLists).
Proof.
  revert n. unfold wallet_events.
  induction wallets as [|a l IH]; intros n; [done|].
  cbn [flat_map]. rewrite !results_of_app, !length_app, IH.
  destruct (results_of_probes env a _
              (wallet_probes_shape registry a tokenLists) n) as (-> & _).
  rewrite results_of_checkpoint, !wallet_probes_length. simpl. lia.
Qed.

Lemma processWallets_rows env registry w records :
  inputCsv w = Some records →
  let evs := map CatalogFetch (map Chain.id registry)
             ++ wallet_events registry
                  (catalogs env (length (log w)) registry ∅)
                  (derive_wallets records) in
  ∃ w',
    processWallets env registry w = (Ret tt, w')
    ∧ log w' = log w ++ evs
    ∧ rows allBalancesPath w'
      = default [headers] (allBalances w)
        ++ map result_row (results_of env (length (log w)) evs)
    ∧ rows nonZeroBalancesPath w'
      = default [headers] (nonZeroBalances w)
        ++ map result_row
             (filter (λ x, positive x.2)
                (results_of env (length (log w)) evs)).
Proof.
  intros Hsrc evs.
  destruct (fetch_catalogs_loop_trace env registry ∅ (init_world w))
    as (w1 & Hf & HT1 & Hs1).
  destruct (fetch_catalogs_out env registry (init_world w))
    as (tl' & w1' & Hf' & (_ & Hall1 & Hnz1 & _) & _).
  unfold fetch_catalogs in Hf'. rewrite Hf in Hf'. injection Hf' as <- <-.
  simpl in Hall1, Hnz1. rewrite app_nil_r in Hall1, Hnz1.
  apply Trace_length in HT1 as Hlen. rewrite !length_map in Hlen.
  simpl in Hlen.
  destruct HT1 as (Hlog1 & _). simpl in Hlog1.
  destruct (wallet_loop_rows env registry
              (catalogs env (length (log w)) registry ∅)
              (derive_wallets records) (0, records) w1)
    as (st & w2 & Hloop & Hlog & Hall & Hnz).
  assert (results_of env (length (log w)) evs
          = results_of env (length (log w1))
              (wallet_events registry
                 (catalogs env (length (log w)) registry ∅)
                 (derive_wallets records))) as Hres.
  { unfold evs. rewrite results_of_app, results_of_catalogs.
    rewrite !length_map, Hlen. done. }
  exists w2. split_and!.
  - unfold processWallets, try_catch.
    erewrite bind_ret by apply initializeOutputFiles_run.
    assert (read_records (init_world w) = (Ret records, init_world w)) as Hread.
    { unfold read_records, bind, get. simpl. by rewrite Hsrc. }
    erewrite bind_ret by exact Hread.
    unfold fetch_catalogs. erewrite bind_ret by exact Hf.
    erewrite bind_ret by exact Hloop.
    reflexivity.
  - rewrite Hlog, Hlog1. unfold evs. by rewrite app_assoc.
  - rewrite Hres, Hall, Hall1. done.
  - rewrite Hres, Hnz, Hnz1. done.
Qed.

(** ** The two balance files *)






(** X16. Over a whole run the all-balances file gains one row per balance
    probe of the run, in request order, the row of the record built from
    the answer to that request, after what the file held (its header row
    when the run created it); the non-zero file gains the rows of those of
    these records whose balance is greater than zero.  The number of rows
    gained by the all-balances file is the number of wallets times the
    number of probes per wallet. *)
Theorem run_gains_one_row_per_probe (env : Env) (registry : list Chain.t)
    (w : World) (records : list SourceRecord.t) :
  inputCsv w = Some records →
  ∃ w' evs results,
    processWallets env registry w = (Ret tt, w')
    ∧ log w' = log w ++ evs
    ∧ results = results_of env (length (log w)) evs
    ∧ rows allBalancesPath w'
      = default [headers] (allBalances w) ++ map result_row results
    ∧ rows nonZeroBalancesPath w'
      = default [headers] (nonZeroBalances w)
        ++ map result_row
             (filter (λ x, (0 < BalanceRecord.balance x.2)%Q) results)
    ∧ length results
      = length (derive_wallets records)
        * sum_list
            (map (λ chain,
                    1 + 20 `min`
                          length (default []
                                    (catalogs env (length (log w)) registry ∅
                                     !! Chain.id chain)))
                 registry).
Proof.
  intros Hsrc.
  destruct (processWallets_rows env registry w records Hsrc)
    as (w' & Hrun & Hlog & Hall & Hnz).
  eexists w', _, _.
  split_and!; [exact Hrun|exact Hlog|reflexivity|exact Hall| |].
  - rewrite Hnz. do 2 f_equal. apply list_filter_iff.
    intros x. apply positive_spec.
  - rewrite results_of_app, results_of_catalogs. cbn [app].
    rewrite wallet_events_results_length, wallet_probes_length. done.
Qed.

Lemma run_gains_one_row_per_probe_witness :
  let records := [embedded "0xA"; embedded "0xB"] in
  let env := env_up (map sample_token (seq 0 25)) 7 formatEther_viem in
  inputCsv (fresh records) = Some records
  ∧ ∃ w', processWallets env CHAINS (fresh records) = (Ret tt, w')
          ∧ length (rows allBalancesPath w') = 1 + 2 * 21
          ∧ length (rows nonZeroBalancesPath w') = 1 + 2 * 21.
Proof.
  intros records env. split; [reflexivity|].
  destruct (run_gains_one_row_per_probe env CHAINS (fresh records) records
              eq_refl)
    as (w' & evs & results & Hrun & _).
  exists w'. split; [exact Hrun|].
  vm_compute in Hrun. injection Hrun as <-. split; reflexivity.
Defined.

(** ** Networks whose answers do not depend on time *)

Lemma stationary_result_of env i j ev :
  stationary env → result_of env i ev = result_of env j ev.
Proof.
  intros Hst. destruct (Hst i j) as (_ & Hb & Hr).
  destruct ev as [|a chain|a chain token|]; simpl; [done| | |done].
  - by rewrite Hb.
  - by rewrite Hr.
Qed.

Lemma stationary_error_of env i j ev :
  stationary env → error_of env i ev = error_of env j ev.
Proof.
  intros Hst. destruct (Hst i j) as (Ha & Hb & Hr).
  destruct ev as [id|a chain|a chain token|]; simpl; [| | |done].
  - by rewrite Ha.
  - by rewrite Hb.
  - by rewrite Hr.
Qed.

Lemma stationary_results_of env n evs :
  stationary env → results_of env n evs = omap (result_of env 0) evs.
Proof.
  intros Hst. revert n. induction evs as [|ev evs IH]; intros n; [done|].
  cbn [results_of]. rewrite omap_cons_eq, IH.
  by rewrite (stationary_result_of env n 0).
Qed.

Lemma stationary_errors_of env n evs :
  stationary env → errors_of env n evs = omap (error_of env 0) evs.
Proof.
  intros Hst. revert n. induction evs as [|ev evs IH]; intros n; [done|].
  cbn [errors_of]. rewrite omap_cons_eq, IH.
  by rewrite (stationary_error_of env n 0).
Qed.

Lemma stationary_catalogs env n m registry tokenLists :
  stationary env →
  catalogs env n registry tokenLists = catalogs env m registry tokenLists.
Proof.
  intros Hst. revert n m tokenLists.
  induction registry as [|chain registry IH]; intros n m tl; [done|].
  cbn [catalogs]. destruct (Hst n m) as (Ha & _). rewrite Ha.
  apply IH.
Qed.

Lemma omap_without_checkpoints {B} (f : Event → option B) registry
    tokenLists wallets :
  (∀ a, f (Checkpoint a) = None) →
  omap f (wallet_events registry tokenLists wallets)
  = omap f (Batch.run_events registry tokenLists wallets).
Proof.
  intros Hf. unfold wallet_events, Batch.run_events.
  induction wallets as [|a wallets IH]; [done|].
  cbn [flat_map]. rewrite !omap_app, IH, omap_cons_eq, Hf.
  change (option_list None ++ omap f []) with (@nil B).
  by rewrite app_nil_r.
Qed.

(** ** More on the wallet set and on the error records *)

(** X18. Rows added at the end of the source list never move or remove a
    wallet that was already derived: the wallet set of [l1 ++ l2] is that of
    [l1] followed by the wallets of [l2] that are new. *)
Theorem derive_wallets_app (l1 l2 : list SourceRecord.t) :
  derive_wallets (l1 ++ l2)
  = derive_wallets l1
    ++ filter (λ a, a ∉ derive_wallets l1) (derive_wallets l2).
Proof.
  rewrite (derive_wallets_fold (l1 ++ l2)), omap_app, fold_left_app.
  rewrite <- derive_wallets_fold.
  rewrite fold_Set_add by apply derive_wallets_NoDup.
  by rewrite <- derive_wallets_first.
Qed.

Lemma errors_of_elem env n evs e :
  e ∈ errors_of env n evs → ∃ i ev, ev ∈ evs ∧ error_of env i ev = Some e.
Proof.
  revert n. induction evs as [|ev evs IH]; intros n.
  - intros H. by apply not_elem_of_nil in H.
  - cbn [errors_of]. rewrite elem_of_app. intros [H|H].
    + exists n, ev. split; [apply list_elem_of_here|].
      destruct (error_of env n ev) as [e'|]; simpl in H.
      * apply list_elem_of_singleton in H. by subst.
      * by apply not_elem_of_nil in H.
    + destruct (IH _ H) as (i & ev' & Hin & He).
      exists i, ev'. split; [by apply list_elem_of_further|done].
Qed.

Lemma wallet_probes_elem registry address tokenLists ev :
  ev ∈ wallet_probes registry address tokenLists →
  ∃ chain, chain ∈ registry
           ∧ (ev = NativeProbe address chain
              ∨ ∃ token,
                  token ∈ take 20 (default [] (tokenLists !! Chain.id chain))
                  ∧ ev = ERC20Probe address chain token).
Proof.
  unfold wallet_probes. rewrite list_elem_of_In, in_flat_map.
  intros (chain & Hc & Hev). exists chain.
  split; [by apply list_elem_of_In|].
  apply list_elem_of_In in Hev. unfold chain_probes in Hev.
  rewrite capped_take in Hev.
  apply elem_of_cons in Hev as [->|Hev]; [by left|]. right.
  apply list_elem_of_fmap in Hev as (token & -> & Ht). by exists token.
Qed.

Lemma run_events_elem registry tokenLists wallets ev :
  ev ∈ map CatalogFetch (map Chain.id registry)
       ++ wallet_events registry tokenLists wallets →
  (∃ chain, chain ∈ registry ∧ ev = CatalogFetch (Chain.id chain))
  ∨ (∃ a, a ∈ wallets ∧ ev = Checkpoint a)
  ∨ (∃ a, a ∈ wallets ∧ ev ∈ wallet_probes registry a tokenLists).
Proof.
  rewrite elem_of_app. intros [H|H].
  - left. apply list_elem_of_fmap in H as (i & -> & Hi).
    apply list_elem_of_fmap in Hi as (chain & -> & Hc). by exists chain.
  - right. unfold wallet_events in H.
    rewrite list_elem_of_In, in_flat_map in H. destruct H as (a & Ha & Hev).
    apply list_elem_of_In in Ha, Hev.
    apply elem_of_app in Hev as [Hev|Hev].
    + right. by exists a.
    + left. apply list_elem_of_singleton in Hev. by exists a.
Qed.

(** X19. Every error recorded by a run that can read its source list is of
    one of three kinds.  A failed catalog request gives operation
    "fetchTokenList", the stringified id of a chain of the registry and
    "N/A" for token, token address and wallet.  A failed native probe gives
    operation "checkNativeBalance", token address "native", the name and the
    native symbol of a chain of the registry and a wallet of the derived
    set.  A failed token probe gives operation "checkERC20Balance", a wallet
    of the derived set, the name of a chain of the registry and the symbol
    and address of one of the first twenty tokens that were listed for that
    chain. *)
Theorem errors_are_of_three_kinds (env : Env) (registry : list Chain.t)
    (w : World) (records : list SourceRecord.t) :
  inputCsv w = Some records →
  let tokenLists := catalogs env (length (log w)) registry ∅ in
  ∃ w' es,
    processWallets env registry w = (Ret tt, w')
    ∧ errors w' = errors w ++ es
    ∧ Forall
        (λ e,
           (∃ chain,
              chain ∈ registry
              ∧ ErrorRecord.operation e = "fetchTokenList"
              ∧ ErrorRecord.chain e = String_of (Chain.id chain)
              ∧ ErrorRecord.token e = "N/A"
              ∧ ErrorRecord.tokenAddress e = "N/A"
              ∧ ErrorRecord.walletAddress e = "N/A")
           ∨ (∃ chain,
                chain ∈ registry
                ∧ ErrorRecord.operation e = "checkNativeBalance"
                ∧ ErrorRecord.chain e = Chain.name chain
                ∧ ErrorRecord.token e
                  = NativeCurrency.symbol (Chain.nativeCurrency chain)
                ∧ ErrorRecord.tokenAddress e = "native"
                ∧ ErrorRecord.walletAddress e ∈ derive_wallets records)
           ∨ (∃ chain token,
                chain ∈ registry
                ∧ token ∈ take 20 (default []
                                     (tokenLists !! Chain.id chain))
                ∧ ErrorRecord.operation e = "checkERC20Balance"
                ∧ ErrorRecord.chain e = Chain.name chain
                ∧ ErrorRecord.token e = Token.symbol token
                ∧ ErrorRecord.tokenAddress e = Token.address token
                ∧ ErrorRecord.walletAddress e ∈ derive_wallets records))
        es.
Proof.
  intros Hsrc tl.
  destruct (processWallets_trace env registry w records Hsrc)
    as (w' & Hrun & _ & Herr & _).
  eexists w', _. split; [exact Hrun|]. split; [exact Herr|].
  apply Forall_forall. intros e He.
  apply errors_of_elem in He as (i & ev & Hev & He).
  apply run_events_elem in Hev as [(chain & Hc & ->)|[(a & Ha & ->)|
                                   (a & Ha & Hev)]].
  - left. exists chain. simpl in He.
    destruct (axios_get env i (Chain.id chain)); [done|].
    injection He as <-. done.
  - done.
  - apply wallet_probes_elem in Hev as (chain & Hc & [->|(t & Ht & ->)]).
    + right. left. exists chain. simpl in He.
      destruct (getBalance env i chain a); [done|].
      injection He as <-. done.
    + right. right. exists chain, t. simpl in He.
      destruct (readContract env i chain (Token.address t) a); [done|].
      injection He as <-. done.
Qed.

Lemma errors_are_of_three_kinds_witness :
  let records := [embedded "0xA"] in
  inputCsv (fresh records) = Some records
  ∧ ∃ w', processWallets env_down CHAINS (fresh records) = (Ret tt, w')
          ∧ map ErrorRecord.walletAddress (errors w') = ["N/A"; "0xA"].
Proof.
  intros records. split; [reflexivity|].
  destruct (errors_are_of_three_kinds env_down CHAINS (fresh records) records
              eq_refl)
    as (w' & es & Hrun & _).
  exists w'. split; [exact Hrun|].
  vm_compute in Hrun. injection Hrun as <-. reflexivity.
Defined.

(** ** The two entry points on their own registries *)

Lemma filter_omap_none {A B} (h : A → option B) (Q : B → Prop)
    `{!∀ y, Decision (Q y)} (l : list A) :
  (∀ x y, x ∈ l → h x = Some y → ¬ Q y) → filter Q (omap h l) = [].
Proof.
  induction l as [|x l IH]; intros Hl; [done|].
  rewrite omap_cons_eq, filter_app, IH.
  - destruct (h x) as [y|] eqn:E; [|done].
    change (option_list (Some y)) with [y].
    rewrite filter_cons_False; [done|].
    eapply Hl; [apply list_elem_of_here|exact E].
  - intros x' y Hx'. apply Hl. by apply list_elem_of_further.
Qed.

Lemma filter_omap_all {A B} (h : A → option B) (Q : B → Prop)
    `{!∀ y, Decision (Q y)} (l : list A) :
  (∀ x y, x ∈ l → h x = Some y → Q y) → filter Q (omap h l) = omap h l.
Proof.
  induction l as [|x l IH]; intros Hl; [done|].
  rewrite omap_cons_eq, filter_app, IH.
  - destruct (h x) as [y|] eqn:E; [|done].
    change (option_list (Some y)) with [y].
    rewrite filter_cons_True; [done|].
    eapply Hl; [apply list_elem_of_here|exact E].
  - intros x' y Hx'. apply Hl. by apply list_elem_of_further.
Qed.

Lemma filter_swap {A} (P Q : A → Prop)
    `{!∀ x, Decision (P x), !∀ x, Decision (Q x)} (l : list A) :
  filter P (filter Q l) = filter Q (filter P l).
Proof. rewrite !list_filter_filter. apply list_filter_iff. intros x. tauto. Qed.

Lemma chain_probes_elem a tokenLists chain ev :
  ev ∈ chain_probes a tokenLists chain →
  ev = NativeProbe a chain ∨ ∃ token, ev = ERC20Probe a chain token.
Proof.
  unfold chain_probes. intros [->|Hev]%elem_of_cons; [by left|]. right.
  apply list_elem_of_fmap in Hev as (token & -> & _). by exists token.
Qed.

Lemma result_of_probe_chain env i a c ev y :
  ev = NativeProbe a c ∨ (∃ token, ev = ERC20Probe a c token) →
  result_of env i ev = Some y →
  BalanceRecord.chain y.2 = Chain.name c.
Proof.
  intros [->|[token ->]] Hy; cbn [result_of] in Hy; injection Hy as <-;
    cbn [snd].
  - by destruct (getBalance env i c a).
  - by destruct (readContract env i c (Token.address token) a).
Qed.

Lemma error_of_probe_chain env i a c ev e :
  ev = NativeProbe a c ∨ (∃ token, ev = ERC20Probe a c token) →
  error_of env i ev = Some e →
  ErrorRecord.chain e = Chain.name c.
Proof.
  intros [->|[token ->]] He; cbn [error_of] in He.
  - destruct (getBalance env i c a); [done|]. by injection He as <-.
  - destruct (readContract env i c (Token.address token) a); [done|].
    by injection He as <-.
Qed.

Lemma error_of_catalog_chain env i chainId e :
  error_of env i (CatalogFetch chainId) = Some e →
  ErrorRecord.chain e = String_of chainId.
Proof.
  cbn [error_of]. destruct (axios_get env i chainId); [done|].
  intros He. by injection He as <-.
Qed.

Lemma run_events_shared {B} (h : Event → option B) (Q : B → Prop)
    `{!∀ y, Decision (Q y)} chain rest
    (tokenLists' tokenLists : gmap Z (list Token.t)) wallets :
  tokenLists' !! Chain.id chain = tokenLists !! Chain.id chain →
  (∀ a ev y,
     ev = NativeProbe a chain ∨ (∃ token, ev = ERC20Probe a chain token) →
     h ev = Some y → Q y) →
  (∀ a c ev y,
     c ∈ rest →
     ev = NativeProbe a c ∨ (∃ token, ev = ERC20Probe a c token) →
     h ev = Some y → ¬ Q y) →
  filter Q (omap h (Batch.run_events (chain :: rest) tokenLists' wallets))
  = omap h (Batch.run_events [chain] tokenLists wallets).
Proof.
  intros Heq Hin Hout. unfold Batch.run_events.
  induction wallets as [|a wallets IH]; [done|].
  cbn [flat_map]. rewrite !omap_app, filter_app, IH. f_equal.
  unfold wallet_probes. cbn [flat_map]. rewrite app_nil_r, omap_app, filter_app.
  fold (wallet_probes rest a tokenLists').
  rewrite (filter_omap_none h Q (wallet_probes rest a tokenLists')).
  - rewrite app_nil_r.
    assert (chain_probes a tokenLists' chain = chain_probes a tokenLists chain)
      as -> by (unfold chain_probes; by rewrite Heq).
    apply filter_omap_all. intros ev y Hev Hy.
    apply (Hin a ev y); [by eapply chain_probes_elem|exact Hy].
  - intros ev y Hev Hy.
    apply wallet_probes_elem in Hev as (c & Hc & Hev).
    apply (Hout a c ev y Hc); [|exact Hy].
    destruct Hev as [->|(t & _ & ->)]; [by left|right; by exists t].
Qed.

Lemma shared_chain_agreement env chain rest w s
    (records : list SourceRecord.t) :
  stationary env →
  (∀ c, c ∈ rest →
        Chain.name c ≠ Chain.name chain
        ∧ Chain.name c ≠ String_of (Chain.id chain)
        ∧ String_of (Chain.id c) ≠ Chain.name chain
        ∧ String_of (Chain.id c) ≠ String_of (Chain.id chain)) →
  inputCsv w = Some records →
  Batch.inputCsv s = Some records →
  ∃ w' s' results es,
    processWallets env [chain] w = (Ret tt, w')
    ∧ Batch.processWallets env (chain :: rest) s = (Ret tt, s')
    ∧ Batch.walletBalances s' = Some results
    ∧ Batch.walletsWithBalance s'
      = Some (filter (λ x, positive x.2) results)
    ∧ Batch.errors s' = Batch.errors s ++ es
    ∧ rows allBalancesPath w'
      = default [headers] (allBalances w)
        ++ map result_row (filter (result_on chain) results)
    ∧ rows nonZeroBalancesPath w'
      = default [headers] (nonZeroBalances w)
        ++ map result_row
             (filter (result_on chain)
                (filter (λ x, positive x.2) results))
    ∧ errors w' = errors w ++ filter (error_on chain) es.
Proof.
  intros Hst Hapart Hsrc Hsrc'.
  destruct (processWallets_rows env [chain] w records Hsrc)
    as (w' & Hrun & _ & Hall & Hnz).
  destruct (processWallets_trace env [chain] w records Hsrc)
    as (w'' & Hrun' & _ & Herr & _).
  rewrite Hrun in Hrun'. injection Hrun' as <-.
  destruct (batch_processWallets_run env (chain :: rest) s records Hsrc')
    as (s' & Hrun2 & _ & Herr2 & _ & _ & Ha2 & Hz2 & _).
  set (n := length (log w)) in *. set (m := length (Batch.log s)) in *.
  set (tl := catalogs env n [chain] ∅) in *.
  set (tl' := catalogs env m (chain :: rest) ∅) in *.
  set (wallets := derive_wallets records) in *.
  assert (Chain.id chain ∉ map Chain.id rest) as Hid.
  { intros (c & Hc & Hin)%list_elem_of_fmap.
    destruct (Hapart c Hin) as (_ & _ & _ & Hne). apply Hne. by rewrite Hc. }
  assert (tl' !! Chain.id chain = tl !! Chain.id chain) as Htl.
  { unfold tl', tl. cbn [catalogs]. rewrite catalogs_other by exact Hid.
    rewrite !lookup_insert_eq. destruct (Hst m n) as (Ha & _).
    by rewrite Ha. }
  assert (filter (result_on chain)
            (results_of env m
               (map CatalogFetch (map Chain.id (chain :: rest))
                ++ Batch.run_events (chain :: rest) tl' wallets))
          = results_of env n
              (map CatalogFetch (map Chain.id [chain])
               ++ wallet_events [chain] tl wallets)) as HR.
  { rewrite !results_of_app, !results_of_catalogs. cbn [app].
    rewrite !stationary_results_of by exact Hst.
    rewrite omap_without_checkpoints by done.
    apply run_events_shared; [exact Htl| |].
    - intros a ev y Hev Hy. unfold result_on.
      by eapply result_of_probe_chain.
    - intros a c ev y Hc Hev Hy. unfold result_on.
      rewrite (result_of_probe_chain env 0 a c ev y Hev Hy).
      by destruct (Hapart c Hc) as (Hne & _). }
  assert (filter (error_on chain)
            (errors_of env m
               (map CatalogFetch (map Chain.id (chain :: rest))
                ++ Batch.run_events (chain :: rest) tl' wallets))
          = errors_of env n
              (map CatalogFetch (map Chain.id [chain])
               ++ wallet_events [chain] tl wallets)) as HE.
  { rewrite !stationary_errors_of by exact Hst.
    rewrite !omap_app, filter_app, omap_without_checkpoints by done.
    f_equal.
    - cbn [map]. rewrite !omap_cons_eq, filter_app.
      rewrite (filter_omap_none (error_of env 0) (error_on chain)
                 (map CatalogFetch (map Chain.id rest))).
      + f_equal.
        destruct (error_of env 0 (CatalogFetch (Chain.id chain)))
          as [e|] eqn:E; [|done].
        change (option_list (Some e)) with [e].
        rewrite filter_cons_True; [done|]. right.
        by apply (error_of_catalog_chain env 0).
      + intros ev e Hev He.
        apply list_elem_of_fmap in Hev as (i & -> & Hi).
        apply list_elem_of_fmap in Hi as (c & -> & Hc).
        apply error_of_catalog_chain in He.
        destruct (Hapart c Hc) as (_ & _ & H3 & H4).
        unfold error_on. rewrite He. tauto.
    - apply run_events_shared; [exact Htl| |].
      + intros a ev e Hev He. left. by eapply error_of_probe_chain.
      + intros a c ev e Hc Hev He. unfold error_on.
        rewrite (error_of_probe_chain env 0 a c ev e Hev He).
        destruct (Hapart c Hc) as (H1 & H2 & _). tauto. }
  eexists w', s', _, _.
  split_and!; [exact Hrun|exact Hrun2|exact Ha2|exact Hz2|exact Herr2| | |].
  - rewrite HR. exact Hall.
  - rewrite filter_swap, HR. exact Hnz.
  - rewrite HE. exact Herr.
Qed.

Lemma env_tokens_stationary tokens raw : stationary (env_tokens tokens raw).
Proof. intros i j. split_and!; done. Qed.

(** X17. The incremental entry point runs on its own registry, on which
    Ethereum alone is enabled, and the batch entry point of [index.js] on
    its table of eight chains, of which Ethereum is the first.  On a network
    whose answers do not depend on the time of the request and on one and
    the same source list they agree on the chain they share: the rows that
    the incremental run appends to the all-balances file are the rows of
    those results written by the batch run that are on Ethereum, in the same
    order; the same holds of the non-zero results; and the errors that the
    incremental run records are, in the same order, those errors of the
    batch run that concern Ethereum, that is, the failed catalog request for
    chain id 1 and the failed probes on Ethereum. *)
Theorem incremental_and_batch_agree (env : Env) (w : World)
    (s : Batch.State) (records : list SourceRecord.t) :
  stationary env →
  inputCsv w = Some records →
  Batch.inputCsv s = Some records →
  ∃ w' s' results nonzero es,
    processWallets env CHAINS w = (Ret tt, w')
    ∧ Batch.processWallets env Batch.CHAINS s = (Ret tt, s')
    ∧ Batch.walletBalances s' = Some results
    ∧ Batch.walletsWithBalance s' = Some nonzero
    ∧ nonzero = filter (λ x, (0 < BalanceRecord.balance x.2)%Q) results
    ∧ Batch.errors s' = Batch.errors s ++ es
    ∧ rows allBalancesPath w'
      = default [headers] (allBalances w)
        ++ map result_row (filter (result_on Ethereum) results)
    ∧ rows nonZeroBalancesPath w'
      = default [headers] (nonZeroBalances w)
        ++ map result_row (filter (result_on Ethereum) nonzero)
    ∧ errors w' = errors w ++ filter (error_on Ethereum) es.
Proof.
  intros Hst Hsrc Hsrc'.
  destruct (shared_chain_agreement env Ethereum (tail Batch.CHAINS) w s
              records Hst) as (w' & s' & results & es & H);
    [|exact Hsrc|exact Hsrc'|].
  - intros c Hc. cbn [tail Batch.CHAINS] in Hc.
    repeat (apply elem_of_cons in Hc as [->|Hc]);
      [..|by apply not_elem_of_nil in Hc];
      split_and!; vm_compute; discriminate.
  - destruct H as (Hrun & Hrun2 & Ha & Hz & He & Hall & Hnz & Herr).
    assert (filter (λ x : string * BalanceRecord.t, positive x.2) results
            = filter (λ x, (0 < BalanceRecord.balance x.2)%Q) results)
      as Hpos.
    { apply list_filter_iff. intros x. apply positive_spec. }
    rewrite Hpos in Hz, Hnz.
    eexists w', s', results, _, es.
    split_and!; [exact Hrun|exact Hrun2|exact Ha|exact Hz|reflexivity|
                 exact He|exact Hall|exact Hnz|exact Herr].
Qed.

(** One wallet, every native balance zero and one token with a balance on
    every chain: the batch run reports sixteen results, two of them on
    Ethereum, and these two are the rows of the incremental run. *)
Lemma incremental_and_batch_agree_witness :
  let records := [embedded "0xA"] in
  let env := env_tokens [sample_token 0] 3 in
  let s := Batch.start (Some records) [] [] in
  stationary env
  ∧ inputCsv (fresh records) = Some records
  ∧ Batch.inputCsv s = Some records
  ∧ ∃ w' s' results,
      processWallets env CHAINS (fresh records) = (Ret tt, w')
      ∧ Batch.processWallets env Batch.CHAINS s = (Ret tt, s')
      ∧ Batch.walletBalances s' = Some results
      ∧ rows allBalancesPath w'
        = headers :: map result_row (filter (result_on Ethereum) results)
      ∧ length results = 16
      ∧ length (filter (result_on Ethereum) results) = 2.
Proof.
  intros records env s.
  split; [apply env_tokens_stationary|]. split; [reflexivity|].
  split; [reflexivity|].
  destruct (incremental_and_batch_agree env (fresh records) s records
              (env_tokens_stationary _ _) eq_refl eq_refl)
    as (w' & s' & results & nonzero & es & Hr1 & Hr2 & Hb & _ & _ & _ & Hall
        & _).
  exists w', s', results.
  split; [exact Hr1|]. split; [exact Hr2|]. split; [exact Hb|].
  split; [exact Hall|].
  vm_compute in Hr2. injection Hr2 as <-.
  vm_compute in Hb. injection Hb as <-.
  split; reflexivity.
Defined.
